(** * soju: a shallow embedding of the bouncer's pure core

    The development follows the Go sources:
    - [ircutil] (memberships, user and channel modes, JOIN splitting),
    - [bridge.go] (NAMES replies, channel MODE application),
    - [service.go] (BouncerServ tokenizer, command dispatch, and the
      handlers that edit network and user records),
    - [db_sqlite.go] (the SQLite persistence store and its schema upgrade),
    - [sojuctl] (the database part of create-user and change-password).

    Go strings are byte strings: they are modelled by [string] (a list of
    [ascii] bytes), [len] by [String.length].  Go maps are modelled by
    [gmap] where only lookups matter and by association lists where the
    code ranges over them (the iteration order of a Go map is unspecified,
    so every statement about such a loop quantifies over all orders). *)

From Stdlib Require Import ZArith List Ascii String Sorting.Sorted SpecFloat.
From stdpp Require Import base tactics option list sorting gmap strings.

Local Open Scope string_scope.
Local Open Scope list_scope.
Local Open Scope Z_scope.

(** ** Shared helpers *)

Ltac prop_solve :=
  repeat match goal with
  | |- _ <-> _ => split
  | |- _ -> _ => intro
  | H : _ /\ _ |- _ => destruct H
  | H : _ \/ _ |- _ => destruct H
  | H : ex _ |- _ => destruct H
  | H : ?x <> ?x |- _ => by destruct H
  | |- _ /\ _ => split
  | |- ~ _ => intro
  end; try done; try discriminate; try congruence;
  try (by eexists); try (by left); try (by right).

(** The double quote, the single quote and the backslash as bytes. *)
Definition dquote : ascii := ascii_of_nat 34.
Definition squote : ascii := ascii_of_nat 39.
Definition backslash : ascii := ascii_of_nat 92.

(** A Go [rune] is a Unicode code point (an [int32]). *)
Definition rune := Z.

Definition rune_of_ascii (c : ascii) : rune := Z.of_N (N_of_ascii c).

(** [utf8.EncodeRune], as [strings.Builder.WriteRune] and the conversion
    [string(r)] use it: the UTF-8 encoding of one rune (an invalid rune is
    written as U+FFFD). *)
Definition byteOf (z : Z) : ascii := ascii_of_N (Z.to_N z).

Definition encodeRune (r : rune) : list ascii :=
  let r := if (r <? 0) || (1114111 <? r) || ((55296 <=? r) && (r <=? 57343))
           then 65533 else r in
  if r <=? 127 then [byteOf r]
  else if r <=? 2047 then
    [byteOf (Z.lor 192 (Z.shiftr r 6)); byteOf (Z.lor 128 (Z.land r 63))]
  else if r <=? 65535 then
    [byteOf (Z.lor 224 (Z.shiftr r 12));
     byteOf (Z.lor 128 (Z.land (Z.shiftr r 6) 63));
     byteOf (Z.lor 128 (Z.land r 63))]
  else
    [byteOf (Z.lor 240 (Z.shiftr r 18));
     byteOf (Z.lor 128 (Z.land (Z.shiftr r 12) 63));
     byteOf (Z.lor 128 (Z.land (Z.shiftr r 6) 63));
     byteOf (Z.lor 128 (Z.land r 63))].

(** [string(b)] for a byte [b]: the encoding of the code point [b], one byte
    below 128 and two bytes from 128 on. *)
Definition stringOfByte (b : ascii) : string :=
  string_of_list_ascii (encodeRune (rune_of_ascii b)).

(** [len(s)] as a Go [int]. *)
Definition len (s : string) : Z := Z.of_nat (String.length s).

(** ** gopkg.in/irc.v3: messages as they are written on the wire

    The library is outside the repository; [Message.String] is modelled for
    messages without tags, which is all this development sends.  The CRLF
    that ends a line on the wire is not part of [String]: the writer of
    the library appends it. *)

Module Irc.

Module Prefix.
Record t := mk { Name : string; User : string; Host : string }.

Definition String (p : t) : string :=
  Name p
  +:+ (if negb (String.eqb (User p) "") then "!" +:+ User p else "")
  +:+ (if negb (String.eqb (Host p) "") then "@" +:+ Host p else "").
End Prefix.

Module Message.
Record t := mk {
  Prefix : option Prefix.t;
  Command : string;
  Params : list string;
}.

Definition containsSpace (s : string) : bool :=
  existsb (fun c => Ascii.eqb c " ") (list_ascii_of_string s).

Definition startsWithColon (s : string) : bool :=
  match s with
  | String c _ => Ascii.eqb c ":"
  | EmptyString => false
  end.

(** The last parameter is written as a trailing parameter when it is empty,
    contains a space or starts with a colon. *)
Definition needsColon (trailing : string) : bool :=
  (String.length trailing =? 0)%nat || containsSpace trailing
  || startsWithColon trailing.

Definition String (m : t) : string :=
  (match Prefix m with
   | Some p =>
       if negb (String.eqb (Prefix.Name p) "")
       then ":" +:+ Prefix.String p +:+ " " else ""
   | None => ""
   end)
  +:+ Command m
  +:+ (match Params m with
       | [] => ""
       | _ :: _ =>
           let args := removelast (Params m) in
           let trailing := List.last (Params m) "" in
           (if (0 <? length args)%nat then " " +:+ String.concat " " args else "")
           +:+ (if needsColon trailing then " :" else " ")
           +:+ trailing
       end).
End Message.

(** [Writer.WriteMessage]: the bytes put on the connection for a message,
    its [String] followed by CRLF. *)
Module Writer.
End Writer.

End Irc.

(** ** ircutil *)

Module Ircutil.

Definition MaxMessageLen : Z := 512.

(** [type ChannelModeType byte] with its four standard values. *)
Inductive ChannelModeType := ModeTypeA | ModeTypeB | ModeTypeC | ModeTypeD.

#[global] Instance ChannelModeType_eq_dec : EqDecision ChannelModeType.
Proof. solve_decision. Defined.

Definition StdChannelModes : gmap ascii ChannelModeType :=
  list_to_map
    [("b"%char, ModeTypeA); ("e"%char, ModeTypeA); ("I"%char, ModeTypeA);
     ("k"%char, ModeTypeB); ("l"%char, ModeTypeC);
     ("i"%char, ModeTypeD); ("m"%char, ModeTypeD); ("n"%char, ModeTypeD);
     ("s"%char, ModeTypeD); ("t"%char, ModeTypeD)].

(** [type ChannelModes map[byte]string] *)
Abbreviation ChannelModes := (gmap ascii string).

Record Membership := mkMembership { Mode : ascii; Prefix : ascii }.

#[global] Instance Membership_eq_dec : EqDecision Membership.
Proof. solve_decision. Defined.

Definition StdMemberships : list Membership :=
  [mkMembership "q" "~"; mkMembership "a" "&"; mkMembership "o" "@";
   mkMembership "h" "%"; mkMembership "v" "+"].

(** [type Memberships []Membership] *)
Abbreviation Memberships := (list Membership).

(** The loop of [Memberships.Add]: [i] is the cursor into [l]; the result is
    [None] when the function returns early (the membership is already there)
    and the insertion index otherwise. *)
Fixpoint addLoop (availableMemberships : list Membership) (l : Memberships)
    (newMembership : Membership) (i : nat) : option nat :=
  match availableMemberships with
  | [] => Some i
  | availableMembership :: rest =>
      if bool_decide (length l <= i)%nat then Some i
      else if bool_decide (l !! i = Some availableMembership) then
        if bool_decide (availableMembership = newMembership) then None
        else addLoop rest l newMembership (S i)
      else if bool_decide (availableMembership = newMembership) then Some i
      else addLoop rest l newMembership i
  end.

(** Go's builtin [copy(dst, src)]: the first [min (len dst) (len src)]
    elements of [dst] are overwritten (with memmove semantics). *)
Definition copy {A} (dst src : list A) : list A :=
  take (length dst) src ++ drop (length src) dst.

(** [l = append(l, Membership{}); copy(l[i+1:], l[i:]); l[i] = newMembership] *)
Definition insertAt (l : Memberships) (i : nat) (newMembership : Membership)
    : Memberships :=
  let l1 := l ++ [mkMembership zero zero] in
  let l2 := take (S i) l1 ++ copy (drop (S i) l1) (drop i l1) in
  <[i := newMembership]> l2.

Definition Add (availableMemberships : list Membership) (m : Memberships)
    (newMembership : Membership) : Memberships :=
  match addLoop availableMemberships m newMembership 0 with
  | None => m
  | Some i => insertAt m i newMembership
  end.

(** [Memberships.Remove]: the first equal element is cut out. *)
Definition Remove (m : Memberships) (oldMembership : Membership) : Memberships :=
  match list_find (fun currentMembership => currentMembership = oldMembership) m with
  | Some (i, _) => take i m ++ drop (S i) m
  | None => m
  end.

(** [caps[name]] on a [map[string]bool]: a missing key reads [false]. *)
Definition capEnabled (caps : gmap string bool) (name : string) : bool :=
  default false (caps !! name).

Definition Format (m : Memberships) (caps : gmap string bool) : string :=
  if negb (capEnabled caps "multi-prefix") then
    match m with
    | [] => ""
    | m0 :: _ => stringOfByte (Prefix m0)
    end
  else string_of_list_ascii (map Prefix m).

(** [joinSorter.Less] on two (channel, key) pairs. *)
Definition hasKey (ck : string * string) : bool := negb (String.eqb ck.2 "").

Definition joinLess (a b : string * string) : bool :=
  if negb (Bool.eqb (hasKey a) (hasKey b)) then hasKey a
  else String.ltb a.1 b.1.

(** [a] may stand before [b] in a list sorted by [joinLess]. *)
Definition joinLe (a b : string * string) : Prop := joinLess b a = false.

#[global] Instance joinLe_dec : RelDecision joinLe.
Proof. intros a b. unfold joinLe. apply _. Defined.

(** [&irc.Message{Command: "JOIN", Params: params}] for the two buffers. *)
Definition joinMessage (channelsBuf keysBuf : string) : Irc.Message.t :=
  Irc.Message.mk None "JOIN"
    (channelsBuf :: (if 0 <? len keysBuf then [keysBuf] else [])).

Definition joinMaxLength : Z := MaxMessageLen - (len "JOIN" + 2).

(** One iteration of the loop of [Join] on the channel and its key; the
    state is [msgs], [channelsBuf] and [keysBuf]. *)
Definition joinStep (st : list Irc.Message.t * string * string)
    (ck : string * string) : list Irc.Message.t * string * string :=
  let '(msgs, channelsBuf, keysBuf) := st in
  let channel := ck.1 in
  let key := ck.2 in
  let n := len channelsBuf + len keysBuf + 1 + len channel in
  let n := if hasKey ck then n + 1 + len key else n in
  let '(msgs, channelsBuf, keysBuf) :=
    if (0 <? len channelsBuf) && (joinMaxLength <? n)
    then (msgs ++ [joinMessage channelsBuf keysBuf], "", "")
    else (msgs, channelsBuf, keysBuf) in
  let channelsBuf :=
    (if 0 <? len channelsBuf then channelsBuf +:+ "," else channelsBuf) +:+ channel in
  let keysBuf :=
    if hasKey ck
    then (if 0 <? len keysBuf then keysBuf +:+ "," else keysBuf) +:+ key
    else keysBuf in
  (msgs, channelsBuf, keysBuf).

(** The loop and the final flush, on the sorted pairs. *)
Definition joinSorted (sorted : list (string * string)) : list Irc.Message.t :=
  let '(msgs, channelsBuf, keysBuf) := fold_left joinStep sorted ([], "", "") in
  if 0 <? len channelsBuf then msgs ++ [joinMessage channelsBuf keysBuf] else msgs.

(** [Join]: [sort.Sort] permutes the two slices in place into an order
    sorted by [Less] (any such order is a possible outcome; the model takes
    the one of a merge sort), then the loop runs.  [keys[i]] panics when
    [keys] is shorter than [channels]: the result is then [None]. *)
Definition Join (channels keys : list string) : option (list Irc.Message.t) :=
  if (length keys <? length channels)%nat then None
  else Some (joinSorted (merge_sort joinLe (zip channels keys))).

(** *** User modes

    [type UserModes string]: the mode letters of a user, as bytes of a
    string. *)
Module UserModes.

(** [strings.IndexByte]: the index of the first [c] in [s], or -1. *)
Fixpoint IndexByte (s : string) (c : ascii) : Z :=
  match s with
  | EmptyString => -1
  | String a s' =>
      if Ascii.eqb a c then 0
      else let i := IndexByte s' c in if i <? 0 then -1 else i + 1
  end.

Definition Has (ms : string) (c : ascii) : bool := 0 <=? IndexByte ms c.

(** [*ms += UserModes(c)]: the conversion of the byte is the conversion of
    an integer to a string. *)
Definition Add (ms : string) (c : ascii) : string :=
  if negb (Has ms c) then ms +:+ stringOfByte c else ms.

(** The modes before the index [i] of [c] followed by those after it. *)
Definition Del (ms : string) (c : ascii) : string :=
  let i := IndexByte ms c in
  if 0 <=? i then
    substring 0 (Z.to_nat i) ms
    +:+ substring (Z.to_nat (i + 1)) (String.length ms - Z.to_nat (i + 1)) ms
  else ms.

Inductive applyError := MalformedModestring (s : string).

(** One iteration of the loop of [Apply]; the state is [*ms] and
    [plusMinus] (zero at first). *)
Definition applyStep (s : string) (st : string * ascii) (c : ascii)
    : applyError + string * ascii :=
  let '(ms, plusMinus) := st in
  if bool_decide (c = "+"%char \/ c = "-"%char) then inr (ms, c)
  else if bool_decide (plusMinus = "+"%char) then inr (Add ms c, plusMinus)
  else if bool_decide (plusMinus = "-"%char) then inr (Del ms c, plusMinus)
  else inl (MalformedModestring s).

Fixpoint applyLoop (s : string) (rest : list ascii) (st : string * ascii)
    : string * option applyError :=
  match rest with
  | [] => (st.1, None)
  | c :: rest' =>
      match applyStep s st c with
      | inl e => (st.1, Some e)
      | inr st' => applyLoop s rest' st'
      end
  end.

(** [Apply] returns the error and mutates [*ms]: the modes as the call
    leaves them are the first component. *)
Definition Apply (ms : string) (s : string) : string * option applyError :=
  applyLoop s (list_ascii_of_string s) (ms, zero).

End UserModes.

(** *** Channel modes as a mode string

    [ChannelModes.Format] ranges over the map: [entries] are the entries of
    the map in the order in which the loop meets them.  The two builders
    and [parameters] are the state. *)
Definition formatStep (st : string * string * list string)
    (entry : ascii * string) : string * string * list string :=
  let '(modesWithValues, modesWithoutValues, parameters) := st in
  let '(mode, value) := entry in
  if negb (String.eqb value "")
  then (modesWithValues +:+ stringOfByte mode, modesWithoutValues,
        parameters ++ [value])
  else (modesWithValues, modesWithoutValues +:+ stringOfByte mode, parameters).

Definition FormatModes (entries : list (ascii * string)) : string * list string :=
  let '(modesWithValues, modesWithoutValues, parameters) :=
    fold_left formatStep entries ("", "", []) in
  ("+" +:+ modesWithValues +:+ modesWithoutValues, parameters).

End Ircutil.


(** ** bridge.go *)

Module Bridge.
Import Ircutil.

(** The fields of [upstreamConn] and [upstreamChannel] that [sendNames] and
    [applyChannelModes] read and write.  [modes] may be the nil map. *)
Record upstreamConn := mkUpstreamConn {
  availableMemberships : list Membership;
  availableChannelModes : gmap ascii ChannelModeType;
}.

Record upstreamChannel := mkUpstreamChannel {
  Name : string;
  Status : ascii;
  conn : upstreamConn;
  Members : gmap string Memberships;
  modes : option ChannelModes;
}.

Inductive modeError :=
  | MissingPlusMinus (modeStr : string)
  | MissingModeArgument (modeStr : string) (plusMinus mode : ascii).

(** The variables of the loop of [applyChannelModes]. *)
Record modeState := mkModeState {
  ch : upstreamChannel;
  needMarshaling : gset nat;
  nextArgument : nat;
  plusMinus : ascii;
}.

(** [if ch.modes != nil { ch.modes[mode] = argument }] *)
Definition setMode (c : upstreamChannel) (mode : ascii) (argument : string)
    : upstreamChannel :=
  match modes c with
  | Some m => mkUpstreamChannel (Name c) (Status c) (conn c) (Members c) (Some (<[mode := argument]> m))
  | None => c
  end.

(** [delete(ch.modes, mode)], a no-op on the nil map. *)
Definition deleteMode (c : upstreamChannel) (mode : ascii) : upstreamChannel :=
  match modes c with
  | Some m => mkUpstreamChannel (Name c) (Status c) (conn c) (Members c) (Some (delete mode m))
  | None => c
  end.

(** The membership branch: the member named by the argument, when known,
    gains or loses the membership. *)
Definition updateMember (c : upstreamChannel) (plus : bool) (member : string)
    (membership : Membership) : upstreamChannel :=
  match Members c !! member with
  | Some ms =>
      let ms' := if plus then Add (availableMemberships (conn c)) ms membership
                 else Remove ms membership in
      mkUpstreamChannel (Name c) (Status c) (conn c) (<[member := ms']> (Members c)) (modes c)
  | None => c
  end.

(** One iteration of the [outer] loop on the byte [mode]. *)
Definition applyMode (modeStr : string) (arguments : list string)
    (st : modeState) (mode : ascii) : modeError + modeState :=
  if bool_decide (mode = "+"%char \/ mode = "-"%char) then
    inr (mkModeState (ch st) (needMarshaling st) (nextArgument st) mode)
  else if bool_decide (plusMinus st <> "+"%char /\ plusMinus st <> "-"%char) then
    inl (MissingPlusMinus modeStr)
  else
    let plus := bool_decide (plusMinus st = "+"%char) in
    match list_find (fun membership => Mode membership = mode)
            (availableMemberships (conn (ch st))) with
    | Some (_, membership) =>
        match arguments !! nextArgument st with
        | None => inl (MissingModeArgument modeStr (plusMinus st) mode)
        | Some member =>
            inr (mkModeState (updateMember (ch st) plus member membership)
                   ({[nextArgument st]} ∪ needMarshaling st)
                   (S (nextArgument st)) (plusMinus st))
        end
    | None =>
        match availableChannelModes (conn (ch st)) !! mode with
        | None => inr st
        | Some mt =>
            if bool_decide (mt = ModeTypeB \/ (mt = ModeTypeC /\ plus = true)) then
              let c' :=
                if plus then
                  setMode (ch st) mode (default "" (arguments !! nextArgument st))
                else deleteMode (ch st) mode in
              inr (mkModeState c' (needMarshaling st) (S (nextArgument st)) (plusMinus st))
            else if bool_decide (mt = ModeTypeC \/ mt = ModeTypeD) then
              let c' := if plus then setMode (ch st) mode "" else deleteMode (ch st) mode in
              inr (mkModeState c' (needMarshaling st) (nextArgument st) (plusMinus st))
            else inr st
        end
    end.

Fixpoint applyModes (modeStr : string) (arguments : list string)
    (rest : list ascii) (st : modeState) : modeState * option modeError :=
  match rest with
  | [] => (st, None)
  | mode :: rest' =>
      match applyMode modeStr arguments st mode with
      | inl e => (st, Some e)
      | inr st' => applyModes modeStr arguments rest' st'
      end
  end.

(** [applyChannelModes] returns [(needMarshaling, err)] and mutates [ch]; the
    channel as the call leaves it is the first component. *)
Definition applyChannelModes (c : upstreamChannel) (modeStr : string)
    (arguments : list string) : upstreamChannel * (modeError + gset nat) :=
  let '(st, err) :=
    applyModes modeStr arguments (list_ascii_of_string modeStr)
      (mkModeState c ∅ 0 zero) in
  (ch st, match err with Some e => inl e | None => inr (needMarshaling st) end).

(** *** NAMES replies *)

(** What [sendNames] uses of the downstream connection: [dc.nick],
    [dc.caps], [dc.srv.prefix()] and [dc.marshalEntity(ch.conn.network, _)]
    (defined elsewhere; any function on names). *)
Record downstreamConn := mkDownstreamConn {
  nick : string;
  caps : gmap string bool;
  srvPrefix : option Irc.Prefix.t;
  marshalEntity : string -> string;
}.

Definition RPL_NAMREPLY : string := "353".
Definition RPL_ENDOFNAMES : string := "366".

Definition namReply (dc : downstreamConn) (c : upstreamChannel)
    (downstreamName names : string) : Irc.Message.t :=
  Irc.Message.mk (srvPrefix dc) RPL_NAMREPLY
    [nick dc; stringOfByte (Status c); downstreamName; names].

(** The entry of one member: its prefixes and its marshaled nick. *)
Definition nameEntry (dc : downstreamConn) (member : string * Memberships) : string :=
  Format member.2 (caps dc) +:+ marshalEntity dc member.1.

(** One iteration of the loop of [sendNames]; the state is the messages sent
    so far and [buf]. *)
Definition namesStep (dc : downstreamConn) (c : upstreamChannel)
    (downstreamName : string) (maxLength : Z)
    (st : list Irc.Message.t * string) (member : string * Memberships)
    : list Irc.Message.t * string :=
  let '(sent, buf) := st in
  let s := nameEntry dc member in
  let n := len buf + 1 + len s in
  let '(sent, buf) :=
    if negb (len buf =? 0) && (maxLength <? n)
    then (sent ++ [namReply dc c downstreamName buf], "")
    else (sent, buf) in
  let buf := if negb (len buf =? 0) then buf +:+ " " else buf in
  (sent, buf +:+ s).

Definition namesMaxLength (dc : downstreamConn) (c : upstreamChannel) : Z :=
  MaxMessageLen
  - len (Irc.Message.String (namReply dc c (marshalEntity dc (Name c)) "")).

(** [sendNames]: the messages handed to [dc.SendMessage], in order.
    [members] lists [ch.Members] in the order the [range] visits it. *)
Definition sendNames (dc : downstreamConn) (c : upstreamChannel)
    (members : list (string * Memberships)) : list Irc.Message.t :=
  let downstreamName := marshalEntity dc (Name c) in
  let maxLength := namesMaxLength dc c in
  let '(sent, buf) :=
    fold_left (namesStep dc c downstreamName maxLength) members ([], "") in
  let sent :=
    if negb (len buf =? 0) then sent ++ [namReply dc c downstreamName buf]
    else sent in
  sent ++ [Irc.Message.mk (srvPrefix dc) RPL_ENDOFNAMES
             [nick dc; downstreamName; "End of /NAMES list"]].

End Bridge.


(** ** service.go *)

Module Service.

(** [for _, r := range s] walks the code points of [s]: the tokenizer is
    modelled on the sequence of runes of its input, and each word it builds
    is the sequence of runes handed to [WriteRune]. *)

(** For a string of bytes below 128 every byte is one rune. *)
Definition runes_of_string (s : string) : list rune :=
  map rune_of_ascii (list_ascii_of_string s).

Definition r_space : rune := 32.
Definition r_backslash : rune := rune_of_ascii backslash.
Definition r_dquote : rune := rune_of_ascii dquote.
Definition r_squote : rune := rune_of_ascii squote.

(** [unicode.IsSpace]: the Latin-1 cases and the White_Space table. *)
Definition IsSpace (r : rune) : bool :=
  ((9 <=? r) && (r <=? 13)) || (r =? 32) || (r =? 133) || (r =? 160)
  || (r =? 5760) || ((8192 <=? r) && (r <=? 8202))
  || (r =? 8232) || (r =? 8233) || (r =? 8239) || (r =? 8287)
  || (r =? 12288).

Inductive splitError :=
  | UnterminatedQuotedString
  | UnterminatedBackslashSequence.

Definition splitError_message (e : splitError) : string :=
  match e with
  | UnterminatedQuotedString => "unterminated quoted string"
  | UnterminatedBackslashSequence => "unterminated backslash sequence"
  end.

(** The local variables of [splitWords]. *)
Record splitState := SplitState {
  words : list (list rune);
  lastWord : list rune;
  escape : bool;
  prev : rune;
  wordDelim : rune;
}.

Definition splitInit : splitState :=
  {| words := []; lastWord := []; escape := false;
     prev := r_space; wordDelim := r_space |}.

(** One iteration of the loop body, including the final [prev = r]. *)
Definition splitStep (st : splitState) (r : rune) : splitState :=
  let st' :=
    if escape st then
      SplitState (words st) (lastWord st ++ [r]) false (prev st) (wordDelim st)
    else if r =? r_backslash then
      SplitState (words st) (lastWord st) true (prev st) (wordDelim st)
    else if (wordDelim st =? r_space) && IsSpace r then
      if negb (IsSpace (prev st)) then
        SplitState (words st ++ [lastWord st]) [] (escape st) (prev st) (wordDelim st)
      else st
    else if r =? wordDelim st then
      SplitState (words st) (lastWord st) (escape st) (prev st) r_space
    else if (r =? r_dquote) || (r =? r_squote) then
      if wordDelim st =? r_space then
        SplitState (words st) (lastWord st) (escape st) (prev st) r
      else
        SplitState (words st) (lastWord st ++ [r]) (escape st) (prev st) (wordDelim st)
    else
      SplitState (words st) (lastWord st ++ [r]) (escape st) (prev st) (wordDelim st)
  in
  SplitState (words st') (lastWord st') (escape st') r (wordDelim st').

Definition splitLoop (s : list rune) : splitState := fold_left splitStep s splitInit.

(** [splitWords] returns the Go pair [(words, err)]; the [nil] slice is the
    empty list. *)
Definition splitWords (s : list rune) : list (list rune) * option splitError :=
  let st := splitLoop s in
  let ws := if negb (IsSpace (prev st)) then words st ++ [lastWord st] else words st in
  if negb (wordDelim st =? r_space) then ([], Some UnterminatedQuotedString)
  else if escape st then ([], Some UnterminatedBackslashSequence)
  else (ws, None).

(** The lexical reading of a command line, following the words of the
    specification rather than the code: a backslash escapes the next rune; an
    unescaped quote outside a quoted span opens a span that the next unescaped
    occurrence of the same quote closes. *)
Inductive quoting := Unquoted | Quoted (q : rune).

Fixpoint lexScan (q : quoting) (pending : bool) (s : list rune) : quoting * bool :=
  match s with
  | [] => (q, pending)
  | r :: s' =>
      if pending then lexScan q false s'
      else if r =? r_backslash then lexScan q true s'
      else match q with
           | Unquoted =>
               if (r =? r_dquote) || (r =? r_squote)
               then lexScan (Quoted r) false s'
               else lexScan Unquoted false s'
           | Quoted d =>
               if r =? d then lexScan Unquoted false s' else lexScan q false s'
           end
  end.

Definition endsInQuotedSpan (s : list rune) : Prop :=
  (lexScan Unquoted false s).1 <> Unquoted.

Definition endsWithPendingBackslash (s : list rune) : Prop :=
  (lexScan Unquoted false s).2 = true.

(** [lastWord.String()] *)
Definition wordString (w : list rune) : string :=
  string_of_list_ascii (concat (map encodeRune w)).

(** *** The command tree *)

(** The handler functions named by [init]; what each does is outside this
    model, except for [handleServiceHelp] below. *)
Inductive handler :=
  | fn_handleServiceHelp
  | fn_handleServiceNetworkCreate | fn_handleServiceNetworkStatus
  | fn_handleServiceNetworkUpdate | fn_handleServiceNetworkDelete
  | fn_handleServiceNetworkQuote
  | fn_handleServiceCertFPGenerate | fn_handleServiceCertFPFingerprints
  | fn_handleServiceSASLSetPlain | fn_handleServiceSASLReset
  | fn_handleUserCreate | fn_handleUserUpdate | fn_handleUserDelete
  | fn_handleServiceChannelStatus | fn_handleServiceChannelUpdate
  | fn_handleServiceServerStatus | fn_handleServiceServerNotice.

(** [serviceCommand]; [handle] is [None] for a nil handler.  A
    [serviceCommandSet] (a Go map) is an association list with distinct names
    ([wfSet]); its order stands for the order in which [range] visits it. *)
#[warnings="-register-all"]
Inductive serviceCommand := mkServiceCommand {
  usage : string;
  desc : string;
  handle : option handler;
  children : list (string * serviceCommand);
  admin : bool;
}.

Abbreviation serviceCommandSet := (list (string * serviceCommand)).

Definition Names0 (cmds : serviceCommandSet) : list string := map fst cmds.

Definition wfSet (cmds : serviceCommandSet) : Prop := NoDup (Names0 cmds).

(** [cmds[name]] *)
Fixpoint lookupCmd (cmds : serviceCommandSet) (name : string) : option serviceCommand :=
  match cmds with
  | [] => None
  | (k, cmd) :: rest => if String.eqb k name then Some cmd else lookupCmd rest name
  end.

Inductive getError :=
  | NoCommandSpecified
  | Ambiguous (name : string)
  | NotFound (name : string).

(** The [for k := range cmds] loop of [Get]: [cmd] is the match found so far;
    a second match returns the ambiguity error at once. *)
Fixpoint prefixScan (name : string) (cmds : serviceCommandSet)
    (cmd : option serviceCommand) : getError + option serviceCommand :=
  match cmds with
  | [] => inr cmd
  | (k, c) :: rest =>
      if negb (String.prefix name k) then prefixScan name rest cmd
      else match cmd with
           | Some _ => inl (Ambiguous name)
           | None => prefixScan name rest (Some c)
           end
  end.

(** The first half of [Get]: the command the first word stands for. *)
Definition resolve (cmds : serviceCommandSet) (name : string) : getError + serviceCommand :=
  match lookupCmd cmds name with
  | Some cmd => inr cmd
  | None =>
      match prefixScan name cmds None with
      | inl e => inl e
      | inr None => inl (NotFound name)
      | inr (Some cmd) => inr cmd
      end
  end.

(** [serviceCommandSet.Get]: on success the command and the remaining
    parameters; on error the returned command is nil. *)
Fixpoint Get (cmds : serviceCommandSet) (params : list string)
    : getError + (serviceCommand * list string) :=
  match params with
  | [] => inl NoCommandSpecified
  | name :: params' =>
      match resolve cmds name with
      | inl e => inl e
      | inr cmd =>
          if (length params' =? 0)%nat || (length (children cmd) =? 0)%nat
          then inr (cmd, params')
          else Get (children cmd) params'
      end
  end.

(** [sort.Strings]: ascending in the bytewise order of Go strings. *)
Definition strLe (a b : string) : Prop := String.leb a b = true.

#[global] Instance strLe_dec : RelDecision strLe.
Proof. intros a b. unfold strLe. apply _. Defined.

Definition sortStrings (l : list string) : list string := merge_sort strLe l.

(** [serviceCommandSet.Names] *)
Definition Names (cmds : serviceCommandSet) : list string := sortStrings (Names0 cmds).

(** [appendServiceCommandSetHelp] appends to [*l]; the model returns what is
    appended.  The recursion is organised so that it is structural: each
    child carries its [admin] flag and the list it contributes as a function
    of the words before it; [helpOver] is the loop over the sorted names. *)
Definition helpEntry : Type := string * (bool * (list string -> list string)).

Fixpoint lookupEntry (es : list helpEntry) (name : string)
    : option (bool * (list string -> list string)) :=
  match es with
  | [] => None
  | (k, e) :: rest => if String.eqb k name then Some e else lookupEntry rest name
  end.

Definition helpOver (es : list helpEntry) (prefix : list string) (isAdmin : bool)
    : list string :=
  flat_map (fun name =>
      match lookupEntry es name with
      | Some (cmdAdmin, sub) =>
          if cmdAdmin && negb isAdmin then [] else sub (prefix ++ [name])
      | None => []
      end)
    (sortStrings (map fst es)).

Fixpoint helpOfCommand (isAdmin : bool) (cmd : serviceCommand) (words : list string)
    {struct cmd} : list string :=
  match cmd with
  | mkServiceCommand _ _ _ cs _ =>
      match cs with
      | [] => [String.concat " " words]
      | _ :: _ =>
          helpOver
            (map (fun nc : string * serviceCommand =>
                    (nc.1, (admin nc.2, helpOfCommand isAdmin nc.2))) cs)
            words isAdmin
      end
  end.

Definition appendServiceCommandSetHelp (cmds : serviceCommandSet)
    (prefix : list string) (isAdmin : bool) : list string :=
  helpOver
    (map (fun nc : string * serviceCommand =>
            (nc.1, (admin nc.2, helpOfCommand isAdmin nc.2))) cmds)
    prefix isAdmin.


(** What [handleServicePRIVMSG] does with a line: one of its five replies, or
    the call of the handler with the remaining parameters. *)
Inductive reply :=
  | ReplyParseError (e : splitError)
  | ReplyGetError (e : getError)
  | ReplyAdminOnly
  | ReplyAvailableCommands (l : list string)
  | ReplyCommandNotFound (word : string)
  | RunHandler (h : handler) (params : list string).

Definition adminOnlyText : string :=
  "error: you must be an admin to use this command".

(** The dispatch of [handleServicePRIVMSG] once the line is tokenized (the
    log line of the not-found branch is left out). *)
Definition dispatch (cmds : serviceCommandSet) (userAdmin : bool)
    (words : list string) : reply :=
  match Get cmds words with
  | inl e => ReplyGetError e
  | inr (cmd, params) =>
      if admin cmd && negb userAdmin then ReplyAdminOnly
      else
        match handle cmd with
        | None =>
            if (0 <? length (children cmd))%nat then
              ReplyAvailableCommands
                (appendServiceCommandSetHelp (children cmd) words userAdmin)
            else ReplyCommandNotFound (default "" (head words))
        | Some h => RunHandler h params
        end
  end.

(** [handleServicePRIVMSG], with [serviceCommands] and [dc.user.Admin] as
    arguments. *)
Definition handleServicePRIVMSG (cmds : serviceCommandSet) (userAdmin : bool)
    (text : list rune) : reply :=
  match splitWords text with
  | (_, Some e) => ReplyParseError e
  | (ws, None) => dispatch cmds userAdmin (map wordString ws)
  end.

Definition leaf (u d : string) (h : handler) (a : bool) : serviceCommand :=
  mkServiceCommand u d (Some h) [] a.

Definition group (cs : serviceCommandSet) (a : bool) : serviceCommand :=
  mkServiceCommand "" "" None cs a.

(** The tree built by [init]. *)
Definition serviceCommands : serviceCommandSet :=
  [ ("help", leaf "[command]" "print help message" fn_handleServiceHelp false);
    ("network", group
      [ ("create", leaf
           "-addr <addr> [-name name] [-username username] [-pass pass] [-realname realname] [-nick nick] [-enabled enabled] [-connect-command command]..."
           "add a new network" fn_handleServiceNetworkCreate false);
        ("status", leaf ""
           "show a list of saved networks and their current status"
           fn_handleServiceNetworkStatus false);
        ("update", leaf
           "<name> [-addr addr] [-name name] [-username username] [-pass pass] [-realname realname] [-nick nick] [-enabled enabled] [-connect-command command]..."
           "update a network" fn_handleServiceNetworkUpdate false);
        ("delete", leaf "<name>" "delete a network" fn_handleServiceNetworkDelete false);
        ("quote", leaf "<name> <command>" "send a raw line to a network"
           fn_handleServiceNetworkQuote false) ] false);
    ("certfp", group
      [ ("generate", leaf "[-key-type rsa|ecdsa|ed25519] [-bits N] <network name>"
           "generate a new self-signed certificate, defaults to using RSA-3072 key"
           fn_handleServiceCertFPGenerate false);
        ("fingerprint", leaf "<network name>"
           "show fingerprints of certificate associated with the network"
           fn_handleServiceCertFPFingerprints false) ] false);
    ("sasl", group
      [ ("set-plain", leaf "<network name> <username> <password>"
           "set SASL PLAIN credentials" fn_handleServiceSASLSetPlain false);
        ("reset", leaf "<network name>"
           "disable SASL authentication and remove stored credentials"
           fn_handleServiceSASLReset false) ] false);
    ("user", group
      [ ("create", leaf
           "-username <username> -password <password> [-realname <realname>] [-admin]"
           "create a new soju user" fn_handleUserCreate true);
        ("update", leaf "[-password <password>] [-realname <realname>]"
           "update the current user" fn_handleUserUpdate false);
        ("delete", leaf "<username>" "delete a user" fn_handleUserDelete true) ] false);
    ("channel", group
      [ ("status", leaf "[-network name]"
           "show a list of saved channels and their current status"
           fn_handleServiceChannelStatus false);
        ("update", leaf
           "<name> [-relay-detached <default|none|highlight|message>] [-reattach-on <default|none|highlight|message>] [-detach-after <duration>] [-detach-on <default|none|highlight|message>]"
           "update a channel" fn_handleServiceChannelUpdate false) ] false);
    ("server", group
      [ ("status", leaf "" "show server statistics" fn_handleServiceServerStatus true);
        ("notice", leaf "" "broadcast a notice to all connected bouncer users"
           fn_handleServiceServerNotice true) ] true) ].

(** The command line of scenario S1. *)
Definition s1_input : string :=
  "sasl set-plain net1 " +:+ String dquote ("al ice" +:+ String dquote " it\ is").

End Service.

(** ** db_sqlite.go *)

Module Database.

(** *** The records handed to the store *)

(** A nil [[]byte] is [None]. *)
Abbreviation blob := (option (list ascii)).

Module User.
Record t := mk {
  ID : Z; Username : string; Password : string; Admin : bool; Realname : string;
}.
Definition withID (u : t) (id : Z) : t :=
  mk id (Username u) (Password u) (Admin u) (Realname u).
End User.

Module SASL.
Record t := mk {
  Mechanism : string;
  PlainUsername : string;
  PlainPassword : string;
  ExternalCertBlob : blob;
  ExternalPrivKeyBlob : blob;
}.
(** [External.CertBlob = nil; External.PrivKeyBlob = nil] *)
Definition clearExternal (s : t) : t :=
  mk (Mechanism s) (PlainUsername s) (PlainPassword s) None None.
End SASL.

Module Network.
Record t := mk {
  ID : Z; Name : string; Addr : string; Nick : string; Username : string;
  Realname : string; Pass : string; ConnectCommands : list string;
  SASL : SASL.t; Enabled : bool;
}.
Definition withID (n : t) (id : Z) : t :=
  mk id (Name n) (Addr n) (Nick n) (Username n) (Realname n) (Pass n)
     (ConnectCommands n) (SASL n) (Enabled n).
Definition withSASL (n : t) (s : SASL.t) : t :=
  mk (ID n) (Name n) (Addr n) (Nick n) (Username n) (Realname n) (Pass n)
     (ConnectCommands n) s (Enabled n).
End Network.

Module Channel.
(** The three filters are small integers; [DetachAfter] is a
    [time.Duration], in nanoseconds. *)
Record t := mk {
  ID : Z; Name : string; Key : string; Detached : bool;
  DetachedInternalMsgID : string;
  RelayDetached : Z; ReattachOn : Z; DetachAfter : Z; DetachOn : Z;
}.
Definition withID (c : t) (id : Z) : t :=
  mk id (Name c) (Key c) (Detached c) (DetachedInternalMsgID c)
     (RelayDetached c) (ReattachOn c) (DetachAfter c) (DetachOn c).
End Channel.

(** *** The tables of [sqliteSchema]

    A table is a finite map from the [INTEGER PRIMARY KEY] to the other
    columns; a nullable column is an [option]. *)

Record UserRow := mkUserRow {
  u_username : string;
  u_password : option string;
  u_admin : bool;
  u_realname : option string;
}.

Record NetworkRow := mkNetworkRow {
  n_name : option string;
  n_user : Z;
  n_addr : string;
  n_nick : option string;
  n_username : option string;
  n_realname : option string;
  n_pass : option string;
  n_connect_commands : option string;
  n_sasl_mechanism : option string;
  n_sasl_plain_username : option string;
  n_sasl_plain_password : option string;
  n_sasl_external_cert : blob;
  n_sasl_external_key : blob;
  n_enabled : bool;
}.

Record ChannelRow := mkChannelRow {
  c_network : Z;
  c_name : string;
  c_key : option string;
  c_detached : bool;
  c_detached_internal_msgid : option string;
  c_relay_detached : Z;
  c_reattach_on : Z;
  c_detach_after : Z;
  c_detach_on : Z;
}.

Record ReceiptRow := mkReceiptRow {
  r_network : Z;
  r_target : string;
  r_client : option string;
  r_internal_msgid : string;
}.

Record SqliteDB := mkDB {
  tUser : gmap Z UserRow;
  tNetwork : gmap Z NetworkRow;
  tChannel : gmap Z ChannelRow;
  tDeliveryReceipt : gmap Z ReceiptRow;
}.

#[global] Instance UserRow_eq_dec : EqDecision UserRow.
Proof. solve_decision. Defined.
#[global] Instance NetworkRow_eq_dec : EqDecision NetworkRow.
Proof. solve_decision. Defined.
#[global] Instance ChannelRow_eq_dec : EqDecision ChannelRow.
Proof. solve_decision. Defined.
#[global] Instance ReceiptRow_eq_dec : EqDecision ReceiptRow.
Proof. solve_decision. Defined.

Inductive dbError :=
  | DriverError
  | ConstraintError
  | UnsupportedSASLMechanism (mechanism : string).

(** *** The SQL statements *)

(** [toNullString]: the empty string is stored as NULL. *)
Definition toNullString (s : string) : option string :=
  if String.eqb s "" then None else Some s.

(** The rowid SQLite gives to a new row: one more than the largest in use,
    1 in an empty table (the table is taken to be far from the largest
    64-bit rowid). *)
Definition lastRowid {A} (m : gmap Z A) : option Z :=
  foldr (fun k acc => Some (match acc with Some a => Z.max k a | None => k end))
        None (map_to_list m).*1.

Definition nextRowid {A} (m : gmap Z A) : Z :=
  match lastRowid m with Some k => k + 1 | None => 1 end.

(** [UPDATE t SET ... WHERE P]: the rows that satisfy [P] are rewritten. *)
Definition sqlUpdate {A} (P : Z -> A -> bool) (f : A -> A) (m : gmap Z A)
    : gmap Z A :=
  map_imap (fun k r => Some (if P k r then f r else r)) m.

(** [DELETE FROM t WHERE P] *)
Definition sqlDelete {A} (P : Z -> A -> bool) (m : gmap Z A) : gmap Z A :=
  filter (fun kr => P kr.1 kr.2 = false) m.

(** A UNIQUE constraint: no two rows [conflict].  In a UNIQUE index NULLs are
    distinct from each other, so two nullable columns agree only when both
    are set and equal. *)
Definition sameSet (a b : option string) : Prop :=
  match a, b with Some x, Some y => x = y | _, _ => False end.

#[global] Instance sameSet_dec a b : Decision (sameSet a b).
Proof. destruct a, b; simpl; apply _. Defined.

Definition unique {A} (conflict : A -> A -> Prop) (m : gmap Z A) : Prop :=
  forall k1 k2 r1 r2,
    m !! k1 = Some r1 -> m !! k2 = Some r2 -> conflict r1 r2 -> k1 = k2.

(** The new contents [r] of the row [k] would clash with another row. *)
Definition clashes {A} (conflict : A -> A -> Prop)
    `{!forall a b, Decision (conflict a b)} (m : gmap Z A) (k : Z) (r : A) : bool :=
  bool_decide (~ map_Forall (fun k' r' => k' = k \/ ~ conflict r r') m).

Definition userConflict (a b : UserRow) : Prop := u_username a = u_username b.

Definition networkConflict (a b : NetworkRow) : Prop :=
  n_user a = n_user b /\
  ((n_addr a = n_addr b /\ sameSet (n_nick a) (n_nick b)) \/
   sameSet (n_name a) (n_name b)).

Definition channelConflict (a b : ChannelRow) : Prop :=
  c_network a = c_network b /\ c_name a = c_name b.

#[global] Instance userConflict_dec a b : Decision (userConflict a b).
Proof. unfold userConflict. apply _. Defined.
#[global] Instance networkConflict_dec a b : Decision (networkConflict a b).
Proof. unfold networkConflict. apply _. Defined.
#[global] Instance channelConflict_dec a b : Decision (channelConflict a b).
Proof. unfold channelConflict. apply _. Defined.

(** *** Failures of the driver

    Any call into the driver may fail (deadline, I/O).  [faults] tells, for
    the n-th driver call of an operation, whether it does. *)
Definition faults := list bool.

Definition fault (n : nat) (fl : faults) : bool := nth n fl false.

(** A statement run inside a transaction, on the working copy. *)
Definition stmt : Type := SqliteDB -> dbError + SqliteDB.

Fixpoint runTx (fl : faults) (n : nat) (stmts : list stmt) (tx : SqliteDB)
    : dbError + SqliteDB :=
  match stmts with
  | [] => inr tx
  | st :: rest =>
      if fault n fl then inl DriverError
      else match st tx with
           | inl e => inl e
           | inr tx' => runTx fl (S n) rest tx'
           end
  end.

(** [tx, err := db.db.Begin(); defer tx.Rollback(); ...; return tx.Commit()]:
    each statement returns its error at once; the deferred rollback, and a
    failed commit, leave the database as it was. *)
Definition transaction (fl : faults) (db : SqliteDB) (stmts : list stmt)
    : SqliteDB * option dbError :=
  if fault 0 fl then (db, Some DriverError)
  else match runTx fl 1 stmts db with
       | inl e => (db, Some e)
       | inr tx =>
           if fault (S (length stmts)) fl then (db, Some DriverError)
           else (tx, None)
       end.

(** *** Users *)

Definition userRow (user : User.t) : UserRow :=
  mkUserRow (User.Username user) (toNullString (User.Password user))
            (User.Admin user) (toNullString (User.Realname user)).

(** [SET password = :password, admin = :admin, realname = :realname] *)
Definition setUser (new old : UserRow) : UserRow :=
  mkUserRow (u_username old) (u_password new) (u_admin new) (u_realname new).

Definition StoreUser (fl : faults) (db : SqliteDB) (user : User.t)
    : SqliteDB * User.t * option dbError :=
  let args := userRow user in
  if bool_decide (User.ID user <> 0) then
    (* UPDATE User SET ... WHERE username = :username *)
    if fault 0 fl then (db, user, Some DriverError)
    else
      (mkDB (sqlUpdate (fun _ r => bool_decide (u_username r = User.Username user))
                       (setUser args) (tUser db))
            (tNetwork db) (tChannel db) (tDeliveryReceipt db),
       user, None)
  else
    (* INSERT INTO User(username, password, admin, realname) *)
    if fault 0 fl then (db, user, Some DriverError)
    else if clashes userConflict (tUser db) (nextRowid (tUser db)) args
    then (db, user, Some ConstraintError)
    else
      let id := nextRowid (tUser db) in
      (mkDB (<[id := args]> (tUser db))
            (tNetwork db) (tChannel db) (tDeliveryReceipt db),
       User.withID user id, None).

(** The network [netID] belongs to the user [uid]
    ([JOIN Network ON x.network = Network.id WHERE Network.user = ?]). *)
Definition ownedBy (nets : gmap Z NetworkRow) (uid netID : Z) : Prop :=
  n_user <$> nets !! netID = Some uid.

#[global] Instance ownedBy_dec nets uid netID : Decision (ownedBy nets uid netID).
Proof. unfold ownedBy. apply _. Defined.

Definition DeleteUser (fl : faults) (db : SqliteDB) (id : Z)
    : SqliteDB * option dbError :=
  transaction fl db
    [ (fun tx => inr (mkDB (tUser tx) (tNetwork tx) (tChannel tx)
          (sqlDelete (fun _ r => bool_decide (ownedBy (tNetwork tx) id (r_network r)))
                     (tDeliveryReceipt tx))));
      (fun tx => inr (mkDB (tUser tx) (tNetwork tx)
          (sqlDelete (fun _ c => bool_decide (ownedBy (tNetwork tx) id (c_network c)))
                     (tChannel tx))
          (tDeliveryReceipt tx)));
      (fun tx => inr (mkDB (tUser tx)
          (sqlDelete (fun _ n => bool_decide (n_user n = id)) (tNetwork tx))
          (tChannel tx) (tDeliveryReceipt tx)));
      (fun tx => inr (mkDB (sqlDelete (fun k _ => bool_decide (k = id)) (tUser tx))
          (tNetwork tx) (tChannel tx) (tDeliveryReceipt tx))) ].

(** *** Networks *)

Definition crlf : string := String (ascii_of_nat 13) (String (ascii_of_nat 10) "").

Definition networkRow (userID : Z) (network : Network.t)
    (saslMechanism saslPlainUsername saslPlainPassword : option string)
    : NetworkRow :=
  mkNetworkRow
    (toNullString (Network.Name network)) userID (Network.Addr network)
    (toNullString (Network.Nick network))
    (toNullString (Network.Username network))
    (toNullString (Network.Realname network))
    (toNullString (Network.Pass network))
    (toNullString (String.concat crlf (Network.ConnectCommands network)))
    saslMechanism saslPlainUsername saslPlainPassword
    (SASL.ExternalCertBlob (Network.SASL network))
    (SASL.ExternalPrivKeyBlob (Network.SASL network))
    (Network.Enabled network).

(** The UPDATE sets every column but [user]. *)
Definition setNetwork (new old : NetworkRow) : NetworkRow :=
  mkNetworkRow (n_name new) (n_user old) (n_addr new) (n_nick new)
    (n_username new) (n_realname new) (n_pass new) (n_connect_commands new)
    (n_sasl_mechanism new) (n_sasl_plain_username new)
    (n_sasl_plain_password new) (n_sasl_external_cert new)
    (n_sasl_external_key new) (n_enabled new).

(** The statement of [StoreNetwork], once the arguments are built. *)
Definition execStoreNetwork (fl : faults) (db : SqliteDB) (network : Network.t)
    (args : NetworkRow) : SqliteDB * Network.t * option dbError :=
  if bool_decide (Network.ID network <> 0) then
    (* UPDATE Network SET ... WHERE id = :id *)
    if fault 0 fl then (db, network, Some DriverError)
    else
      match tNetwork db !! Network.ID network with
      | Some old =>
          if clashes networkConflict (tNetwork db) (Network.ID network)
                     (setNetwork args old)
          then (db, network, Some ConstraintError)
          else
            (mkDB (tUser db)
                  (sqlUpdate (fun k _ => bool_decide (k = Network.ID network))
                             (setNetwork args) (tNetwork db))
                  (tChannel db) (tDeliveryReceipt db),
             network, None)
      | None => (db, network, None)
      end
  else
    (* INSERT INTO Network(user, name, ...) *)
    if fault 0 fl then (db, network, Some DriverError)
    else if clashes networkConflict (tNetwork db) (nextRowid (tNetwork db)) args
    then (db, network, Some ConstraintError)
    else
      let id := nextRowid (tNetwork db) in
      (mkDB (tUser db) (<[id := args]> (tNetwork db))
            (tChannel db) (tDeliveryReceipt db),
       Network.withID network id, None).

Definition StoreNetwork (fl : faults) (db : SqliteDB) (userID : Z)
    (network : Network.t) : SqliteDB * Network.t * option dbError :=
  let mechanism := SASL.Mechanism (Network.SASL network) in
  if negb (String.eqb mechanism "") then
    if String.eqb mechanism "PLAIN" then
      let network' :=
        Network.withSASL network (SASL.clearExternal (Network.SASL network)) in
      execStoreNetwork fl db network'
        (networkRow userID network' (toNullString mechanism)
           (toNullString (SASL.PlainUsername (Network.SASL network)))
           (toNullString (SASL.PlainPassword (Network.SASL network))))
    else if String.eqb mechanism "EXTERNAL" then
      execStoreNetwork fl db network
        (networkRow userID network (toNullString mechanism) None None)
    else (db, network, Some (UnsupportedSASLMechanism mechanism))
  else
    execStoreNetwork fl db network (networkRow userID network None None None).

Definition DeleteNetwork (fl : faults) (db : SqliteDB) (id : Z)
    : SqliteDB * option dbError :=
  transaction fl db
    [ (fun tx => inr (mkDB (tUser tx) (tNetwork tx) (tChannel tx)
          (sqlDelete (fun _ r => bool_decide (r_network r = id)) (tDeliveryReceipt tx))));
      (fun tx => inr (mkDB (tUser tx) (tNetwork tx)
          (sqlDelete (fun _ c => bool_decide (c_network c = id)) (tChannel tx))
          (tDeliveryReceipt tx)));
      (fun tx => inr (mkDB (tUser tx)
          (sqlDelete (fun k _ => bool_decide (k = id)) (tNetwork tx))
          (tChannel tx) (tDeliveryReceipt tx))) ].

(** *** Channels *)

(** The column [detach_after] is computed in [float64].  The floats are
    those of IEEE 754 binary64 as [SpecFloat] specifies them (53 bits of
    mantissa, round to nearest even); the functions of the Go library are
    outside the repository and modelled from their definitions.

    [float64(n)] for an integer [n]. *)
Definition float64 (n : Z) : spec_float := binary_normalize 53 1024 n 0 false.

(** [Duration.Seconds] of package [time], on a duration in nanoseconds:
    [sec := d / Second; nsec := d % Second;
     return float64(sec) + float64(nsec)/1e9]
    (Go's [/] and [%] truncate towards zero). *)
Definition Seconds (d : Z) : spec_float :=
  SFadd 53 1024 (float64 (Z.quot d 1000000000))
    (SFdiv 53 1024 (float64 (Z.rem d 1000000000)) (float64 1000000000)).

(** [int64(math.Ceil(x))]: the least integer that is not below [x].  [x] is
    finite and far within the [int64] range where the code calls it (a
    number of seconds below 2^34 in magnitude). *)
Definition ceilInt64 (x : spec_float) : Z :=
  match x with
  | S754_finite s m e =>
      let n := cond_Zopp s (Zpos m) in
      if 0 <=? e then n * 2 ^ e else - (- n / 2 ^ (- e))
  | _ => 0
  end.

(** [int64(math.Ceil(ch.DetachAfter.Seconds()))] *)
Definition ceilSeconds (d : Z) : Z := ceilInt64 (Seconds d).

Definition channelRow (networkID : Z) (c : Channel.t) : ChannelRow :=
  mkChannelRow networkID (Channel.Name c) (toNullString (Channel.Key c))
    (Channel.Detached c) (toNullString (Channel.DetachedInternalMsgID c))
    (Channel.RelayDetached c) (Channel.ReattachOn c)
    (ceilSeconds (Channel.DetachAfter c)) (Channel.DetachOn c).

Definition StoreChannel (fl : faults) (db : SqliteDB) (networkID : Z)
    (c : Channel.t) : SqliteDB * Channel.t * option dbError :=
  let args := channelRow networkID c in
  if bool_decide (Channel.ID c <> 0) then
    (* UPDATE Channel SET network = :network, ... WHERE id = :id *)
    if fault 0 fl then (db, c, Some DriverError)
    else
      match tChannel db !! Channel.ID c with
      | Some _ =>
          if clashes channelConflict (tChannel db) (Channel.ID c) args
          then (db, c, Some ConstraintError)
          else
            (mkDB (tUser db) (tNetwork db)
                  (sqlUpdate (fun k _ => bool_decide (k = Channel.ID c)) (fun _ => args)
                             (tChannel db))
                  (tDeliveryReceipt db),
             c, None)
      | None => (db, c, None)
      end
  else
    (* INSERT INTO Channel(network, name, ...) *)
    if fault 0 fl then (db, c, Some DriverError)
    else if clashes channelConflict (tChannel db) (nextRowid (tChannel db)) args
    then (db, c, Some ConstraintError)
    else
      let id := nextRowid (tChannel db) in
      (mkDB (tUser db) (tNetwork db) (<[id := args]> (tChannel db))
            (tDeliveryReceipt db),
       Channel.withID c id, None).

(** *** Reading back *)

Inductive queryError := QueryFailed | ErrNoRows.

(** The [String] field of a [sql.NullString] after [Scan]: empty for NULL. *)
Definition fromNullString (o : option string) : string := default "" o.

Definition userOfRow (id : Z) (r : UserRow) : User.t :=
  User.mk id (u_username r) (fromNullString (u_password r)) (u_admin r)
          (fromNullString (u_realname r)).

(** [ListUsers]: the rows come in no stated order ([map_to_list] stands for
    the order of the scan); the query (call 0) and the iteration (call 1) may
    fail. *)
Definition ListUsers (fl : faults) (db : SqliteDB) : list User.t * option queryError :=
  if fault 0 fl then ([], Some QueryFailed)
  else if fault 1 fl then ([], Some QueryFailed)
  else (map (fun kr => userOfRow kr.1 kr.2) (map_to_list (tUser db)), None).

(** [GetUser]: [QueryRow ... WHERE username = ?] scans the first matching
    row; without one [Scan] returns [sql.ErrNoRows]. *)
Definition GetUser (fl : faults) (db : SqliteDB) (username : string)
    : option User.t * option queryError :=
  if fault 0 fl then (None, Some QueryFailed)
  else
    match map_to_list (filter (fun kr => u_username kr.2 = username) (tUser db)) with
    | [] => (None, Some ErrNoRows)
    | (id, r) :: _ =>
        (Some (User.mk id username (fromNullString (u_password r)) (u_admin r)
                       (fromNullString (u_realname r))), None)
    end.

(** A Go [int64] product wraps around. *)
Definition wrap64 (z : Z) : Z :=
  (z + 9223372036854775808) mod 18446744073709551616 - 9223372036854775808.

(** [ch.DetachAfter = time.Duration(detachAfter) * time.Second] *)
Definition channelOfRow (id : Z) (r : ChannelRow) : Channel.t :=
  Channel.mk id (c_name r) (fromNullString (c_key r)) (c_detached r)
    (fromNullString (c_detached_internal_msgid r))
    (c_relay_detached r) (c_reattach_on r)
    (wrap64 (c_detach_after r * 1000000000)) (c_detach_on r).

Definition ListChannels (fl : faults) (db : SqliteDB) (networkID : Z)
    : list Channel.t * option queryError :=
  if fault 0 fl then ([], Some QueryFailed)
  else if fault 1 fl then ([], Some QueryFailed)
  else (map (fun kr => channelOfRow kr.1 kr.2)
            (map_to_list (filter (fun kr => c_network kr.2 = networkID)
                                 (tChannel db))), None).

(** *** Delivery receipts *)

Module DeliveryReceipt.
Record t := mk {
  ID : Z; Target : string; Client : string; InternalMsgID : string;
}.
Definition withID (r : t) (id : Z) : t :=
  mk id (Target r) (Client r) (InternalMsgID r).
End DeliveryReceipt.

(** [UNIQUE(network, target, client)] *)
Definition receiptConflict (a b : ReceiptRow) : Prop :=
  r_network a = r_network b /\ r_target a = r_target b /\
  sameSet (r_client a) (r_client b).

#[global] Instance receiptConflict_dec a b : Decision (receiptConflict a b).
Proof. unfold receiptConflict. apply _. Defined.

Definition receiptRow (networkID : Z) (client : string)
    (rcpt : DeliveryReceipt.t) : ReceiptRow :=
  mkReceiptRow networkID (DeliveryReceipt.Target rcpt) (toNullString client)
               (DeliveryReceipt.InternalMsgID rcpt).

Definition withReceipts (tx : SqliteDB) (t : gmap Z ReceiptRow) : SqliteDB :=
  mkDB (tUser tx) (tNetwork tx) (tChannel tx) t.

(** The [for i := range receipts] loop: every INSERT is the driver call [n];
    the id is written into the element of the caller's slice as soon as its
    row is inserted.  The result is the slice as the loop leaves it and the
    working copy, or the error that stopped the loop. *)
Fixpoint insertReceipts (fl : faults) (n : nat) (networkID : Z) (client : string)
    (receipts : list DeliveryReceipt.t) (tx : SqliteDB)
    : list DeliveryReceipt.t * (dbError + SqliteDB) :=
  match receipts with
  | [] => ([], inr tx)
  | rcpt :: rest =>
      let row := receiptRow networkID client rcpt in
      if fault n fl then (rcpt :: rest, inl DriverError)
      else if clashes receiptConflict (tDeliveryReceipt tx)
                      (nextRowid (tDeliveryReceipt tx)) row
      then (rcpt :: rest, inl ConstraintError)
      else
        let id := nextRowid (tDeliveryReceipt tx) in
        let '(rest', r) :=
          insertReceipts fl (S n) networkID client rest
            (withReceipts tx (<[id := row]> (tDeliveryReceipt tx))) in
        (DeliveryReceipt.withID rcpt id :: rest', r)
  end.

(** [StoreClientDeliveryReceipts]: inside one transaction, the receipts of
    the client on the network are deleted ([client IS ?] also matches NULL
    with NULL) and the new ones inserted. *)
Definition StoreClientDeliveryReceipts (fl : faults) (db : SqliteDB)
    (networkID : Z) (client : string) (receipts : list DeliveryReceipt.t)
    : SqliteDB * list DeliveryReceipt.t * option dbError :=
  if fault 0 fl then (db, receipts, Some DriverError)
  else if fault 1 fl then (db, receipts, Some DriverError)
  else
    let tx :=
      withReceipts db
        (sqlDelete (fun _ r => bool_decide (r_network r = networkID /\
                                            r_client r = toNullString client))
                   (tDeliveryReceipt db)) in
    match insertReceipts fl 2 networkID client receipts tx with
    | (receipts', inl e) => (db, receipts', Some e)
    | (receipts', inr tx') =>
        if fault (2 + length receipts) fl then (db, receipts', Some DriverError)
        else (tx', receipts', None)
    end.

Definition receiptOfRow (id : Z) (r : ReceiptRow) : DeliveryReceipt.t :=
  DeliveryReceipt.mk id (r_target r) (fromNullString (r_client r))
                     (r_internal_msgid r).

Definition ListDeliveryReceipts (fl : faults) (db : SqliteDB) (networkID : Z)
    : list DeliveryReceipt.t * option queryError :=
  if fault 0 fl then ([], Some QueryFailed)
  else if fault 1 fl then ([], Some QueryFailed)
  else (map (fun kr => receiptOfRow kr.1 kr.2)
            (map_to_list (filter (fun kr => r_network kr.2 = networkID)
                                 (tDeliveryReceipt db))), None).

(** *** Networks read back *)

Definition cr : ascii := ascii_of_nat 13.
Definition lf : ascii := ascii_of_nat 10.

(** [strings.Split(s, "\r\n")]: the pieces of [s] between the occurrences of
    the separator, met from the left; [cur] is the piece being read. *)
Fixpoint splitCRLF (s cur : string) : list string :=
  match s with
  | EmptyString => [cur]
  | String a s' =>
      match s' with
      | String b s'' =>
          if Ascii.eqb a cr && Ascii.eqb b lf then cur :: splitCRLF s'' ""
          else splitCRLF s' (cur +:+ String a "")
      | EmptyString => splitCRLF s' (cur +:+ String a "")
      end
  end.

(** [if connectCommands.Valid { net.ConnectCommands = strings.Split(...) }] *)
Definition networkOfRow (id : Z) (r : NetworkRow) : Network.t :=
  Network.mk id (fromNullString (n_name r)) (n_addr r)
    (fromNullString (n_nick r)) (fromNullString (n_username r))
    (fromNullString (n_realname r)) (fromNullString (n_pass r))
    (match n_connect_commands r with
     | Some commands => splitCRLF commands ""
     | None => []
     end)
    (SASL.mk (fromNullString (n_sasl_mechanism r))
             (fromNullString (n_sasl_plain_username r))
             (fromNullString (n_sasl_plain_password r))
             (n_sasl_external_cert r) (n_sasl_external_key r))
    (n_enabled r).

Definition ListNetworks (fl : faults) (db : SqliteDB) (userID : Z)
    : list Network.t * option queryError :=
  if fault 0 fl then ([], Some QueryFailed)
  else if fault 1 fl then ([], Some QueryFailed)
  else (map (fun kr => networkOfRow kr.1 kr.2)
            (map_to_list (filter (fun kr => n_user kr.2 = userID)
                                 (tNetwork db))), None).

(** *** Schema upgrade

    What [upgrade] does to the database file: the schema version
    ([PRAGMA user_version]) and the statements committed so far.  The text
    of a migration is left out; [Migration i] is [sqliteMigrations[i]]. *)
Inductive ddl :=
  | InitSchema
  | Migration (i : nat)
  | SetUserVersion (v : Z).

Record schemaState := mkSchemaState {
  user_version : Z;
  applied : list ddl;
}.

(** [len(sqliteMigrations)] *)
Definition migrationCount : nat := 14.

Inductive upgradeError :=
  | FailedToQueryVersion
  | OlderThanSchema (version : Z)
  | BeginFailed
  | FailedToInitSchema
  | FailedMigration (i : nat)
  | FailedToBumpVersion
  | CommitFailed.

Inductive upgradeOutcome :=
  | UpgradeOk
  | UpgradeError (e : upgradeError)
  | UpgradePanic.

(** The statements run one after the other, [tx.Exec] number [n] first: the
    first one that fails, if any. *)
Fixpoint execAll (fl : faults) (n : nat) (stmts : list ddl) : option ddl :=
  match stmts with
  | [] => None
  | s :: rest => if fault n fl then Some s else execAll fl (S n) rest
  end.

Definition execError (s : ddl) : upgradeError :=
  match s with
  | InitSchema => FailedToInitSchema
  | Migration i => FailedMigration i
  | SetUserVersion _ => FailedToBumpVersion
  end.

(** [upgrade]: the version is read (call 0), the transaction begun (call 1),
    the schema or the pending migrations executed, the version set and the
    transaction committed.  A negative version indexes [sqliteMigrations]
    out of range: the call panics.  The deferred [Rollback] undoes
    everything unless [Commit] succeeded. *)
Definition upgrade (fl : faults) (st : schemaState) : schemaState * upgradeOutcome :=
  if fault 0 fl then (st, UpgradeError FailedToQueryVersion)
  else
    let version := user_version st in
    if version =? Z.of_nat migrationCount then (st, UpgradeOk)
    else if Z.of_nat migrationCount <? version
    then (st, UpgradeError (OlderThanSchema version))
    else if fault 1 fl then (st, UpgradeError BeginFailed)
    else
      let stmts :=
        if version =? 0 then [InitSchema]
        else map Migration (seq (Z.to_nat version)
                                (migrationCount - Z.to_nat version)) in
      if negb (version =? 0) && (version <? 0) then (st, UpgradePanic)
      else
        match execAll fl 2 (stmts ++ [SetUserVersion (Z.of_nat migrationCount)]) with
        | Some s => (st, UpgradeError (execError s))
        | None =>
            if fault (3 + length stmts) fl then (st, UpgradeError CommitFailed)
            else
              (mkSchemaState (Z.of_nat migrationCount)
                 (applied st ++ stmts ++ [SetUserVersion (Z.of_nat migrationCount)]),
               UpgradeOk)
        end.

(** *** sojuctl

    The database part of the [create-user] and [change-password] actions of
    [sojuctl].  An empty user name prints the usage and exits; for
    [change-password] the user is read, the hashed password replaced and the
    record stored.  [fl], [fl1] and [fl2] are the failures of the database
    calls; the result is the database and whether the tool dies. *)
Inductive ctlError :=
  | UsageError
  | FailedToCreateUser (e : dbError)
  | FailedToGetUser (e : queryError)
  | FailedToUpdatePassword (e : dbError).

Definition createUser (fl : faults) (db : SqliteDB)
    (username : string) (admin : bool) (hashed : string)
    : SqliteDB * option ctlError :=
  if String.eqb username "" then (db, Some UsageError)
  else
    match StoreUser fl db (User.mk 0 username hashed admin "") with
    | (db', _, None) => (db', None)
    | (db', _, Some e) => (db', Some (FailedToCreateUser e))
    end.

Definition changePassword (fl1 fl2 : faults) (db : SqliteDB)
    (username hashed : string) : SqliteDB * option ctlError :=
  if String.eqb username "" then (db, Some UsageError)
  else
    match GetUser fl1 db username with
    | (Some user, None) =>
        let user' := User.mk (User.ID user) (User.Username user) hashed
                             (User.Admin user) (User.Realname user) in
        match StoreUser fl2 db user' with
        | (db', _, None) => (db', None)
        | (db', _, Some e) => (db', Some (FailedToUpdatePassword e))
        end
    | (_, Some e) => (db, Some (FailedToGetUser e))
    | (None, None) => (db, Some (FailedToGetUser ErrNoRows))
    end.

End Database.


(** ** service.go: the handlers that edit records *)

Module Handlers.
Import Database.

(** [strings.SplitN(addr, "://", 2)]: the part before the first occurrence
    of the separator, when there is one. *)
Fixpoint cutScheme (s acc : string) : option string :=
  match s with
  | EmptyString => None
  | String a s' =>
      if String.prefix "://" s then Some acc
      else cutScheme s' (acc +:+ String a "")
  end.

Definition schemeOf (addr : string) : option string := cutScheme addr "".

(** [networkFlagSet]: a flag that was not given is [None]; the
    [-connect-command] flags given are collected in order ([nil] when there
    is none). *)
Record networkFlagSet := mkNetworkFlagSet {
  fAddr : option string; fName : option string; fNick : option string;
  fUsername : option string; fPass : option string; fRealname : option string;
  fEnabled : option bool;
  fConnectCommands : list string;
}.

Inductive updateError :=
  | UnknownScheme (scheme : string)
  | InvalidConnectCommand (command : string).

Definition supportedScheme (scheme : string) : bool :=
  String.eqb scheme "ircs" || String.eqb scheme "irc+insecure"
  || String.eqb scheme "unix".

Definition setAddr (n : Network.t) (v : string) : Network.t :=
  Network.mk (Network.ID n) (Network.Name n) v (Network.Nick n)
    (Network.Username n) (Network.Realname n) (Network.Pass n)
    (Network.ConnectCommands n) (Network.SASL n) (Network.Enabled n).

(** The assignments of the six flags that cannot fail. *)
Definition setPlainFlags (fs : networkFlagSet) (n : Network.t) : Network.t :=
  Network.mk (Network.ID n)
    (default (Network.Name n) (fName fs)) (Network.Addr n)
    (default (Network.Nick n) (fNick fs))
    (default (Network.Username n) (fUsername fs))
    (default (Network.Realname n) (fRealname fs))
    (default (Network.Pass n) (fPass fs))
    (Network.ConnectCommands n) (Network.SASL n)
    (default (Network.Enabled n) (fEnabled fs)).

Definition setConnectCommands (n : Network.t) (v : list string) : Network.t :=
  Network.mk (Network.ID n) (Network.Name n) (Network.Addr n) (Network.Nick n)
    (Network.Username n) (Network.Realname n) (Network.Pass n)
    v (Network.SASL n) (Network.Enabled n).

(** [networkFlagSet.update]: [validMessage command] tells whether
    [irc.ParseMessage] accepts the command.  The record is edited in place:
    the first component is the record as the call leaves it, also when it
    fails. *)
Definition update (validMessage : string -> bool) (fs : networkFlagSet)
    (network : Network.t) : Network.t * option updateError :=
  let checked :=
    match fAddr fs with
    | Some addr =>
        match schemeOf addr with
        | Some scheme =>
            if supportedScheme scheme then inr (setAddr network addr)
            else inl (UnknownScheme scheme)
        | None => inr (setAddr network addr)
        end
    | None => inr network
    end in
  match checked with
  | inl e => (network, Some e)
  | inr network =>
      let network := setPlainFlags fs network in
      match fConnectCommands fs with
      | [] => (network, None)
      | _ :: _ =>
          if bool_decide (fConnectCommands fs = [""])
          then (setConnectCommands network [], None)
          else
            match List.find (fun command => negb (validMessage command))
                            (fConnectCommands fs) with
            | Some command => (network, Some (InvalidConnectCommand command))
            | None => (setConnectCommands network (fConnectCommands fs), None)
            end
      end
  end.

(** *** SASL credentials

    [handleServiceSASLSetPlain] and [handleServiceSASLReset] once the
    network is found: the record is edited in place and stored. *)
Inductive saslError :=
  | WrongArguments
  | UnknownNetwork (name : string)
  | StoreFailed (e : dbError).

Definition handleServiceSASLSetPlain (fl : faults) (db : SqliteDB) (userID : Z)
    (getNetwork : string -> option Network.t) (params : list string)
    : SqliteDB * option Network.t * option saslError :=
  match params with
  | [name; username; password] =>
      match getNetwork name with
      | None => (db, None, Some (UnknownNetwork name))
      | Some net =>
          let net :=
            Network.withSASL net
              (SASL.mk "PLAIN" username password
                 (SASL.ExternalCertBlob (Network.SASL net))
                 (SASL.ExternalPrivKeyBlob (Network.SASL net))) in
          match StoreNetwork fl db userID net with
          | (db', net', Some e) => (db', Some net', Some (StoreFailed e))
          | (db', net', None) => (db', Some net', None)
          end
      end
  | _ => (db, None, Some WrongArguments)
  end.

Definition handleServiceSASLReset (fl : faults) (db : SqliteDB) (userID : Z)
    (getNetwork : string -> option Network.t) (params : list string)
    : SqliteDB * option Network.t * option saslError :=
  match params with
  | [name] =>
      match getNetwork name with
      | None => (db, None, Some (UnknownNetwork name))
      | Some net =>
          let net := Network.withSASL net (SASL.mk "" "" "" None None) in
          match StoreNetwork fl db userID net with
          | (db', net', Some e) => (db', Some net', Some (StoreFailed e))
          | (db', net', None) => (db', Some net', None)
          end
      end
  | _ => (db, None, Some WrongArguments)
  end.

(** *** Updating a user

    [popArg], and [handleUserUpdate] from the parsed flags on: what the
    handler decides to do.  [hash] is [bcrypt.GenerateFromPassword] and
    [getUser] tells whether the server knows the user. *)
Definition popArg (params : list string) : string * list string :=
  match params with
  | p :: rest => if negb (String.prefix "-" p) then (p, rest) else ("", params)
  | [] => ("", params)
  end.

Record userFlags := mkUserFlags {
  uPassword : option string;
  uRealname : option string;
  uAdmin : option bool;
  uArgs : list string;
}.

Inductive userUpdateError :=
  | FlagError
  | UnexpectedArgument
  | FailedToHashPassword
  | MustBeAdmin
  | CannotUpdateRealnameOfOther
  | UnknownUsername (username : string)
  | CannotUpdateAdminOfOwn.

(** The two things the handler ends up asking for: an [eventUserUpdate]
    sent to another user, or [updateUser] on a copy of the own record. *)
Inductive userUpdate :=
  | UpdateOther (username : string) (password : option string) (admin : option bool)
  | UpdateSelf (record : User.t).

Definition handleUserUpdate (parse : list string -> option userFlags)
    (hash : string -> option string) (getUser : string -> bool)
    (dcUser : User.t) (params : list string) : userUpdateError + userUpdate :=
  let '(username, params) := popArg params in
  match parse params with
  | None => inl FlagError
  | Some fs =>
      if (0 <? length (uArgs fs))%nat then inl UnexpectedArgument
      else
        let hashed :=
          match uPassword fs with
          | Some password =>
              match hash password with
              | Some h => inr (Some h)
              | None => inl FailedToHashPassword
              end
          | None => inr None
          end in
        match hashed with
        | inl e => inl e
        | inr hashed =>
            if negb (String.eqb username "")
               && negb (String.eqb username (User.Username dcUser))
            then
              if negb (User.Admin dcUser) then inl MustBeAdmin
              else if bool_decide (is_Some (uRealname fs))
              then inl CannotUpdateRealnameOfOther
              else if negb (getUser username) then inl (UnknownUsername username)
              else inr (UpdateOther username hashed (uAdmin fs))
            else
              let record :=
                User.mk (User.ID dcUser) (User.Username dcUser)
                  (default (User.Password dcUser) hashed)
                  (User.Admin dcUser)
                  (default (User.Realname dcUser) (uRealname fs)) in
              if bool_decide (is_Some (uAdmin fs)) then inl CannotUpdateAdminOfOwn
              else inr (UpdateSelf record)
        end
  end.

End Handlers.


(** * Properties *)

(** ** The tokenizer *)

Section splitWords_facts.
Import Service.

(** How the quoting state of the loop corresponds to the lexical reading. *)
Definition delimOf (q : quoting) : rune :=
  match q with Unquoted => r_space | Quoted d => d end.

Definition quoteRune (r : rune) : Prop := r = r_dquote \/ r = r_squote.

Definition delimOk (q : quoting) : Prop :=
  match q with Unquoted => True | Quoted d => quoteRune d end.

Lemma quoteRune_not_space r : quoteRune r -> (r =? r_space) = false.
Proof. by intros [-> | ->]. Qed.

Lemma quoteRune_IsSpace r : quoteRune r -> IsSpace r = false.
Proof. by intros [-> | ->]. Qed.

Lemma quoteRune_test r : ((r =? r_dquote) || (r =? r_squote)) = true <-> quoteRune r.
Proof.
  unfold quoteRune. rewrite orb_true_iff, !Z.eqb_eq. tauto.
Qed.

Lemma splitStep_lexScan st r q s :
  delimOk q ->
  wordDelim st = delimOf q ->
  exists q', delimOk q' /\ wordDelim (splitStep st r) = delimOf q' /\
    lexScan q (escape st) (r :: s) = lexScan q' (escape (splitStep st r)) s.
Proof.
  intros Hq Hd. unfold splitStep. simpl.
  destruct (escape st) eqn:He; simpl.
  { by exists q. }
  destruct (r =? r_backslash) eqn:Hb; simpl.
  { by exists q. }
  rewrite Hd.
  destruct q as [|d]; simpl in *.
  - destruct (IsSpace r) eqn:Hs; simpl.
    + assert (((r =? r_dquote) || (r =? r_squote)) = false) as ->.
      { destruct ((r =? r_dquote) || (r =? r_squote)) eqn:Hq'; [|done].
        apply quoteRune_test, quoteRune_IsSpace in Hq'. congruence. }
      exists Unquoted. destruct (negb (IsSpace (prev st))); simpl; by rewrite ?He, ?Hd.
    + destruct (r =? r_space) eqn:Hsp.
      { apply Z.eqb_eq in Hsp. subst r. done. }
      destruct ((r =? r_dquote) || (r =? r_squote)) eqn:Hq'; simpl.
      * exists (Quoted r). rewrite ?He. split; [by apply quoteRune_test|done].
      * exists Unquoted. by rewrite ?He, ?Hd.
  - rewrite (quoteRune_not_space d Hq). simpl.
    destruct (r =? d) eqn:Hrd; simpl.
    + exists Unquoted. by rewrite ?He.
    + exists (Quoted d).
      destruct ((r =? r_dquote) || (r =? r_squote)); simpl; by rewrite ?He, ?Hd.
Qed.

Lemma fold_splitStep_lexScan s : forall st q,
  delimOk q ->
  wordDelim st = delimOf q ->
  exists q', delimOk q' /\ wordDelim (fold_left splitStep s st) = delimOf q' /\
    lexScan q (escape st) s = (q', escape (fold_left splitStep s st)).
Proof.
  induction s as [|r s IH]; intros st q Hq Hd.
  - exists q. simpl. by split_and!.
  - destruct (splitStep_lexScan st r q s Hq Hd) as (q1 & Hq1 & Hd1 & Heq).
    destruct (IH (splitStep st r) q1 Hq1 Hd1) as (q2 & Hq2 & Hd2 & Heq2).
    exists q2. simpl fold_left. split_and!; [done|done|].
    by rewrite Heq, Heq2.
Qed.

Lemma splitLoop_lexScan s :
  exists q, delimOk q /\ wordDelim (splitLoop s) = delimOf q /\
    lexScan Unquoted false s = (q, escape (splitLoop s)).
Proof. by apply (fold_splitStep_lexScan s splitInit Unquoted). Qed.

(** C5: [splitWords] fails exactly on the inputs that end inside a quoted
    span or with a pending backslash; the error is then one of the two
    unterminated errors, and the returned slice is nil. *)
Theorem splitWords_error_iff (s : list rune) :
  ((exists e, (splitWords s).2 = Some e) <->
     (endsInQuotedSpan s \/ endsWithPendingBackslash s)) /\
  (forall e, (splitWords s).2 = Some e ->
     (splitWords s).1 = [] /\
     (splitError_message e = "unterminated quoted string" \/
      splitError_message e = "unterminated backslash sequence") /\
     (e = UnterminatedQuotedString <-> endsInQuotedSpan s) /\
     (e = UnterminatedBackslashSequence <->
        ~ endsInQuotedSpan s /\ endsWithPendingBackslash s)).
Proof.
  destruct (splitLoop_lexScan s) as (q & Hq & Hd & Hscan).
  unfold endsInQuotedSpan, endsWithPendingBackslash, splitWords.
  rewrite Hscan. simpl. rewrite Hd.
  destruct q as [|d]; simpl.
  - destruct (escape (splitLoop s)); simpl.
    + split; [prop_solve|].
      intros e [= <-]. split_and!; [done | by right | prop_solve | prop_solve].
    + split; [prop_solve | by intros e].
  - rewrite (quoteRune_not_space d Hq). simpl.
    split; [prop_solve|].
    intros e [= <-]. split_and!; [done | by left | prop_solve |].
    split; [done | intros [H _]; by destruct H].
Qed.

(** An opening quote that is never closed, and a trailing backslash. *)
Lemma splitWords_error_iff_witness :
  splitWords (runes_of_string (String dquote "al ice"))
    = ([], Some UnterminatedQuotedString) /\
  endsInQuotedSpan (runes_of_string (String dquote "al ice")) /\
  (splitWords (runes_of_string "it\")).2 = Some UnterminatedBackslashSequence /\
  endsWithPendingBackslash (runes_of_string "it\").
Proof.
  split; [reflexivity|]. split.
  - destruct (splitWords_error_iff (runes_of_string (String dquote "al ice")))
      as [_ H].
    by apply (H UnterminatedQuotedString).
  - split; [reflexivity|].
    destruct (splitWords_error_iff (runes_of_string "it\")) as [_ H].
    destruct (H UnterminatedBackslashSequence) as (_ & _ & _ & Hb); [done|].
    by apply Hb.
Defined.

(** C6: scenario S1 of the specification. *)
Theorem splitWords_scenario_S1 :
  splitWords (runes_of_string s1_input) =
    (map runes_of_string ["sasl"; "set-plain"; "net1"; "al ice"; "it is"], None).
Proof. vm_compute. reflexivity. Qed.

End splitWords_facts.

(** ** Membership lists *)

Section memberships_facts.
Import Ircutil.

(** The rank of a membership: the index of its first occurrence in
    [availableMemberships] (the length of the list when it is absent). *)
Fixpoint rank (avail : list Membership) (m : Membership) : nat :=
  match avail with
  | [] => 0
  | a :: rest => if decide (a = m) then 0 else S (rank rest m)
  end.

Definition rankLt (avail : list Membership) (a b : Membership) : Prop :=
  (rank avail a < rank avail b)%nat.

(** Strictly sorted by rank, every element being an available membership. *)
Definition ranked (avail : list Membership) (l : Memberships) : Prop :=
  StronglySorted (rankLt avail) l /\ Forall (fun m => m ∈ avail) l.




Lemma rank_app_l pre rest m :
  m ∈ pre -> rank (pre ++ rest) m = rank pre m /\ (rank pre m < length pre)%nat.
Proof.
  induction pre as [|a pre IH]; simpl; [by intros ?%elem_of_nil|].
  intros Hin. destruct (decide (a = m)) as [->|Hne]; [lia|].
  apply elem_of_cons in Hin as [->|Hin]; [done|].
  destruct (IH Hin). lia.
Qed.

Lemma rank_app_r pre rest m :
  m ∉ pre -> rank (pre ++ rest) m = (length pre + rank rest m)%nat.
Proof.
  induction pre as [|a pre IH]; simpl; [done|].
  intros Hin. apply not_elem_of_cons in Hin as [Hne Hin].
  destruct (decide (a = m)) as [->|_]; [done|]. by rewrite IH.
Qed.

Lemma rank_lt_length avail m : m ∈ avail -> (rank avail m < length avail)%nat.
Proof.
  intros Hin. destruct (rank_app_l avail [] m Hin) as [_ ?]. done.
Qed.

Lemma rank_head pre a rest : a ∉ pre -> rank (pre ++ a :: rest) a = length pre.
Proof.
  intros Hin. rewrite rank_app_r by done. simpl.
  destruct (decide (a = a)); [lia|done].
Qed.

Lemma rank_le_head pre a rest : (rank (pre ++ a :: rest) a <= length pre)%nat.
Proof.
  destruct (decide (a ∈ pre)) as [Hin|Hin].
  - destruct (rank_app_l pre (a :: rest) a Hin). lia.
  - by rewrite rank_head.
Qed.

(** A membership whose rank is the position of [a] is [a]. *)
Lemma rank_eq_head pre a rest x :
  rank (pre ++ a :: rest) x = length pre -> x = a.
Proof.
  destruct (decide (x ∈ pre)) as [Hin|Hin].
  - destruct (rank_app_l pre (a :: rest) x Hin). lia.
  - rewrite rank_app_r by done. simpl.
    destruct (decide (a = x)); [done|lia].
Qed.



Lemma addLoop_le rest : forall l new i p,
  (i <= length l)%nat -> addLoop rest l new i = Some p -> (p <= length l)%nat.
Proof.
  induction rest as [|a rest IH]; simpl; intros l new i p Hi.
  - by intros [= <-].
  - repeat case_bool_decide; try (by intros [= <-]); try done.
    + apply IH. lia.
    + by apply IH.
Qed.

Lemma addLoop_spec avail l new rest : forall pre i,
  avail = pre ++ rest ->
  new ∈ avail -> new ∉ pre ->
  StronglySorted (rankLt avail) l ->
  Forall (fun x => (rank avail x < length pre)%nat) (take i l) ->
  Forall (fun x => (length pre <= rank avail x)%nat) (drop i l) ->
  match addLoop rest l new i with
  | None => new ∈ l
  | Some p =>
      Forall (fun x => rankLt avail x new) (take p l) /\
      Forall (rankLt avail new) (drop p l)
  end.
Proof.
  induction rest as [|a rest IH]; intros pre i Havail Hnew Hpre Hsort Hlo Hhi.
  { rewrite app_nil_r in Havail. by subst. }
  assert (length pre <= rank avail new)%nat as Hrn.
  { subst avail. rewrite rank_app_r by done. lia. }
  simpl. case_bool_decide as Hlen.
  { rewrite drop_ge by done. split; [|done].
    eapply Forall_impl; [exact Hlo|]. unfold rankLt. simpl. lia. }
  destruct (lookup_lt_is_Some_2 l i) as [x Hx]; [lia|].
  pose proof (drop_S l x i Hx) as Hdrop.
  pose proof (take_S_r l i x Hx) as Htake.
  rewrite Hdrop in Hhi. apply Forall_cons in Hhi as [Hxr Hhi'].
  assert (Forall (rankLt avail x) (drop (S i) l)) as Hafter.
  { rewrite <- (take_drop i l), Hdrop in Hsort.
    apply StronglySorted_app_1_r, StronglySorted_cons in Hsort. tauto. }
  case_bool_decide as Hla.
  - assert (x = a) as -> by congruence.
    case_bool_decide as Han.
    + subst. by eapply list_elem_of_lookup_2.
    + apply (IH (pre ++ [a]) (S i)); try done.
      * by rewrite <- app_assoc.
      * rewrite not_elem_of_app, not_elem_of_cons. split_and!; [done|congruence|].
        apply not_elem_of_nil.
      * rewrite Htake, length_app. apply Forall_app. split.
        -- eapply Forall_impl; [exact Hlo|]. simpl. lia.
        -- apply Forall_singleton. simpl.
           pose proof (rank_le_head pre a rest). subst avail. lia.
      * rewrite length_app. simpl.
        eapply Forall_impl; [exact Hafter|]. unfold rankLt. simpl. lia.
  - assert (x <> a) as Hxa by congruence.
    assert (length pre < rank avail x)%nat as Hxr'.
    { destruct (decide (rank avail x = length pre)) as [Heq|]; [|lia].
      subst avail. by apply rank_eq_head in Heq. }
    case_bool_decide as Han.
    + subst a. assert (rank avail new = length pre) as Hr.
      { subst avail. by apply rank_head. }
      split.
      * eapply Forall_impl; [exact Hlo|]. unfold rankLt. simpl. lia.
      * rewrite Hdrop. constructor; [unfold rankLt; lia|].
        eapply Forall_impl; [exact Hafter|]. unfold rankLt. simpl. lia.
    + apply (IH (pre ++ [a]) i); try done.
      * by rewrite <- app_assoc.
      * rewrite not_elem_of_app, not_elem_of_cons. split_and!; [done|congruence|].
        apply not_elem_of_nil.
      * rewrite length_app. eapply Forall_impl; [exact Hlo|]. simpl. lia.
      * rewrite Hdrop, length_app. simpl. constructor; [lia|].
        eapply Forall_impl; [exact Hafter|]. unfold rankLt. simpl. lia.
Qed.

(** The three slice statements of [Add] insert [new] at index [i]. *)
Lemma insertAt_eq l i new :
  (i <= length l)%nat -> insertAt l i new = take i l ++ new :: drop i l.
Proof.
  intros Hi. unfold insertAt, copy.
  set (z := mkMembership zero zero).
  rewrite !length_drop, length_app. simpl.
  rewrite (drop_ge (drop (S i) (l ++ [z])))
    by (rewrite length_drop, length_app; simpl; lia).
  rewrite app_nil_r, drop_app_le by done.
  rewrite (take_app_length' (drop i l) [z]) by (rewrite length_drop; lia).
  destruct (decide (i = length l)) as [->|Hne].
  - rewrite take_ge by (rewrite length_app; simpl; lia).
    rewrite drop_all, app_nil_r, take_ge by done.
    rewrite insert_app_r_alt by lia.
    by replace (length l - length l)%nat with 0%nat by lia.
  - destruct (lookup_lt_is_Some_2 l i) as [x Hx]; [lia|].
    rewrite take_app_le by lia.
    rewrite (take_S_r l i x Hx), <- app_assoc. simpl.
    rewrite insert_app_r_alt by (rewrite length_take; lia).
    rewrite length_take. replace (i - i `min` length l)%nat with 0%nat by lia.
    done.
Qed.

Lemma Add_ranked avail l new :
  new ∈ avail -> ranked avail l -> ranked avail (Add avail l new).
Proof.
  intros Hnew [Hsort Hin]. unfold Add.
  pose proof (addLoop_spec avail l new avail [] 0 eq_refl Hnew) as Hspec.
  pose proof (addLoop_le avail l new 0) as Hle.
  destruct (addLoop avail l new 0) as [p|]; [|done].
  specialize (Hle p ltac:(lia) eq_refl).
  destruct Hspec as [Hlo Hhi]; try done.
  { apply not_elem_of_nil. }
  { rewrite drop_0. apply Forall_forall. simpl. lia. }
  rewrite insertAt_eq by done. split.
  - rewrite <- (take_drop p l) in Hsort.
    apply StronglySorted_app in Hsort as (Hcross & Hs1 & Hs2).
    apply StronglySorted_app_2; [|done|by constructor].
    intros x1 x2 Hx1 [->|Hx2]%elem_of_cons.
    + rewrite Forall_forall in Hlo. by apply Hlo.
    + by apply Hcross.
  - rewrite <- (take_drop p l) in Hin. apply Forall_app in Hin as [? ?].
    apply Forall_app. split; [done|]. by constructor.
Qed.

Lemma Remove_ranked avail l old :
  ranked avail l -> ranked avail (Remove l old).
Proof.
  intros [Hsort Hin]. unfold Remove.
  destruct (list_find _ l) as [[i x]|] eqn:Hfind; [|done].
  apply list_find_Some in Hfind as (Hx & _ & _).
  rewrite <- (take_drop i l), (drop_S l x i Hx) in Hsort, Hin.
  apply StronglySorted_app in Hsort as (Hcross & Hs1 & Hs2).
  apply StronglySorted_cons in Hs2 as [_ Hs2].
  apply Forall_app in Hin as [Hi1 Hi2]. apply Forall_cons in Hi2 as [_ Hi2].
  split.
  - apply StronglySorted_app_2; [|done|done].
    intros x1 x2 Hx1 Hx2. apply Hcross; [done|]. by apply elem_of_cons; right.
  - by apply Forall_app.
Qed.




End memberships_facts.

(** ** Channel modes *)

Section modes_facts.
Import Ircutil Bridge.

(** The letter is not a membership mode of the connection. *)
Definition notMembershipMode (c : upstreamConn) (mode : ascii) : Prop :=
  list_find (fun membership => Mode membership = mode) (availableMemberships c) = None.

Definition signSet (st : modeState) : Prop :=
  plusMinus st = "+"%char \/ plusMinus st = "-"%char.

Definition isLetter (mode : ascii) : Prop := mode <> "+"%char /\ mode <> "-"%char.

Ltac mode_cases :=
  repeat (case_bool_decide; simpl in *; try done; try tauto; try congruence;
          try (exfalso; intuition discriminate)).

(** A type B mode takes one argument, set or unset; when set, the argument
    becomes its value. *)
Lemma applyMode_typeB modeStr arguments st mode :
  isLetter mode -> signSet st ->
  notMembershipMode (conn (ch st)) mode ->
  availableChannelModes (conn (ch st)) !! mode = Some ModeTypeB ->
  exists st', applyMode modeStr arguments st mode = inr st' /\
    nextArgument st' = S (nextArgument st) /\
    ch st' = (if bool_decide (plusMinus st = "+"%char)
              then setMode (ch st) mode (default "" (arguments !! nextArgument st))
              else deleteMode (ch st) mode).
Proof.
  intros [??] Hs Hm Ht. unfold applyMode, notMembershipMode, signSet in *.
  rewrite Hm, Ht. mode_cases; eexists; split_and!; done.
Qed.

(** A type C mode takes one argument exactly when it is set. *)
Lemma applyMode_typeC modeStr arguments st mode :
  isLetter mode -> signSet st ->
  notMembershipMode (conn (ch st)) mode ->
  availableChannelModes (conn (ch st)) !! mode = Some ModeTypeC ->
  exists st', applyMode modeStr arguments st mode = inr st' /\
    (if bool_decide (plusMinus st = "+"%char)
     then nextArgument st' = S (nextArgument st) /\
          ch st' = setMode (ch st) mode (default "" (arguments !! nextArgument st))
     else nextArgument st' = nextArgument st /\
          ch st' = deleteMode (ch st) mode).
Proof.
  intros [??] Hs Hm Ht. unfold applyMode, notMembershipMode, signSet in *.
  rewrite Hm, Ht. mode_cases; eexists; split_and!; done.
Qed.

(** A type D mode never takes an argument. *)
Lemma applyMode_typeD modeStr arguments st mode :
  isLetter mode -> signSet st ->
  notMembershipMode (conn (ch st)) mode ->
  availableChannelModes (conn (ch st)) !! mode = Some ModeTypeD ->
  exists st', applyMode modeStr arguments st mode = inr st' /\
    nextArgument st' = nextArgument st /\
    ch st' = (if bool_decide (plusMinus st = "+"%char)
              then setMode (ch st) mode "" else deleteMode (ch st) mode).
Proof.
  intros [??] Hs Hm Ht. unfold applyMode, notMembershipMode, signSet in *.
  rewrite Hm, Ht. mode_cases; eexists; split_and!; done.
Qed.

(** A type A mode falls through every branch: nothing is consumed and
    nothing is recorded, whatever the sign. *)
Lemma applyMode_typeA modeStr arguments st mode :
  isLetter mode -> signSet st ->
  notMembershipMode (conn (ch st)) mode ->
  availableChannelModes (conn (ch st)) !! mode = Some ModeTypeA ->
  applyMode modeStr arguments st mode = inr st.
Proof.
  intros [??] Hs Hm Ht. unfold applyMode, notMembershipMode, signSet in *.
  rewrite Hm, Ht. mode_cases.
Qed.

(** A channel of a connection with the standard modes and memberships, no
    member and an empty (non-nil) mode map. *)
Definition stdChannel : upstreamChannel :=
  mkUpstreamChannel "#soju" "="%char
    (mkUpstreamConn StdMemberships StdChannelModes) ∅ (Some ∅).

(** C1 (the code departs from the claim): in [MODE +bk mask key] the ban
    mask is an argument of the type A mode [b]; [applyChannelModes] does not
    consume it, so the type B mode [k] that follows is given the mask as its
    key.  Had [b] consumed its argument the key would be [secret]. *)
Theorem applyChannelModes_typeA_argument_not_consumed :
  let r := applyChannelModes stdChannel "+bk" ["*!*@example.org"; "secret"] in
  StdChannelModes !! "b"%char = Some ModeTypeA /\
  r.2 = inr ∅ /\
  modes r.1 = Some {["k"%char := "*!*@example.org"]} /\
  modes r.1 <> Some {["k"%char := "secret"]}.
Proof. vm_compute. split_and!; try reflexivity. discriminate. Qed.

End modes_facts.

(** ** Service command lookup *)

Section dispatch_facts.
Import Service.

(** Induction over a command tree, with the hypothesis for every child. *)
Fixpoint serviceCommand_tree_ind (P : serviceCommand -> Prop)
    (step : forall u d h cs a,
        Forall (fun nc : string * serviceCommand => P nc.2) cs ->
        P (mkServiceCommand u d h cs a))
    (cmd : serviceCommand) {struct cmd} : P cmd :=
  match cmd with
  | mkServiceCommand u d h cs a =>
      step u d h cs a
        ((fix children_ind (cs : serviceCommandSet)
            : Forall (fun nc : string * serviceCommand => P nc.2) cs :=
            match cs with
            | [] => @List.Forall_nil _ _
            | nc :: cs' =>
                @List.Forall_cons _ _ nc cs'
                  (serviceCommand_tree_ind P step nc.2) (children_ind cs')
            end) cs)
  end.

(** [name] is a prefix of the command name [k] ([strings.HasPrefix(k, name)]). *)
Definition isPrefixOf (name k : string) : Prop := String.prefix name k = true.

#[local] Instance isPrefixOf_dec name : forall k, Decision (isPrefixOf name k).
Proof. intros k. unfold isPrefixOf. apply _. Defined.

(** The sibling names that [name] is a prefix of. *)
Definition prefixMatches (name : string) (cmds : serviceCommandSet) : list string :=
  filter (isPrefixOf name) (Names0 cmds).

(** What [Get] does once the first word stands for [cmd]. *)
Definition descend (cmd : serviceCommand) (params : list string)
    : getError + (serviceCommand * list string) :=
  if (length params =? 0)%nat || (length (children cmd) =? 0)%nat
  then inr (cmd, params)
  else Get (children cmd) params.

Lemma Get_cons cmds name params :
  Get cmds (name :: params) =
    match resolve cmds name with
    | inl e => inl e
    | inr cmd => descend cmd params
    end.
Proof. reflexivity. Qed.

Lemma prefix_refl s : String.prefix s s = true.
Proof. induction s as [|c s IH]; simpl; [done|]. by destruct (ascii_dec c c). Qed.

Lemma lookupCmd_Some_elem cmds name cmd :
  lookupCmd cmds name = Some cmd -> (name, cmd) ∈ cmds.
Proof.
  induction cmds as [|[k c] cmds IH]; simpl; [done|].
  destruct (String.eqb k name) eqn:Hk.
  - apply String.eqb_eq in Hk as ->. intros [= ->]. left.
  - intros H. right. by apply IH.
Qed.

Lemma lookupCmd_None cmds name :
  lookupCmd cmds name = None <-> name ∉ Names0 cmds.
Proof.
  induction cmds as [|[k c] cmds IH]; simpl.
  - split; [intros _; apply not_elem_of_nil | done].
  - rewrite not_elem_of_cons. destruct (String.eqb k name) eqn:Hk.
    + apply String.eqb_eq in Hk as ->. split; [done | by intros [? _]].
    + apply String.eqb_neq in Hk. rewrite IH. split; [by split | by intros [_ ?]].
Qed.

Lemma lookupCmd_elem cmds name cmd :
  wfSet cmds -> (name, cmd) ∈ cmds -> lookupCmd cmds name = Some cmd.
Proof.
  unfold wfSet. induction cmds as [|[k c] cmds IH]; simpl.
  - by intros _ ?%elem_of_nil.
  - intros [Hk Hnd]%NoDup_cons [[= -> ->]|Hin]%elem_of_cons.
    + by rewrite String.eqb_refl.
    + destruct (String.eqb k name) eqn:Hkn; [|by apply IH].
      apply String.eqb_eq in Hkn as ->. destruct Hk.
      apply list_elem_of_fmap. by exists (name, cmd).
Qed.

(** The prefix loop, by the number of matching names. *)
Lemma prefixScan_spec name cmds : forall acc,
  prefixScan name cmds acc =
    match acc, filter (fun nc : string * serviceCommand => isPrefixOf name nc.1) cmds with
    | _, [] => inr acc
    | None, [nc] => inr (Some nc.2)
    | _, _ => inl (Ambiguous name)
    end.
Proof.
  induction cmds as [|[k c] cmds IH]; intros acc; simpl.
  { by destruct acc. }
  rewrite filter_cons. simpl.
  destruct (decide (isPrefixOf name k)) as [Hp|Hp]; unfold isPrefixOf in Hp.
  - rewrite Hp. simpl.
    destruct acc as [c0|]; [done|]. rewrite IH.
    by destruct (filter _ cmds) as [|? [|? ?]].
  - apply not_true_is_false in Hp. rewrite Hp. simpl. apply IH.
Qed.

Lemma filter_names name cmds :
  map fst (filter (fun nc : string * serviceCommand => isPrefixOf name nc.1) cmds)
  = prefixMatches name cmds.
Proof.
  unfold prefixMatches, Names0.
  induction cmds as [|[k c] cmds IH]; [done|].
  simpl. rewrite !filter_cons. simpl.
  destruct (decide (isPrefixOf name k)); simpl; by rewrite IH.
Qed.





(** A word that is neither a name nor a prefix of one is not found. *)
Lemma resolve_not_found cmds name :
  lookupCmd cmds name = None ->
  prefixMatches name cmds = [] ->
  resolve cmds name = inl (NotFound name).
Proof.
  intros Hnone Hno. unfold resolve. rewrite Hnone, prefixScan_spec.
  rewrite <- filter_names in Hno. by destruct (filter _ cmds).
Qed.

(** Whatever [Get] resolves a word to is one of the commands of the set. *)
Lemma resolve_elem cmds name cmd :
  resolve cmds name = inr cmd -> exists k, (k, cmd) ∈ cmds.
Proof.
  unfold resolve. destruct (lookupCmd cmds name) as [c|] eqn:Hl.
  - intros [= ->]. exists name. by apply lookupCmd_Some_elem.
  - rewrite prefixScan_spec.
    destruct (filter _ cmds) as [|[k c] [|? ?]] eqn:Hf; try done.
    intros [= <-]. exists k.
    assert ((k, c) ∈ filter (fun nc : string * serviceCommand =>
              isPrefixOf name nc.1) cmds) as Hin by (rewrite Hf; left).
    by apply list_elem_of_filter in Hin as [_ ?].
Qed.

(** *** Help listings *)

(** What one name contributes to the listing, as the loop body of
    [appendServiceCommandSetHelp] reads. *)
Definition helpItem (cmds : serviceCommandSet) (prefix : list string)
    (isAdmin : bool) (name : string) : list string :=
  match lookupCmd cmds name with
  | Some cmd =>
      if admin cmd && negb isAdmin then []
      else if (length (children cmd) =? 0)%nat
           then [String.concat " " (prefix ++ [name])]
           else appendServiceCommandSetHelp (children cmd) (prefix ++ [name]) isAdmin
  | None => []
  end.

Lemma helpOfCommand_unfold isAdmin cmd words :
  helpOfCommand isAdmin cmd words =
    if (length (children cmd) =? 0)%nat then [String.concat " " words]
    else appendServiceCommandSetHelp (children cmd) words isAdmin.
Proof. by destruct cmd as [u d h [|nc cs] a]. Qed.

Lemma lookupEntry_map isAdmin cmds name :
  lookupEntry
    (map (fun nc : string * serviceCommand =>
            (nc.1, (admin nc.2, helpOfCommand isAdmin nc.2))) cmds) name
  = (fun cmd => (admin cmd, helpOfCommand isAdmin cmd)) <$> lookupCmd cmds name.
Proof.
  induction cmds as [|[k c] cmds IH]; simpl; [done|].
  by destruct (String.eqb k name).
Qed.

(** The listing is the loop over the sorted names with the loop body above. *)
Lemma appendServiceCommandSetHelp_unfold cmds prefix isAdmin :
  appendServiceCommandSetHelp cmds prefix isAdmin =
    flat_map (helpItem cmds prefix isAdmin) (Names cmds).
Proof.
  unfold appendServiceCommandSetHelp, helpOver, Names, Names0.
  rewrite map_map. simpl. apply flat_map_ext. intros name.
  unfold helpItem. rewrite lookupEntry_map.
  destruct (lookupCmd cmds name) as [cmd|]; simpl; [|done].
  destruct (admin cmd && negb isAdmin); [done|]. apply helpOfCommand_unfold.
Qed.

(** The paths of the tree that a user may see: no command on the path is
    admin-only unless the user is an admin, and the last one has no
    children. *)
Inductive visiblePath (isAdmin : bool) : serviceCommandSet -> list string -> Prop :=
  | visible_leaf cmds name cmd :
      lookupCmd cmds name = Some cmd ->
      admin cmd && negb isAdmin = false ->
      children cmd = [] ->
      visiblePath isAdmin cmds [name]
  | visible_node cmds name cmd path :
      lookupCmd cmds name = Some cmd ->
      admin cmd && negb isAdmin = false ->
      children cmd <> [] ->
      visiblePath isAdmin (children cmd) path ->
      visiblePath isAdmin cmds (name :: path).

Lemma listing_visible_children isAdmin (cmd : serviceCommand) :
  forall prefix e,
    e ∈ appendServiceCommandSetHelp (children cmd) prefix isAdmin ->
    exists path, visiblePath isAdmin (children cmd) path /\
                 e = String.concat " " (prefix ++ path).
Proof.
  induction cmd as [u d h cs a IH] using serviceCommand_tree_ind.
  simpl. intros prefix e. rewrite appendServiceCommandSetHelp_unfold.
  rewrite list_elem_of_In, in_flat_map. intros (name & _ & Hin).
  unfold helpItem in Hin.
  destruct (lookupCmd cs name) as [c|] eqn:Hl; [|done].
  destruct (admin c && negb isAdmin) eqn:Hadm; [done|].
  destruct (length (children c) =? 0)%nat eqn:Hlen.
  - destruct Hin as [<-|[]]. exists [name]. split; [|done].
    apply (visible_leaf _ _ _ c); [done|done|].
    apply Nat.eqb_eq in Hlen. by destruct (children c).
  - apply lookupCmd_Some_elem in Hl as Hel.
    rewrite Forall_forall in IH. specialize (IH _ Hel). simpl in IH.
    apply list_elem_of_In in Hin.
    destruct (IH _ _ Hin) as (path & Hpath & ->).
    exists (name :: path). split.
    + apply (visible_node _ _ _ c); [done|done| |done].
      apply Nat.eqb_neq in Hlen. by destruct (children c).
    + by rewrite <- app_assoc.
Qed.

Lemma listing_visible isAdmin cmds prefix e :
  e ∈ appendServiceCommandSetHelp cmds prefix isAdmin ->
  exists path, visiblePath isAdmin cmds path /\
               e = String.concat " " (prefix ++ path).
Proof. apply (listing_visible_children isAdmin (group cmds false)). Qed.






(** *** Commands without handler and children *)

(** The check a validating constructor would make: every command of the
    tree has a handler or children. *)
Fixpoint invocable (cmd : serviceCommand) : bool :=
  match cmd with
  | mkServiceCommand _ _ h cs _ =>
      (bool_decide (is_Some h) || negb (length cs =? 0)%nat)
      && forallb (fun nc : string * serviceCommand => invocable nc.2) cs
  end.

Definition invocableSet (cmds : serviceCommandSet) : bool :=
  forallb (fun nc : string * serviceCommand => invocable nc.2) cmds.

Lemma invocable_unfold cmd :
  invocable cmd =
    (bool_decide (is_Some (handle cmd)) || negb (length (children cmd) =? 0)%nat)
    && invocableSet (children cmd).
Proof. by destruct cmd. Qed.

Lemma Get_invocable words : forall cmds cmd params,
  invocableSet cmds = true ->
  Get cmds words = inr (cmd, params) ->
  is_Some (handle cmd) \/ children cmd <> [].
Proof.
  induction words as [|w words IH]; intros cmds cmd params Hall; [done|].
  rewrite Get_cons. destruct (resolve cmds w) as [e|c] eqn:Hr; [done|].
  apply resolve_elem in Hr as [k Hk].
  unfold invocableSet in Hall. rewrite forallb_forall in Hall.
  apply list_elem_of_In, Hall in Hk. simpl in Hk.
  rewrite invocable_unfold in Hk. apply andb_true_iff in Hk as [Hc Hcs].
  unfold descend.
  destruct ((length words =? 0)%nat || (length (children c) =? 0)%nat).
  - intros [= <- _]. apply orb_true_iff in Hc as [Hc|Hc].
    + left. by apply bool_decide_eq_true in Hc.
    + right. apply negb_true_iff, Nat.eqb_neq in Hc. by destruct (children c).
  - by apply IH.
Qed.

(** C9, as the code has it: nothing validates the tree; a command with
    neither handler nor children is tolerated, and invoking it is answered
    with the not-found reply for the first word.  The tree built by [init]
    has no such command, so with it this reply is never sent. *)
Theorem bare_command_tolerated :
  (forall cmds userAdmin words cmd params,
      Get cmds words = inr (cmd, params) ->
      admin cmd && negb userAdmin = false ->
      handle cmd = None -> children cmd = [] ->
      dispatch cmds userAdmin words = ReplyCommandNotFound (default "" (head words))) /\
  invocableSet serviceCommands = true /\
  (forall userAdmin text word,
      handleServicePRIVMSG serviceCommands userAdmin text <> ReplyCommandNotFound word).
Proof.
  split_and!.
  - intros cmds userAdmin words cmd params Hg Ha Hh Hc. unfold dispatch.
    by rewrite Hg, Ha, Hh, Hc.
  - by vm_compute.
  - intros userAdmin text word. unfold handleServicePRIVMSG, dispatch.
    destruct (splitWords text) as [ws [e|]]; [done|].
    destruct (Get serviceCommands (map wordString ws)) as [e|[cmd ps]] eqn:Hg; [done|].
    destruct (admin cmd && negb userAdmin); [done|].
    assert (invocableSet serviceCommands = true) as Hall by by vm_compute.
    destruct (Get_invocable _ _ _ _ Hall Hg) as [[h Hh]|Hc].
    + by rewrite Hh.
    + destruct (handle cmd); [done|].
      destruct (children cmd); [done|]. done.
Qed.

Lemma bare_command_tolerated_witness :
  dispatch [("ghost", mkServiceCommand "" "" None [] false)] false ["ghost"; "x"]
    = ReplyCommandNotFound "ghost".
Proof.
  destruct bare_command_tolerated as (H & _).
  by apply (H _ false ["ghost"; "x"] (mkServiceCommand "" "" None [] false) ["x"]).
Defined.

(** The claim of C9 fails: a set with a command that has neither handler nor
    children is accepted, dispatch reaches the command and the not-found
    reply is sent. *)
Lemma bare_command_reached :
  let bare := mkServiceCommand "" "" None [] false in
  Get [("ghost", bare)] ["ghost"] = inr (bare, []) /\
  handleServicePRIVMSG [("ghost", bare)] false (runes_of_string "ghost")
    = ReplyCommandNotFound "ghost".
Proof. by vm_compute. Qed.

End dispatch_facts.

(** ** The persistence store *)

Section database_facts.
Import Database.

Lemma lastRowid_bound {A} (m : gmap Z A) k :
  is_Some (m !! k) -> exists M, lastRowid m = Some M /\ k <= M.
Proof.
  intros [x Hx]. apply elem_of_map_to_list in Hx.
  assert (k ∈ (map_to_list m).*1) as Hk.
  { apply list_elem_of_fmap. by exists (k, x). }
  unfold lastRowid. induction ((map_to_list m).*1) as [|k' ks IH]; simpl.
  { by apply elem_of_nil in Hk. }
  apply elem_of_cons in Hk as [->|Hk].
  - destruct (foldr _ None ks); eexists; split; try done; lia.
  - destruct (IH Hk) as (M & -> & HM). eexists; split; [done|]. lia.
Qed.

Lemma nextRowid_fresh {A} (m : gmap Z A) : m !! nextRowid m = None.
Proof.
  destruct (m !! nextRowid m) eqn:Hl; [|done].
  destruct (lastRowid_bound m (nextRowid m)) as (M & HM & Hle); [done|].
  unfold nextRowid in Hle. rewrite HM in Hle. lia.
Qed.

Lemma sqlUpdate_lookup {A} P (f : A -> A) m k :
  sqlUpdate P f m !! k = (fun r => if P k r then f r else r) <$> m !! k.
Proof. unfold sqlUpdate. rewrite map_lookup_imap. by destruct (m !! k). Qed.

Lemma sqlUpdate_lookup_ne {A} (f : A -> A) (m : gmap Z A) id k :
  k <> id -> sqlUpdate (fun k' _ => bool_decide (k' = id)) f m !! k = m !! k.
Proof.
  intros Hne. rewrite sqlUpdate_lookup. destruct (m !! k); [|done].
  simpl. by rewrite bool_decide_eq_false_2.
Qed.

Lemma sqlUpdate_lookup_eq {A} (f : A -> A) (m : gmap Z A) id :
  sqlUpdate (fun k' _ => bool_decide (k' = id)) f m !! id = f <$> m !! id.
Proof.
  rewrite sqlUpdate_lookup. destruct (m !! id); [|done].
  simpl. by rewrite bool_decide_eq_true_2.
Qed.

Lemma sqlDelete_lookup_Some {A} P (m : gmap Z A) k r :
  sqlDelete P m !! k = Some r <-> m !! k = Some r /\ P k r = false.
Proof. unfold sqlDelete. by rewrite map_lookup_filter_Some. Qed.

(** *** Deleting a user *)

(** The database after the four DELETE statements. *)
Definition deleteUserRows (db : SqliteDB) (id : Z) : SqliteDB :=
  mkDB (sqlDelete (fun k _ => bool_decide (k = id)) (tUser db))
       (sqlDelete (fun _ n => bool_decide (n_user n = id)) (tNetwork db))
       (sqlDelete (fun _ c => bool_decide (ownedBy (tNetwork db) id (c_network c)))
                  (tChannel db))
       (sqlDelete (fun _ r => bool_decide (ownedBy (tNetwork db) id (r_network r)))
                  (tDeliveryReceipt db)).

Lemma DeleteUser_cases fl db id :
  DeleteUser fl db id = (deleteUserRows db id, None) \/
  exists e, DeleteUser fl db id = (db, Some e).
Proof.
  unfold DeleteUser, transaction. simpl.
  repeat (match goal with
          | |- context [if fault ?n fl then _ else _] => destruct (fault n fl)
          end; simpl; [by right; eexists|]).
  by left.
Qed.

Lemma DeleteUser_no_fault db id :
  DeleteUser [] db id = (deleteUserRows db id, None).
Proof. reflexivity. Qed.

(** C7: after a successful [DeleteUser id] no network of the user, no
    channel or delivery receipt of one of the user's networks and no user
    row [id] is left; after a failed one the database is as before.  Without
    driver failure the call succeeds. *)
Theorem DeleteUser_cascade (fl : faults) (db : SqliteDB) (id : Z) :
  let r := DeleteUser fl db id in
  match r.2 with
  | None =>
      (forall k n, tNetwork r.1 !! k = Some n -> n_user n <> id) /\
      (forall k c, tChannel r.1 !! k = Some c ->
                   ~ ownedBy (tNetwork db) id (c_network c)) /\
      (forall k x, tDeliveryReceipt r.1 !! k = Some x ->
                   ~ ownedBy (tNetwork db) id (r_network x)) /\
      tUser r.1 !! id = None
  | Some _ => r.1 = db
  end /\
  (DeleteUser [] db id).2 = None.
Proof.
  split; [|done].
  destruct (DeleteUser_cases fl db id) as [-> | [e ->]]; simpl; [|done].
  split_and!.
  - intros k n [_ H]%sqlDelete_lookup_Some. by apply bool_decide_eq_false in H.
  - intros k c [_ H]%sqlDelete_lookup_Some. by apply bool_decide_eq_false in H.
  - intros k x [_ H]%sqlDelete_lookup_Some. by apply bool_decide_eq_false in H.
  - destruct (sqlDelete _ (tUser db) !! id) eqn:Hl; [|done].
    apply sqlDelete_lookup_Some in Hl as [_ H].
    by apply bool_decide_eq_false in H.
Qed.

(** A database with two users; user 1 owns network 10 with channel 100 and
    receipt 1000, user 2 owns network 20 with channel 200. *)
Definition sampleNetwork (owner : Z) (addr : string) : NetworkRow :=
  mkNetworkRow None owner addr (Some "nick") None None None None None None None
               None None true.

Definition sampleChannel (net : Z) (name : string) : ChannelRow :=
  mkChannelRow net name None false None 0 0 0 0.

Definition sampleDB : SqliteDB :=
  mkDB {[ 1 := mkUserRow "alice" (Some "a") false None;
          2 := mkUserRow "bob" (Some "b") false None ]}
       {[ 10 := sampleNetwork 1 "irc.example.org";
          20 := sampleNetwork 2 "irc.example.net" ]}
       {[ 100 := sampleChannel 10 "#soju"; 200 := sampleChannel 20 "#soju" ]}
       {[ 1000 := mkReceiptRow 10 "#soju" None "id1" ]}.

Lemma DeleteUser_cascade_witness :
  let r := DeleteUser [] sampleDB 1 in
  r.2 = None /\
  (forall k n, tNetwork r.1 !! k = Some n -> n_user n <> 1) /\
  tUser r.1 !! 1 = None /\
  tNetwork r.1 !! 20 = Some (sampleNetwork 2 "irc.example.net") /\
  tChannel r.1 !! 100 = None /\
  tDeliveryReceipt r.1 !! 1000 = None /\
  (DeleteUser [false; false; true] sampleDB 1).1 = sampleDB.
Proof.
  pose proof (DeleteUser_cascade [] sampleDB 1) as [H _].
  pose proof (DeleteUser_cascade [false; false; true] sampleDB 1) as [H' _].
  simpl in H, H'. destruct H as (Hn & _ & _ & Hu).
  split_and!; [done|exact Hn|exact Hu|by vm_compute|by vm_compute|by vm_compute|exact H'].
Defined.

(** *** Storing records *)

(** The tables an operation on one table leaves alone. *)
Definition sameButUser (db db' : SqliteDB) : Prop :=
  tNetwork db' = tNetwork db /\ tChannel db' = tChannel db /\
  tDeliveryReceipt db' = tDeliveryReceipt db.

Definition sameButNetwork (db db' : SqliteDB) : Prop :=
  tUser db' = tUser db /\ tChannel db' = tChannel db /\
  tDeliveryReceipt db' = tDeliveryReceipt db.

Definition sameButChannel (db db' : SqliteDB) : Prop :=
  tUser db' = tUser db /\ tNetwork db' = tNetwork db /\
  tDeliveryReceipt db' = tDeliveryReceipt db.


Lemma StoreUser_update fl db user db' user' :
  User.ID user <> 0 ->
  StoreUser fl db user = (db', user', None) ->
  sameButUser db db' /\ user' = user /\
  forall k, tUser db' !! k =
    (fun r => if bool_decide (u_username r = User.Username user)
              then setUser (userRow user) r else r) <$> tUser db !! k.
Proof.
  intros Hid. unfold StoreUser. rewrite bool_decide_eq_true_2 by done.
  destruct (fault 0 fl); [done|]. intros [= <- <-]. simpl.
  split_and!; try done. intros k. apply sqlUpdate_lookup.
Qed.

(** With distinct usernames, and a record whose username is that of the row
    with its id, the UPDATE by username rewrites exactly that row. *)
Lemma StoreUser_update_own_row fl db user db' user' old :
  User.ID user <> 0 ->
  unique userConflict (tUser db) ->
  tUser db !! User.ID user = Some old ->
  u_username old = User.Username user ->
  StoreUser fl db user = (db', user', None) ->
  tUser db' = <[User.ID user := setUser (userRow user) old]> (tUser db).
Proof.
  intros Hid Huniq Hold Hname Hs.
  destruct (StoreUser_update _ _ _ _ _ Hid Hs) as (_ & _ & Hl).
  apply map_eq. intros k. rewrite Hl.
  destruct (decide (k = User.ID user)) as [->|Hne].
  - rewrite lookup_insert_eq, Hold. simpl. by rewrite bool_decide_eq_true_2.
  - rewrite lookup_insert_ne by done.
    destruct (tUser db !! k) as [r|] eqn:Hr; [|done]. simpl.
    rewrite bool_decide_eq_false_2; [done|]. intros Hn. apply Hne.
    apply (Huniq k (User.ID user) r old); [done|done|].
    unfold userConflict. congruence.
Qed.

Lemma execStoreNetwork_insert fl db network args db' network' :
  Network.ID network = 0 ->
  execStoreNetwork fl db network args = (db', network', None) ->
  sameButNetwork db db' /\
  tNetwork db !! Network.ID network' = None /\
  tNetwork db' = <[Network.ID network' := args]> (tNetwork db) /\
  network' = Network.withID network (Network.ID network').
Proof.
  intros Hid. unfold execStoreNetwork.
  rewrite bool_decide_eq_false_2 by (by rewrite Hid; intros []).
  destruct (fault 0 fl); [done|]. destruct (clashes _ _ _ _); [done|].
  intros [= <- <-]. simpl. split_and!; try done. apply nextRowid_fresh.
Qed.

Lemma execStoreNetwork_update fl db network args db' network' :
  Network.ID network <> 0 ->
  execStoreNetwork fl db network args = (db', network', None) ->
  sameButNetwork db db' /\ network' = network /\
  (forall k, k <> Network.ID network -> tNetwork db' !! k = tNetwork db !! k) /\
  tNetwork db' !! Network.ID network =
    setNetwork args <$> tNetwork db !! Network.ID network.
Proof.
  intros Hid. unfold execStoreNetwork. rewrite bool_decide_eq_true_2 by done.
  destruct (fault 0 fl); [done|].
  destruct (tNetwork db !! Network.ID network) as [old|] eqn:Hold.
  - destruct (clashes _ _ _ _); [done|]. intros [= <- <-]. simpl.
    split_and!; try done.
    + intros k Hk. by apply sqlUpdate_lookup_ne.
    + by rewrite sqlUpdate_lookup_eq, Hold.
  - intros [= <- <-]. by rewrite Hold.
Qed.

(** The record as [StoreNetwork] leaves it, the id apart. *)
Definition storedNetwork (network : Network.t) : Network.t :=
  if String.eqb (SASL.Mechanism (Network.SASL network)) "PLAIN"
  then Network.withSASL network (SASL.clearExternal (Network.SASL network))
  else network.



Lemma StoreChannel_insert fl db networkID c db' c' :
  Channel.ID c = 0 ->
  StoreChannel fl db networkID c = (db', c', None) ->
  sameButChannel db db' /\
  tChannel db !! Channel.ID c' = None /\
  tChannel db' = <[Channel.ID c' := channelRow networkID c]> (tChannel db) /\
  c' = Channel.withID c (Channel.ID c').
Proof.
  intros Hid. unfold StoreChannel.
  rewrite bool_decide_eq_false_2 by (by rewrite Hid; intros []).
  destruct (fault 0 fl); [done|]. destruct (clashes _ _ _ _); [done|].
  intros [= <- <-]. simpl. split_and!; try done. apply nextRowid_fresh.
Qed.

Lemma StoreChannel_update fl db networkID c db' c' :
  Channel.ID c <> 0 ->
  StoreChannel fl db networkID c = (db', c', None) ->
  sameButChannel db db' /\ c' = c /\
  (forall k, k <> Channel.ID c -> tChannel db' !! k = tChannel db !! k) /\
  tChannel db' !! Channel.ID c =
    (fun _ => channelRow networkID c) <$> tChannel db !! Channel.ID c.
Proof.
  intros Hid. unfold StoreChannel. rewrite bool_decide_eq_true_2 by done.
  destruct (fault 0 fl); [done|].
  destruct (tChannel db !! Channel.ID c) as [old|] eqn:Hold.
  - destruct (clashes _ _ _ _); [done|]. intros [= <- <-]. simpl.
    split_and!; try done.
    + intros k Hk. by apply sqlUpdate_lookup_ne.
    + by rewrite sqlUpdate_lookup_eq, Hold.
  - intros [= <- <-]. by rewrite Hold.
Qed.













End database_facts.

(** ** Splitting NAMES replies and JOIN messages *)

Section split_facts.
Import Irc Ircutil Bridge.

Lemma len_append a b : len (a +:+ b) = len a + len b.
Proof.
  unfold len. rewrite <- Nat2Z.inj_add. f_equal.
  induction a as [|x a IH]; simpl; [done|]. by rewrite IH.
Qed.

Lemma len_nonneg s : 0 <= len s.
Proof. unfold len. lia. Qed.

Lemma len_zero s : len s = 0 <-> s = "".
Proof. unfold len. destruct s; simpl; split; try done; lia. Qed.

Lemma append_cons x (a b : string) : String x a +:+ b = String x (a +:+ b).
Proof. reflexivity. Qed.

Lemma append_assoc (a b c : string) : (a +:+ b) +:+ c = a +:+ (b +:+ c).
Proof.
  induction a as [|x a IH]; [done|]. rewrite !append_cons. by f_equal.
Qed.

Lemma append_empty_r (a : string) : a +:+ "" = a.
Proof.
  induction a as [|x a IH]; [done|]. rewrite append_cons. by f_equal.
Qed.

Lemma concat_snoc sep (l : list string) x :
  l <> [] -> String.concat sep (l ++ [x]) = String.concat sep l +:+ sep +:+ x.
Proof.
  induction l as [|a l IH]; [done|]. intros _.
  destruct l as [|b l]; [done|].
  change (String.concat sep ((a :: b :: l) ++ [x]))
    with (a +:+ sep +:+ String.concat sep ((b :: l) ++ [x])).
  rewrite IH by done.
  change (String.concat sep (a :: b :: l))
    with (a +:+ sep +:+ String.concat sep (b :: l)).
  by rewrite !append_assoc.
Qed.

(** A list of non-empty strings joins to the empty string only if it is
    empty. *)
Lemma concat_empty sep (l : list string) :
  Forall (fun x => x <> "") l -> String.concat sep l = "" -> l = [].
Proof.
  destruct l as [|a l]; [done|]. intros [Ha _]%Forall_cons.
  destruct l as [|b l]; simpl; [done|]. by destruct a.
Qed.

(** *** NAMES *)

Section names.
Context (dc : downstreamConn) (c : upstreamChannel).

Let downstreamName : string := marshalEntity dc (Name c).
Let maxLength : Z := namesMaxLength dc c.

(** The reply that carries a group of members. *)
Definition namesOf (g : list (string * Memberships)) : string :=
  String.concat " " (map (nameEntry dc) g).

Definition groupReply (g : list (string * Memberships)) : Message.t :=
  namReply dc c (marshalEntity dc (Name c)) (namesOf g).

(** A reply is never longer than the empty reply plus its names. *)
Lemma namReply_length names :
  len (Message.String (namReply dc c downstreamName names))
  <= len (Message.String (namReply dc c downstreamName "")) + len names.
Proof.
  unfold Message.String, namReply. simpl.
  rewrite !len_append.
  destruct (Message.needsColon names);
    change (len " :") with 2; change (len "") with 0; change (len " ") with 1; lia.
Qed.

Lemma groupReply_fits g :
  len (namesOf g) <= maxLength -> len (Message.String (groupReply g)) <= 512.
Proof.
  intros Hfit. pose proof (namReply_length (namesOf g)) as Hle.
  unfold maxLength, namesMaxLength, MaxMessageLen in Hfit.
  unfold groupReply. fold downstreamName in Hfit |- *. lia.
Qed.

(** A group is within bounds when it holds one member or fits. *)
Definition namesGroupOk (g : list (string * Memberships)) : Prop :=
  length g = 1%nat \/ len (namesOf g) <= maxLength.

(** The state of the loop after the members [done ++ cur]: the groups
    [done] are sent, the group [cur] is in the buffer. *)
Definition namesInv (st : list Message.t * string)
    (done : list (list (string * Memberships)))
    (cur : list (string * Memberships)) : Prop :=
  st.1 = map groupReply done /\ st.2 = namesOf cur /\
  Forall (fun g => g <> []) done /\ Forall namesGroupOk done /\
  (cur = [] \/ namesGroupOk cur).

Lemma namesOf_empty g :
  Forall (fun m => nameEntry dc m <> "") g -> len (namesOf g) = 0 -> g = [].
Proof.
  intros Hne Hl. apply len_zero in Hl. unfold namesOf in Hl.
  apply concat_empty in Hl; [by destruct g|].
  by apply Forall_fmap.
Qed.

Lemma namesStep_inv st done cur m :
  nameEntry dc m <> "" ->
  Forall (fun m => nameEntry dc m <> "") cur ->
  namesInv st done cur ->
  exists done' cur',
    namesInv (namesStep dc c downstreamName maxLength st m) done' cur' /\
    concat done' ++ cur' = (concat done ++ cur) ++ [m] /\
    Forall (fun m => nameEntry dc m <> "") cur'.
Proof.
  intros Hm Hcur (Hsent & Hbuf & Hne & Hok & Hc).
  destruct st as [sent buf]. simpl in Hsent, Hbuf. subst sent buf.
  unfold namesStep.
  destruct (len (namesOf cur) =? 0) eqn:Hz.
  - apply Z.eqb_eq in Hz. apply namesOf_empty in Hz as ->; [|done].
    simpl. exists done, [m]. split_and!.
    + split_and!; simpl; try done. right. by left.
    + by rewrite app_nil_r.
    + by constructor.
  - apply Z.eqb_neq in Hz.
    assert (cur <> []) as Hcne by (by intros ->).
    destruct Hc as [->|Hc]; [done|]. simpl negb. simpl andb.
    destruct (maxLength <? _) eqn:Hn.
    + exists (done ++ [cur]), [m]. split_and!.
      * split_and!; simpl.
        -- by rewrite map_app.
        -- done.
        -- apply Forall_app. by split; [|constructor].
        -- apply Forall_app. by split; [|constructor].
        -- right. by left.
      * rewrite concat_app. simpl. by rewrite app_nil_r.
      * by constructor.
    + apply Z.ltb_ge in Hn.
      replace (if negb (len (namesOf cur) =? 0) then namesOf cur +:+ " "
               else namesOf cur) with (namesOf cur +:+ " ")
        by (by destruct (len (namesOf cur) =? 0) eqn:Hz'; [apply Z.eqb_eq in Hz'|]).
      assert ((namesOf cur +:+ " ") +:+ nameEntry dc m = namesOf (cur ++ [m])) as Hj.
      { unfold namesOf. rewrite map_app. simpl map.
        rewrite concat_snoc by (by destruct cur). by rewrite append_assoc. }
      exists done, (cur ++ [m]). split_and!.
      * split_and!; simpl; try done. right. right.
        rewrite <- Hj, !len_append. change (len " ") with 1. lia.
      * by rewrite app_assoc.
      * apply Forall_app. by split; [|constructor].
Qed.

Lemma namesLoop_inv members : forall st done cur,
  Forall (fun m => nameEntry dc m <> "") members ->
  Forall (fun m => nameEntry dc m <> "") cur ->
  namesInv st done cur ->
  exists done' cur',
    namesInv (fold_left (namesStep dc c downstreamName maxLength) members st)
             done' cur' /\
    concat done' ++ cur' = (concat done ++ cur) ++ members /\
    Forall (fun m => nameEntry dc m <> "") cur'.
Proof.
  induction members as [|m members IH]; intros st done cur Hms Hcur Hinv.
  - exists done, cur. by rewrite app_nil_r.
  - apply Forall_cons in Hms as [Hm Hms]. simpl.
    destruct (namesStep_inv st done cur m Hm Hcur Hinv)
      as (done1 & cur1 & Hinv1 & Heq1 & Hcur1).
    destruct (IH _ done1 cur1 Hms Hcur1 Hinv1) as (done2 & cur2 & Hinv2 & Heq2 & Hcur2).
    exists done2, cur2. split_and!; [done| |done].
    by rewrite Heq2, Heq1, <- app_assoc.
Qed.

(** Every reply of [sendNames] carries a group of consecutive members, in
    order; a group of two or more fits into 512 bytes. *)
Lemma sendNames_groups members :
  Forall (fun m => nameEntry dc m <> "") members ->
  exists groups,
    concat groups = members /\
    sendNames dc c members =
      map groupReply groups ++
      [Message.mk (srvPrefix dc) RPL_ENDOFNAMES
         [nick dc; downstreamName; "End of /NAMES list"]] /\
    Forall (fun g => g <> [] /\
                     (length g = 1%nat \/ len (Message.String (groupReply g)) <= 512))
           groups.
Proof.
  intros Hms.
  destruct (namesLoop_inv members ([], "") [] [] Hms) as (done & cur & Hinv & Heq & Hcur).
  { constructor. }
  { split_and!; try done; by left. }
  simpl in Heq. destruct Hinv as (Hsent & Hbuf & Hne & Hok & Hc).
  unfold sendNames. fold downstreamName maxLength.
  destruct (fold_left _ members _) as [sent buf]. simpl in Hsent, Hbuf. subst sent buf.
  assert (forall g, namesGroupOk g ->
            length g = 1%nat \/ len (Message.String (groupReply g)) <= 512) as Hbound.
  { intros g [?|?]; [by left | right; by apply groupReply_fits]. }
  destruct (len (namesOf cur) =? 0) eqn:Hz; simpl.
  - apply Z.eqb_eq in Hz. apply namesOf_empty in Hz as ->; [|done].
    rewrite app_nil_r in Heq. exists done. split_and!; [done|done|].
    rewrite Forall_forall in Hne, Hok. apply Forall_forall. intros g Hg.
    split; [by apply Hne | by apply Hbound, Hok].
  - apply Z.eqb_neq in Hz. assert (cur <> []) as Hcne by (by intros ->).
    destruct Hc as [->|Hc]; [done|].
    exists (done ++ [cur]). split_and!.
    + rewrite concat_app. simpl. by rewrite app_nil_r.
    + by rewrite map_app.
    + rewrite Forall_forall in Hne, Hok. apply Forall_app. split.
      * apply Forall_forall. intros g Hg.
        split; [by apply Hne | by apply Hbound, Hok].
      * constructor; [|done]. split; [done | by apply Hbound].
Qed.

End names.

(** *** JOIN *)

Definition joinC (l : list string) : string := String.concat "," l.

(** The keys a group sends: those of its channels that have one. *)
Definition keysOf (g : list (string * string)) : list string :=
  map snd (List.filter hasKey g).

(** The message that carries a group of (channel, key) pairs. *)
Definition groupJoin (g : list (string * string)) : Message.t :=
  joinMessage (joinC (map fst g)) (joinC (keysOf g)).

Definition joinGroupOk (g : list (string * string)) : Prop :=
  length g = 1%nat \/
  len (joinC (map fst g)) + len (joinC (keysOf g)) <= joinMaxLength.

Definition joinInv (st : list Message.t * string * string)
    (done : list (list (string * string))) (cur : list (string * string)) : Prop :=
  st.1.1 = map groupJoin done /\
  st.1.2 = joinC (map fst cur) /\ st.2 = joinC (keysOf cur) /\
  Forall (fun g => g <> []) done /\ Forall joinGroupOk done /\
  (cur = [] \/ joinGroupOk cur).

Definition named (ck : string * string) : Prop := ck.1 <> "".

Lemma hasKey_true ck : hasKey ck = true -> ck.2 <> "".
Proof. unfold hasKey. intros H%negb_true_iff. by apply String.eqb_neq. Qed.

Lemma keysOf_nonempty g : Forall (fun k => k <> "") (keysOf g).
Proof.
  unfold keysOf. apply Forall_fmap, Forall_forall. intros ck Hin.
  apply list_elem_of_In, filter_In in Hin as [_ Hk]. by apply hasKey_true.
Qed.

Lemma keysOf_snoc g ck :
  keysOf (g ++ [ck]) = keysOf g ++ (if hasKey ck then [ck.2] else []).
Proof.
  unfold keysOf. rewrite List.filter_app, map_app. simpl.
  by destruct (hasKey ck).
Qed.

Lemma channels_empty g :
  Forall named g -> len (joinC (map fst g)) = 0 -> g = [].
Proof.
  intros Hn Hl. apply len_zero in Hl. apply concat_empty in Hl.
  - by destruct g.
  - by apply Forall_fmap.
Qed.

Lemma keys_empty g : len (joinC (keysOf g)) = 0 -> keysOf g = [].
Proof.
  intros Hl. apply len_zero in Hl.
  by apply concat_empty in Hl; [|apply keysOf_nonempty].
Qed.

Lemma pos_len s : (0 <? len s) = negb (len s =? 0).
Proof. pose proof (len_nonneg s). destruct (len s =? 0) eqn:Hz; simpl; lia. Qed.

(** Appending one pair to the two buffers of a non-empty group. *)
Lemma join_buffers_snoc cur ck :
  cur <> [] ->
  (joinC (map fst cur) +:+ ",") +:+ ck.1 = joinC (map fst (cur ++ [ck])) /\
  (if hasKey ck
   then (if 0 <? len (joinC (keysOf cur)) then joinC (keysOf cur) +:+ ","
         else joinC (keysOf cur)) +:+ ck.2
   else joinC (keysOf cur)) = joinC (keysOf (cur ++ [ck])).
Proof.
  intros Hne. split.
  - unfold joinC. rewrite map_app. simpl map.
    rewrite concat_snoc by (by destruct cur). by rewrite append_assoc.
  - rewrite keysOf_snoc. destruct (hasKey ck); [|by rewrite app_nil_r].
    rewrite pos_len. destruct (len (joinC (keysOf cur)) =? 0) eqn:Hz; simpl.
    + apply Z.eqb_eq in Hz. apply keys_empty in Hz as Hk. by rewrite Hk.
    + apply Z.eqb_neq in Hz. unfold joinC.
      rewrite concat_snoc by (by intros Hk; rewrite Hk in Hz).
      by rewrite append_assoc.
Qed.

(** The two buffers of a group of one pair. *)
Lemma join_buffers_single ck :
  "" +:+ ck.1 = joinC (map fst [ck]) /\
  (if hasKey ck then "" +:+ ck.2 else "") = joinC (keysOf [ck]).
Proof.
  split; [done|]. unfold keysOf. simpl. by destruct (hasKey ck).
Qed.

Lemma joinStep_inv st done cur ck :
  named ck -> Forall named cur ->
  joinInv st done cur ->
  exists done' cur',
    joinInv (joinStep st ck) done' cur' /\
    concat done' ++ cur' = (concat done ++ cur) ++ [ck] /\
    Forall named cur'.
Proof.
  intros Hck Hcur (Hmsgs & Hcb & Hkb & Hne & Hok & Hc).
  destruct st as [[msgs cb] kb]. simpl in Hmsgs, Hcb, Hkb. subst msgs cb kb.
  unfold joinStep. rewrite !pos_len.
  destruct (len (joinC (map fst cur)) =? 0) eqn:Hz.
  - apply Z.eqb_eq in Hz. apply channels_empty in Hz as ->; [|done].
    simpl. destruct (join_buffers_single ck) as [Hb1 Hb2].
    exists done, [ck]. split_and!.
    + split_and!; simpl; try done. right. by left.
    + by rewrite app_nil_r.
    + by constructor.
  - apply Z.eqb_neq in Hz.
    assert (cur <> []) as Hcne by (by intros ->).
    destruct Hc as [->|Hc]; [done|]. simpl negb. simpl andb.
    destruct (joinMaxLength <? _) eqn:Hn.
    + destruct (join_buffers_single ck) as [Hb1 Hb2].
      exists (done ++ [cur]), [ck]. split_and!.
      * split_and!; simpl.
        -- by rewrite map_app.
        -- done.
        -- done.
        -- apply Forall_app. by split; [|constructor].
        -- apply Forall_app. by split; [|constructor].
        -- right. by left.
      * rewrite concat_app. simpl. by rewrite app_nil_r.
      * by constructor.
    + apply Z.ltb_ge in Hn.
      destruct (join_buffers_snoc cur ck Hcne) as [Hb1 Hb2].
      assert ((0 <? len (joinC (map fst cur))) = true) as Hpos.
      { pose proof (len_nonneg (joinC (map fst cur))). lia. }
      rewrite Hpos, Hb1, Hb2.
      exists done, (cur ++ [ck]). split_and!.
      * split_and!; simpl; try done. right. right.
        rewrite <- Hb1, <- Hb2.
        destruct (hasKey ck);
          [destruct (0 <? len (joinC (keysOf cur)))|];
          rewrite ?len_append; change (len ",") with 1;
          pose proof (len_nonneg ck.1); pose proof (len_nonneg ck.2);
          pose proof (len_nonneg (joinC (keysOf cur))); lia.
      * by rewrite app_assoc.
      * apply Forall_app. by split; [|constructor].
Qed.

Lemma joinLoop_inv pairs : forall st done cur,
  Forall named pairs -> Forall named cur ->
  joinInv st done cur ->
  exists done' cur',
    joinInv (fold_left joinStep pairs st) done' cur' /\
    concat done' ++ cur' = (concat done ++ cur) ++ pairs /\
    Forall named cur'.
Proof.
  induction pairs as [|ck pairs IH]; intros st done cur Hps Hcur Hinv.
  - exists done, cur. by rewrite app_nil_r.
  - apply Forall_cons in Hps as [Hck Hps]. simpl.
    destruct (joinStep_inv st done cur ck Hck Hcur Hinv)
      as (done1 & cur1 & Hinv1 & Heq1 & Hcur1).
    destruct (IH _ done1 cur1 Hps Hcur1 Hinv1) as (done2 & cur2 & Hinv2 & Heq2 & Hcur2).
    exists done2, cur2. split_and!; [done| |done].
    by rewrite Heq2, Heq1, <- app_assoc.
Qed.

(** The messages of [joinSorted] carry groups of consecutive pairs. *)
Lemma joinSorted_groups sorted :
  Forall named sorted ->
  exists groups,
    concat groups = sorted /\
    joinSorted sorted = map groupJoin groups /\
    Forall (fun g => g <> [] /\ joinGroupOk g) groups.
Proof.
  intros Hps.
  destruct (joinLoop_inv sorted ([], "", "") [] [] Hps) as (done & cur & Hinv & Heq & Hcur).
  { constructor. }
  { split_and!; try done; by left. }
  simpl in Heq. destruct Hinv as (Hmsgs & Hcb & Hkb & Hne & Hok & Hc).
  unfold joinSorted.
  destruct (fold_left joinStep sorted _) as [[msgs cb] kb].
  simpl in Hmsgs, Hcb, Hkb. subst msgs cb kb.
  rewrite pos_len. destruct (len (joinC (map fst cur)) =? 0) eqn:Hz; simpl.
  - apply Z.eqb_eq in Hz. apply channels_empty in Hz as ->; [|done].
    rewrite app_nil_r in Heq. exists done. split_and!; [done|done|].
    rewrite Forall_forall in Hne, Hok. apply Forall_forall. intros g Hg.
    split; [by apply Hne | by apply Hok].
  - apply Z.eqb_neq in Hz. assert (cur <> []) as Hcne by (by intros ->).
    destruct Hc as [->|Hc]; [done|].
    exists (done ++ [cur]). split_and!.
    + rewrite concat_app. simpl. by rewrite app_nil_r.
    + by rewrite map_app.
    + rewrite Forall_forall in Hne, Hok. apply Forall_app. split.
      * apply Forall_forall. intros g Hg. split; [by apply Hne | by apply Hok].
      * by constructor.
Qed.

(** A key that the message writer leaves as it is: no space, no leading
    colon. *)
Definition plainKey (k : string) : Prop :=
  Message.containsSpace k = false /\ Message.startsWithColon k = false.

Lemma containsSpace_append a b :
  Message.containsSpace (a +:+ b) = Message.containsSpace a || Message.containsSpace b.
Proof.
  unfold Message.containsSpace. induction a as [|x a IH]; [done|].
  rewrite append_cons. simpl. by rewrite IH, orb_assoc.
Qed.

Lemma startsWithColon_append a b :
  a <> "" -> Message.startsWithColon (a +:+ b) = Message.startsWithColon a.
Proof. by destruct a. Qed.

Lemma joinC_cons k ks :
  joinC (k :: ks) = match ks with [] => k | _ :: _ => k +:+ "," +:+ joinC ks end.
Proof. by destruct ks. Qed.

Lemma containsSpace_joinC ks :
  Forall plainKey ks -> Message.containsSpace (joinC ks) = false.
Proof.
  induction 1 as [|k ks [Hk _] _ IH]; [done|].
  rewrite joinC_cons. destruct ks as [|k2 ks]; [done|].
  by rewrite !containsSpace_append, Hk, IH.
Qed.

Lemma needsColon_joinC ks :
  ks <> [] -> Forall (fun k => k <> "") ks -> Forall plainKey ks ->
  Message.needsColon (joinC ks) = false.
Proof.
  intros Hne Hnon Hplain. unfold Message.needsColon.
  rewrite (containsSpace_joinC ks Hplain).
  destruct ks as [|k ks]; [done|].
  apply Forall_cons in Hnon as [Hk _]. apply Forall_cons in Hplain as [[_ Hc] _].
  rewrite joinC_cons.
  assert (Message.startsWithColon
            match ks with [] => k | _ :: _ => k +:+ "," +:+ joinC ks end = false) as ->.
  { destruct ks; [done|]. by rewrite startsWithColon_append. }
  rewrite !orb_false_r. apply Nat.eqb_neq.
  destruct ks; destruct k; done.
Qed.

(** A group within the bound of the loop is a message of at most 512
    bytes. *)
Lemma groupJoin_fits g :
  Forall (fun ck : string * string => plainKey ck.2) g ->
  len (joinC (map fst g)) + len (joinC (keysOf g)) <= joinMaxLength ->
  len (Message.String (groupJoin g)) <= 512.
Proof.
  intros Hplain Hfit. unfold joinMaxLength, MaxMessageLen in Hfit.
  change (len "JOIN") with 4 in Hfit.
  unfold groupJoin, joinMessage, Message.String. simpl Message.Prefix.
  simpl Message.Command. simpl Message.Params.
  rewrite pos_len.
  destruct (len (joinC (keysOf g)) =? 0) eqn:Hz; simpl.
  - apply Z.eqb_eq in Hz. rewrite !len_append.
    change (len "") with 0. change (len "JOIN") with 4.
    destruct (Message.needsColon _);
      change (len " :") with 2; change (len " ") with 1; lia.
  - apply Z.eqb_neq in Hz.
    rewrite needsColon_joinC.
    + rewrite !len_append. change (len "") with 0. change (len "JOIN") with 4.
      change (len " ") with 1. lia.
    + intros Hk. by rewrite Hk in Hz.
    + apply keysOf_nonempty.
    + unfold keysOf. apply Forall_fmap, Forall_forall. intros ck Hin.
      apply list_elem_of_In, filter_In in Hin as [Hin _].
      rewrite Forall_forall in Hplain. by apply Hplain, list_elem_of_In.
Qed.

(** Channels with a key stand before channels without. *)
Definition keyOrder (a b : string * string) : Prop :=
  hasKey b = true -> hasKey a = true.


#[local] Instance keyOrder_trans : Transitive keyOrder.
Proof. unfold keyOrder. intros a b c Hab Hbc Hc. auto. Qed.

#[local] Instance joinLe_total : Total joinLe.
Proof.
  intros a b. unfold joinLe, joinLess.
  destruct (hasKey a), (hasKey b); simpl; try (by left); try (by right).
  all: unfold String.ltb; rewrite (String.compare_antisym a.1 b.1);
    destruct (String.compare b.1 a.1); simpl; by (left + right).
Qed.




Definition endOfNames (dc : downstreamConn) (c : upstreamChannel) : Message.t :=
  Message.mk (srvPrefix dc) RPL_ENDOFNAMES
    [nick dc; marshalEntity dc (Name c); "End of /NAMES list"].



Definition sampleDownstream : downstreamConn :=
  mkDownstreamConn "me" ∅ (Some (Prefix.mk "soju.example.org" "" ""))
    (fun name => name +:+ "/libera").





End split_facts.

(** * Further properties *)

(** ** The persistence store: deletions *)

Section database_delete_facts.
Import Database.

Lemma transaction_failure fl db stmts db' e :
  transaction fl db stmts = (db', Some e) -> db' = db.
Proof.
  unfold transaction. destruct (fault 0 fl); [by intros [= <- _]|].
  destruct (runTx fl 1 stmts db); [by intros [= <- _]|].
  destruct (fault _ fl); [by intros [= <- _]|done].
Qed.

(** The database after the three DELETE statements of [DeleteNetwork]. *)
Definition deleteNetworkRows (db : SqliteDB) (id : Z) : SqliteDB :=
  mkDB (tUser db)
       (sqlDelete (fun k _ => bool_decide (k = id)) (tNetwork db))
       (sqlDelete (fun _ c => bool_decide (c_network c = id)) (tChannel db))
       (sqlDelete (fun _ r => bool_decide (r_network r = id)) (tDeliveryReceipt db)).

Lemma DeleteNetwork_cases fl db id :
  DeleteNetwork fl db id = (deleteNetworkRows db id, None) \/
  exists e, DeleteNetwork fl db id = (db, Some e).
Proof.
  unfold DeleteNetwork, transaction. simpl.
  repeat (match goal with
          | |- context [if fault ?n fl then _ else _] => destruct (fault n fl)
          end; simpl; [by right; eexists|]).
  by left.
Qed.

Lemma sqlDelete_decide {A} (P : Z -> A -> Prop) `{!forall k r, Decision (P k r)}
    (m : gmap Z A) k r :
  sqlDelete (fun k r => bool_decide (P k r)) m !! k = Some r <->
  m !! k = Some r /\ ~ P k r.
Proof. by rewrite sqlDelete_lookup_Some, bool_decide_eq_false. Qed.

(** X1: a successful [DeleteNetwork id] removes the network row [id], the
    channels and the delivery receipts that refer to it, and nothing else;
    a failed one leaves the database as it was. *)
Theorem DeleteNetwork_exact (fl : faults) (db : SqliteDB) (id : Z) :
  let r := DeleteNetwork fl db id in
  match r.2 with
  | None =>
      tUser r.1 = tUser db /\
      (forall k n, tNetwork r.1 !! k = Some n <->
                   tNetwork db !! k = Some n /\ k <> id) /\
      (forall k c, tChannel r.1 !! k = Some c <->
                   tChannel db !! k = Some c /\ c_network c <> id) /\
      (forall k x, tDeliveryReceipt r.1 !! k = Some x <->
                   tDeliveryReceipt db !! k = Some x /\ r_network x <> id)
  | Some _ => r.1 = db
  end.
Proof.
  destruct (DeleteNetwork_cases fl db id) as [-> | [e ->]]; simpl; [|done].
  split_and!; [done| | |]; intros k x.
  - apply (sqlDelete_decide (fun k _ => k = id)).
  - apply (sqlDelete_decide (fun _ c => c_network c = id)).
  - apply (sqlDelete_decide (fun _ r => r_network r = id)).
Qed.

(** X2: a successful [DeleteUser id] removes exactly the user row [id], the
    networks of that user and the channels and receipts of those networks:
    every other row is still there, unchanged. *)
Theorem DeleteUser_exact (fl : faults) (db : SqliteDB) (id : Z) :
  let r := DeleteUser fl db id in
  r.2 = None ->
  (forall k u, tUser r.1 !! k = Some u <-> tUser db !! k = Some u /\ k <> id) /\
  (forall k n, tNetwork r.1 !! k = Some n <->
               tNetwork db !! k = Some n /\ n_user n <> id) /\
  (forall k c, tChannel r.1 !! k = Some c <->
               tChannel db !! k = Some c /\
               ~ ownedBy (tNetwork db) id (c_network c)) /\
  (forall k x, tDeliveryReceipt r.1 !! k = Some x <->
               tDeliveryReceipt db !! k = Some x /\
               ~ ownedBy (tNetwork db) id (r_network x)).
Proof.
  destruct (DeleteUser_cases fl db id) as [-> | [e ->]]; simpl; [|done].
  intros _. split_and!; intros k x.
  - apply (sqlDelete_decide (fun k _ => k = id)).
  - apply (sqlDelete_decide (fun _ n => n_user n = id)).
  - apply (sqlDelete_decide (fun _ c => ownedBy (tNetwork db) id (c_network c))).
  - apply (sqlDelete_decide (fun _ r => ownedBy (tNetwork db) id (r_network r))).
Qed.

Lemma DeleteUser_exact_witness :
  let r := DeleteUser [] sampleDB 1 in
  tUser r.1 !! 2 = Some (mkUserRow "bob" (Some "b") false None) /\
  tChannel r.1 !! 200 = Some (sampleChannel 20 "#soju") /\
  tChannel r.1 !! 100 = None.
Proof.
  destruct (DeleteUser_exact [] sampleDB 1 eq_refl) as (Hu & _ & Hc & _).
  split_and!.
  - apply Hu. by vm_compute.
  - apply Hc. split; [by vm_compute|]. by vm_compute.
  - destruct (tChannel (DeleteUser [] sampleDB 1).1 !! 100) eqn:Hl; [|done].
    apply Hc in Hl as [Hl Hown]. vm_compute in Hl. injection Hl as <-.
    destruct Hown. by vm_compute.
Defined.

(** Every network has its user, every channel and receipt its network. *)
Definition noOrphans (db : SqliteDB) : Prop :=
  (forall k n, tNetwork db !! k = Some n -> is_Some (tUser db !! n_user n)) /\
  (forall k c, tChannel db !! k = Some c -> is_Some (tNetwork db !! c_network c)) /\
  (forall k x, tDeliveryReceipt db !! k = Some x ->
               is_Some (tNetwork db !! r_network x)).

Lemma not_owned_kept db id netID :
  is_Some (tNetwork db !! netID) -> ~ ownedBy (tNetwork db) id netID ->
  is_Some (sqlDelete (fun _ n => bool_decide (n_user n = id)) (tNetwork db) !! netID).
Proof.
  intros [n Hn] Hown. exists n.
  apply (sqlDelete_decide (fun _ n => n_user n = id)). split; [done|].
  intros Hu. apply Hown. unfold ownedBy. by rewrite Hn, <- Hu.
Qed.

(** X3: [DeleteUser] and [DeleteNetwork] keep the database free of orphans,
    whether they succeed or fail. *)
Theorem delete_keeps_noOrphans (fl : faults) (db : SqliteDB) (id : Z) :
  noOrphans db ->
  noOrphans (DeleteUser fl db id).1 /\ noOrphans (DeleteNetwork fl db id).1.
Proof.
  intros (Hn & Hc & Hr). split.
  - destruct (DeleteUser_cases fl db id) as [-> | [e ->]]; simpl; [|done].
    split_and!; simpl.
    + intros k n [Hk Hu]%(sqlDelete_decide (fun _ n => n_user n = id)).
      destruct (Hn k n Hk) as [u Hu']. exists u.
      apply (sqlDelete_decide (fun k _ => k = id)). by split.
    + intros k c [Hk Ho]%(sqlDelete_decide
        (fun _ c => ownedBy (tNetwork db) id (c_network c))).
      apply not_owned_kept; [by eapply Hc | done].
    + intros k x [Hk Ho]%(sqlDelete_decide
        (fun _ r => ownedBy (tNetwork db) id (r_network r))).
      apply not_owned_kept; [by eapply Hr | done].
  - destruct (DeleteNetwork_cases fl db id) as [-> | [e ->]]; simpl; [|done].
    split_and!; simpl.
    + intros k n [Hk _]%(sqlDelete_decide (fun k _ => k = id)). by eapply Hn.
    + intros k c [Hk Hne]%(sqlDelete_decide (fun _ c => c_network c = id)).
      destruct (Hc k c Hk) as [n Hn']. exists n.
      apply (sqlDelete_decide (fun k _ => k = id)). by split.
    + intros k x [Hk Hne]%(sqlDelete_decide (fun _ r => r_network r = id)).
      destruct (Hr k x Hk) as [n Hn']. exists n.
      apply (sqlDelete_decide (fun k _ => k = id)). by split.
Qed.

Lemma noOrphans_sampleDB : noOrphans sampleDB.
Proof.
  unfold noOrphans, sampleDB. simpl. split_and!; intros k x.
  - intros [[<- <-]|[_ [<- <-]%lookup_singleton_Some]]%lookup_insert_Some;
      vm_compute; by eexists.
  - intros [[<- <-]|[_ [<- <-]%lookup_singleton_Some]]%lookup_insert_Some;
      vm_compute; by eexists.
  - intros [<- <-]%lookup_singleton_Some. vm_compute. by eexists.
Qed.

Lemma delete_keeps_noOrphans_witness :
  noOrphans (DeleteUser [] sampleDB 1).1 /\
  noOrphans (DeleteNetwork [false; false; true] sampleDB 10).1.
Proof.
  split.
  - apply (delete_keeps_noOrphans [] sampleDB 1 noOrphans_sampleDB).
  - apply (delete_keeps_noOrphans [false; false; true] sampleDB 10
             noOrphans_sampleDB).
Defined.

End database_delete_facts.

(** ** The persistence store: what is stored is read back *)

Section database_roundtrip_facts.
Import Database.

Lemma fault_nil n : fault n [] = false.
Proof. by destruct n. Qed.

Lemma fromNullString_toNullString s : fromNullString (toNullString s) = s.
Proof.
  unfold toNullString. destruct (String.eqb s "") eqn:He; [|done].
  by apply String.eqb_eq in He as ->.
Qed.

Lemma clashes_false {A} (conflict : A -> A -> Prop)
    `{!forall a b, Decision (conflict a b)} (m : gmap Z A) k r :
  clashes conflict m k r = false ->
  forall k' r', m !! k' = Some r' -> k' <> k -> ~ conflict r r'.
Proof.
  unfold clashes. intros Hcl%bool_decide_eq_false. apply dec_stable in Hcl.
  intros k' r' Hl Hne. by destruct (Hcl k' r' Hl).
Qed.

(** The rows with a given username, when exactly the row [k] has it. *)
Lemma filter_username_single (m : gmap Z UserRow) k r username :
  m !! k = Some r -> u_username r = username ->
  (forall k' r', m !! k' = Some r' -> k' <> k -> u_username r' <> username) ->
  filter (fun kr : Z * UserRow => u_username kr.2 = username) m = {[k := r]}.
Proof.
  intros Hk Hname Hother. apply map_eq. intros i.
  destruct (decide (i = k)) as [->|Hne].
  - rewrite lookup_singleton_eq. by apply map_lookup_filter_Some.
  - rewrite lookup_singleton_ne by done. apply map_lookup_filter_None.
    right. intros r' Hr' Hn. by apply (Hother i r').
Qed.

Lemma GetUser_single db k r :
  tUser db !! k = Some r ->
  (forall k' r', tUser db !! k' = Some r' -> k' <> k ->
                 u_username r' <> u_username r) ->
  GetUser [] db (u_username r) = (Some (userOfRow k r), None).
Proof.
  intros Hk Hother. unfold GetUser. simpl.
  by rewrite (filter_username_single _ k r (u_username r) Hk eq_refl Hother),
    map_to_list_singleton.
Qed.

Lemma userOfRow_userRow id user :
  userOfRow id (userRow user) = User.withID user id.
Proof.
  unfold userOfRow, userRow, User.withID. simpl.
  by rewrite !fromNullString_toNullString.
Qed.

(** X4: a user stored by a successful inserting [StoreUser] is read back by
    [GetUser] under its username, with the id that was written into the
    record; a successful update of the row that carries the record's
    username is read back with the record's fields and the id of that row. *)
Theorem StoreUser_GetUser (fl : faults) (db db' : SqliteDB) (user user' : User.t) :
  StoreUser fl db user = (db', user', None) ->
  (User.ID user = 0 ->
     GetUser [] db' (User.Username user) = (Some user', None)) /\
  (forall k old,
     User.ID user <> 0 ->
     unique userConflict (tUser db) ->
     tUser db !! k = Some old -> u_username old = User.Username user ->
     GetUser [] db' (User.Username user) = (Some (User.withID user k), None)).
Proof.
  intros Hs. split.
  - intros Hid. unfold StoreUser in Hs.
    rewrite bool_decide_eq_false_2 in Hs by (by rewrite Hid; intros []).
    destruct (fault 0 fl); [done|].
    destruct (clashes _ _ _ _) eqn:Hcl; [done|].
    injection Hs as <- <-. set (id := nextRowid (tUser db)).
    rewrite <- userOfRow_userRow.
    apply (GetUser_single _ id (userRow user)); simpl.
    + apply lookup_insert_eq.
    + intros k' r' Hl Hne. rewrite lookup_insert_ne in Hl by done.
      intros Heq. by apply (clashes_false _ _ _ _ Hcl k' r' Hl Hne).
  - intros k old Hid Huniq Hold Hname.
    destruct (StoreUser_update _ _ _ _ _ Hid Hs) as (_ & _ & Hl).
    set (new := setUser (userRow user) old).
    assert (u_username new = User.Username user) as Hn by done.
    assert (userOfRow k new = User.withID user k) as <-.
    { unfold userOfRow, new, setUser, User.withID. simpl.
      by rewrite Hname, !fromNullString_toNullString. }
    rewrite <- Hn. apply GetUser_single.
    + rewrite Hl, Hold. simpl. by rewrite bool_decide_eq_true_2.
    + intros k' r'. rewrite Hl. destruct (tUser db !! k') as [r0|] eqn:Hr0; [|done].
      simpl. intros [= <-] Hne Heq. apply Hne.
      apply (Huniq k' k r0 old Hr0 Hold). unfold userConflict.
      case_bool_decide as Hu; [congruence|done].
Qed.

Lemma StoreUser_GetUser_witness :
  GetUser [] (StoreUser [] sampleDB (User.mk 0 "carol" "c" true "Carol")).1.1 "carol"
    = (Some (User.mk 3 "carol" "c" true "Carol"), None).
Proof.
  destruct (StoreUser [] sampleDB (User.mk 0 "carol" "c" true "Carol"))
    as [[db' user'] err] eqn:Hs.
  assert (err = None /\ user' = User.mk 3 "carol" "c" true "Carol") as [-> <-].
  { by vm_compute in Hs; injection Hs as _ <- <-. }
  by destruct (StoreUser_GetUser _ _ _ _ _ Hs) as [H _]; apply H.
Defined.

Lemma unique_users_sampleDB : unique userConflict (tUser sampleDB).
Proof.
  intros k1 k2 r1 r2. unfold sampleDB. simpl.
  intros [[<- <-]|[_ [<- <-]%lookup_singleton_Some]]%lookup_insert_Some
         [[<- <-]|[_ [<- <-]%lookup_singleton_Some]]%lookup_insert_Some;
    unfold userConflict; simpl; congruence.
Qed.

(** X5: [sojuctl change-password] for a non-empty name of an existing
    user, in a table with distinct usernames and no failure of the driver,
    replaces the password
    of that user's row (an empty realname is written back as NULL) and
    changes no other row; the user is then read back with the new
    password. *)
Theorem changePassword_effect (db : SqliteDB) (username hashed : string)
    (k : Z) (old : UserRow) :
  username <> "" -> unique userConflict (tUser db) ->
  tUser db !! k = Some old -> u_username old = username -> k <> 0 ->
  let new := mkUserRow username (toNullString hashed) (u_admin old)
                       (toNullString (fromNullString (u_realname old))) in
  let r := changePassword [] [] db username hashed in
  r.2 = None /\
  tUser r.1 = <[k := new]> (tUser db) /\
  sameButUser db r.1 /\
  GetUser [] r.1 username = (Some (userOfRow k new), None).
Proof.
  intros Hnonempty Huniq Hold Hname Hk new r.
  assert (GetUser [] db username = (Some (userOfRow k old), None)) as Hget.
  { rewrite <- Hname. apply GetUser_single; [done|].
    intros k' r' Hr' Hne Heq. apply Hne. by apply (Huniq k' k r' old). }
  set (user' := User.mk k (u_username old) hashed (u_admin old)
                        (fromNullString (u_realname old))).
  assert (setUser (userRow user') old = new) as Hnew.
  { unfold setUser, userRow, new, user'. simpl. by rewrite Hname. }
  subst r. unfold changePassword.
  rewrite (proj2 (String.eqb_neq username "")) by done. rewrite Hget. simpl.
  fold user'.
  destruct (StoreUser [] db user') as [[db' u''] err] eqn:Hs.
  assert (err = None) as ->.
  { unfold StoreUser in Hs. rewrite bool_decide_eq_true_2 in Hs by done.
    simpl in Hs. by injection Hs as _ _ <-. }
  simpl.
  destruct (StoreUser_update [] db user' db' u'' Hk Hs) as (Hsame & _ & _).
  pose proof (StoreUser_update_own_row [] db user' db' u'' old Hk Huniq Hold
                ltac:(done) Hs) as Hrow.
  rewrite Hnew in Hrow.
  split_and!; [done|done|done|].
  assert (username = u_username new) as Hun by done.
  rewrite Hun at 1. apply GetUser_single.
  - rewrite Hrow. apply lookup_insert_eq.
  - intros k' r'. rewrite Hrow. intros Hl Hne. rewrite lookup_insert_ne in Hl by done.
    intros Heq. apply Hne. apply (Huniq k' k r' old Hl Hold).
    unfold userConflict. by rewrite Heq, Hname.
Qed.

Lemma changePassword_effect_witness :
  let r := changePassword [] [] sampleDB "bob" "x" in
  r.2 = None /\
  tUser r.1 = <[2 := mkUserRow "bob" (Some "x") false None]> (tUser sampleDB) /\
  GetUser [] r.1 "bob" = (Some (User.mk 2 "bob" "x" false ""), None).
Proof.
  destruct (changePassword_effect sampleDB "bob" "x" 2
              (mkUserRow "bob" (Some "b") false None) ltac:(done)
              unique_users_sampleDB ltac:(by vm_compute) ltac:(reflexivity)
              ltac:(lia)) as (He & Hu & _ & Hg).
  split_and!; [exact He|exact Hu|exact Hg].
Defined.

(** X23: [sojuctl create-user] with a non-empty name and no failure of the
    driver.  When a user of that name exists the tool dies on the UNIQUE
    constraint and the database is unchanged.  Otherwise one row is added
    under the next id, with the hashed password, the admin flag and no
    realname, no other row and no other table changes, and [GetUser] reads
    the new user back. *)
Theorem createUser_effect (db : SqliteDB) (username : string) (admin : bool)
    (hashed : string) :
  username <> "" ->
  let r := createUser [] db username admin hashed in
  let id := nextRowid (tUser db) in
  ((exists k old, tUser db !! k = Some old /\ u_username old = username) ->
   r = (db, Some (FailedToCreateUser ConstraintError))) /\
  ((forall k old, tUser db !! k = Some old -> u_username old <> username) ->
   r.2 = None /\
   tUser r.1 = <[id := mkUserRow username (toNullString hashed) admin None]>
                 (tUser db) /\
   tUser db !! id = None /\
   sameButUser db r.1 /\
   GetUser [] r.1 username = (Some (User.mk id username hashed admin ""), None)).
Proof.
  intros Hnonempty r id. subst r. unfold createUser, StoreUser.
  rewrite (proj2 (String.eqb_neq username "")) by done.
  rewrite bool_decide_eq_false_2 by (by intros []).
  rewrite fault_nil. fold id. split.
  - intros (k & old & Hold & Hname).
    assert (clashes userConflict (tUser db) id
              (userRow (User.mk 0 username hashed admin "")) = true) as ->; [|done].
    unfold clashes. apply bool_decide_eq_true_2. intros Hall.
    destruct (Hall k old Hold) as [->|Hn].
    + pose proof (nextRowid_fresh (tUser db)) as Hfresh. fold id in Hfresh. congruence.
    + apply Hn. unfold userConflict. simpl. done.
  - intros Hfree.
    assert (clashes userConflict (tUser db) id
              (userRow (User.mk 0 username hashed admin "")) = false) as ->.
    { unfold clashes. apply bool_decide_eq_false_2. intros Hn. apply Hn.
      intros k old Hold. right. unfold userConflict. simpl.
      intros Heq. by apply (Hfree k old Hold). }
    simpl. split_and!; try done.
    + apply nextRowid_fresh.
    + etrans;
        [apply (GetUser_single _ id (userRow (User.mk 0 username hashed admin "")))|].
      * apply lookup_insert_eq.
      * intros k' r' Hl Hne. simpl in Hl. rewrite lookup_insert_ne in Hl by done.
        by apply (Hfree k' r').
      * unfold userOfRow. simpl. by rewrite fromNullString_toNullString.
Qed.

Lemma createUser_effect_witness :
  createUser [] sampleDB "bob" true "x"
    = (sampleDB, Some (FailedToCreateUser ConstraintError)) /\
  GetUser [] (createUser [] sampleDB "carol" true "x").1 "carol"
    = (Some (User.mk 3 "carol" "x" true ""), None).
Proof.
  split.
  - apply (createUser_effect sampleDB "bob" true "x"); [done|].
    exists 2, (mkUserRow "bob" (Some "b") false None). by vm_compute.
  - refine (proj2 (proj2 (proj2 (proj2
      (proj2 (createUser_effect sampleDB "carol" true "x" _) _))))); [done|].
    intros k old. unfold sampleDB. simpl.
    by intros [[<- <-]|[_ [<- <-]%lookup_singleton_Some]]%lookup_insert_Some.
Defined.

Lemma ListUsers_elem db u :
  u ∈ (ListUsers [] db).1 <->
  exists k r, tUser db !! k = Some r /\ u = userOfRow k r.
Proof.
  unfold ListUsers. rewrite !fault_nil. simpl. rewrite list_elem_of_fmap. split.
  - intros ([k r] & -> & Hin). apply elem_of_map_to_list in Hin. by exists k, r.
  - intros (k & r & Hl & ->). exists (k, r). split; [done|].
    by apply elem_of_map_to_list.
Qed.

(** X30: [GetUser] and [ListUsers] agree.  A user that [GetUser] returns
    for a name has that name and is one of the users [ListUsers] returns;
    [GetUser] finds no row exactly for the names that no listed user has;
    and when the usernames of the table are distinct, [GetUser] with the
    name of a listed user returns that very user. *)
Theorem ListUsers_GetUser (db : SqliteDB) :
  (forall name u, GetUser [] db name = (Some u, None) ->
     User.Username u = name /\ u ∈ (ListUsers [] db).1) /\
  (forall name, GetUser [] db name = (None, Some ErrNoRows) <->
     forall u, u ∈ (ListUsers [] db).1 -> User.Username u <> name) /\
  (unique userConflict (tUser db) ->
   forall u, u ∈ (ListUsers [] db).1 ->
     GetUser [] db (User.Username u) = (Some u, None)).
Proof.
  split_and!.
  - intros name u. unfold GetUser. rewrite fault_nil.
    destruct (map_to_list _) as [|[id r] l] eqn:Hl; [done|].
    intros [= <-]. split; [done|].
    assert ((id, r) ∈ map_to_list
              (filter (fun kr : Z * UserRow => u_username kr.2 = name) (tUser db)))
      as Hin by (rewrite Hl; left).
    apply elem_of_map_to_list, map_lookup_filter_Some in Hin as [Hr Hn].
    apply ListUsers_elem. exists id, r. split; [done|].
    unfold userOfRow. simpl in Hn. by rewrite Hn.
  - intros name. unfold GetUser. rewrite fault_nil. split.
    + destruct (map_to_list _) as [|[id r] l] eqn:Hl; [|done]. intros _.
      apply map_to_list_empty_iff in Hl.
      intros u (k & r & Hr & ->)%ListUsers_elem. simpl. intros Hn.
      assert (filter (fun kr : Z * UserRow => u_username kr.2 = name) (tUser db)
                !! k = Some r) as Hf by (by apply map_lookup_filter_Some).
      by rewrite Hl in Hf.
    + intros Hnone.
      destruct (map_to_list _) as [|[id r] l] eqn:Hl; [done|]. exfalso.
      assert ((id, r) ∈ map_to_list
                (filter (fun kr : Z * UserRow => u_username kr.2 = name) (tUser db)))
        as Hin by (rewrite Hl; left).
      apply elem_of_map_to_list, map_lookup_filter_Some in Hin as [Hr Hn].
      apply (Hnone (userOfRow id r)); [|done].
      apply ListUsers_elem. by exists id, r.
  - intros Huniq u (k & r & Hr & ->)%ListUsers_elem. simpl.
    apply GetUser_single; [done|].
    intros k' r' Hr' Hne Heq. apply Hne. by apply (Huniq k' k r' r).
Qed.

Lemma ListUsers_GetUser_witness :
  User.mk 2 "bob" "b" false "" ∈ (ListUsers [] sampleDB).1 /\
  GetUser [] sampleDB "bob" = (Some (User.mk 2 "bob" "b" false ""), None).
Proof.
  assert (User.mk 2 "bob" "b" false "" ∈ (ListUsers [] sampleDB).1) as Hin.
  { apply ListUsers_elem. exists 2, (mkUserRow "bob" (Some "b") false None).
    split; by vm_compute. }
  split; [done|].
  exact (proj2 (proj2 (ListUsers_GetUser sampleDB)) unique_users_sampleDB _ Hin).
Defined.

End database_roundtrip_facts.

(** ** Delivery receipts *)

Section database_receipt_facts.
Import Database.

Definition sameButReceipts (db db' : SqliteDB) : Prop :=
  tUser db' = tUser db /\ tNetwork db' = tNetwork db /\ tChannel db' = tChannel db.

(** The rows that the DELETE of [StoreClientDeliveryReceipts] selects. *)
Definition ofClient (networkID : Z) (client : string) (r : ReceiptRow) : Prop :=
  r_network r = networkID /\ r_client r = toNullString client.

Lemma insertReceipts_ok fl networkID client receipts :
  forall n tx receipts' tx',
  insertReceipts fl n networkID client receipts tx = (receipts', inr tx') ->
  sameButReceipts tx tx' /\
  Forall2 (fun r r' => r' = DeliveryReceipt.withID r (DeliveryReceipt.ID r'))
          receipts receipts' /\
  NoDup (map DeliveryReceipt.ID receipts') /\
  Forall (fun r' => tDeliveryReceipt tx !! DeliveryReceipt.ID r' = None) receipts' /\
  (forall k row, tDeliveryReceipt tx' !! k = Some row <->
     (exists r', r' ∈ receipts' /\ DeliveryReceipt.ID r' = k /\
                 row = receiptRow networkID client r') \/
     tDeliveryReceipt tx !! k = Some row).
Proof.
  induction receipts as [|rcpt rest IH]; intros n tx receipts' tx'; simpl.
  - intros [= <- <-]. split_and!; try (by constructor).
    intros k row. split; [by right|].
    intros [(r' & Hin & _)|Hl]; [|done]. by apply elem_of_nil in Hin.
  - destruct (fault n fl); [done|].
    destruct (clashes _ _ _ _) eqn:Hcl; [done|].
    destruct (insertReceipts _ _ _ _ _ _) as [rest' r] eqn:Hrec.
    intros [= <- ->].
    destruct (IH _ _ _ _ Hrec) as ((Hu & Hn & Hc) & Hf2 & Hnd & Hfr & Hlk).
    simpl in *.
    set (id := nextRowid (tDeliveryReceipt tx)) in *.
    assert (tDeliveryReceipt tx !! id = None) as Hfresh by apply nextRowid_fresh.
    split_and!; try done.
    + by constructor.
    + simpl. constructor; [|done].
      intros Hin. apply list_elem_of_fmap in Hin as (r' & Hid & Hin).
      rewrite Forall_forall in Hfr. specialize (Hfr r' Hin).
      rewrite <- Hid, lookup_insert_eq in Hfr. done.
    + constructor; [done|].
      eapply Forall_impl; [exact Hfr|]. simpl. intros r' Hr'.
      by apply lookup_insert_None in Hr' as [? _].
    + intros k row. rewrite Hlk, lookup_insert_Some. split.
      * intros [(r' & Hin & Hid & Hrow)|[[<- <-]|[_ Hl]]].
        -- left. exists r'. split; [by right|done].
        -- left. exists (DeliveryReceipt.withID rcpt id). split; [by left|done].
        -- by right.
      * intros [(r' & Hin & Hid & Hrow)|Hl].
        -- apply elem_of_cons in Hin as [->|Hin].
           ++ right. left. by subst.
           ++ left. by exists r'.
        -- right. right. split; [|done]. intros <-. congruence.
Qed.

(** X6: [StoreClientDeliveryReceipts] replaces, atomically, the receipts of
    one client on one network.  When it fails the database is as before.
    When it succeeds the other tables are unchanged, every receipt of the
    slice got an id of its own written back (nothing else of it changes),
    and the rows of the table are the rows of the slice, stored under these
    ids for the given network and client, together with the former rows of
    other networks or clients. *)
Theorem StoreClientDeliveryReceipts_replace (fl : faults) (db : SqliteDB)
    (networkID : Z) (client : string) (receipts : list DeliveryReceipt.t) :
  let r := StoreClientDeliveryReceipts fl db networkID client receipts in
  match r.2 with
  | Some _ => r.1.1 = db
  | None =>
      sameButReceipts db r.1.1 /\
      Forall2 (fun rc rc' => rc' = DeliveryReceipt.withID rc (DeliveryReceipt.ID rc'))
              receipts r.1.2 /\
      NoDup (map DeliveryReceipt.ID r.1.2) /\
      (forall k row, tDeliveryReceipt r.1.1 !! k = Some row <->
         (exists rc', rc' ∈ r.1.2 /\ DeliveryReceipt.ID rc' = k /\
                      row = receiptRow networkID client rc') \/
         (tDeliveryReceipt db !! k = Some row /\ ~ ofClient networkID client row))
  end.
Proof.
  unfold StoreClientDeliveryReceipts.
  destruct (fault 0 fl); [done|]. destruct (fault 1 fl); [done|].
  destruct (insertReceipts _ _ _ _ _ _) as [receipts' [e|tx']] eqn:Hins; [done|].
  destruct (fault _ fl); [done|]. simpl.
  destruct (insertReceipts_ok _ _ _ _ _ _ _ _ Hins) as (Hsame & Hf2 & Hnd & _ & Hlk).
  split_and!; try done.
  intros k row. rewrite Hlk. simpl.
  by rewrite (sqlDelete_decide (fun _ r => ofClient networkID client r)).
Qed.

Lemma toNullString_Some s : s <> "" -> toNullString s = Some s.
Proof.
  intros Hs. unfold toNullString. destruct (String.eqb_spec s ""); [done|done].
Qed.

Definition targetsFree (networkID : Z) (client : string)
    (t : gmap Z ReceiptRow) (receipts : list DeliveryReceipt.t) : Prop :=
  forall k row, t !! k = Some row -> ofClient networkID client row ->
    r_target row ∉ map DeliveryReceipt.Target receipts.

Lemma insertReceipts_succeeds networkID client receipts :
  forall n tx,
  client = "" \/
    (NoDup (map DeliveryReceipt.Target receipts) /\
     targetsFree networkID client (tDeliveryReceipt tx) receipts) ->
  exists receipts' tx',
    insertReceipts [] n networkID client receipts tx = (receipts', inr tx').
Proof.
  induction receipts as [|rcpt rest IH]; intros n tx Hok; simpl; [by eauto|].
  rewrite fault_nil.
  set (id := nextRowid (tDeliveryReceipt tx)).
  assert (clashes receiptConflict (tDeliveryReceipt tx) id
            (receiptRow networkID client rcpt) = false) as ->.
  { unfold clashes. apply bool_decide_eq_false_2. intros Hn. apply Hn.
    intros k' r' Hl. right. intros (Hnet & Htg & Hcl). simpl in *.
    destruct Hok as [->|[Hnd Hfree]]; [done|].
    destruct (r_client r') as [c|] eqn:Hc; [|by destruct (toNullString client)].
    destruct (toNullString client) as [c'|] eqn:Hc'; [|done]. simpl in Hcl. subst c'.
    apply (Hfree k' r' Hl); [by split; [|congruence]|].
    rewrite <- Htg. simpl. by left. }
  destruct (IH (S n) (withReceipts tx (<[id := receiptRow networkID client rcpt]>
                                         (tDeliveryReceipt tx))))
    as (rest' & tx' & ->); [|by eauto].
  destruct Hok as [->|[Hnd Hfree]]; [by left|right].
  simpl in Hnd. apply NoDup_cons in Hnd as [Hnotin Hnd]. split; [done|].
  intros k row. simpl. intros [[<- <-]|[_ Hl]]%lookup_insert_Some Hof.
  - done.
  - intros Hin. apply (Hfree k row Hl Hof). simpl. by right.
Qed.

Lemma insertReceipts_distinct fl networkID client receipts :
  client <> "" ->
  forall n tx receipts' tx',
  insertReceipts fl n networkID client receipts tx = (receipts', inr tx') ->
  NoDup (map DeliveryReceipt.Target receipts) /\
  targetsFree networkID client (tDeliveryReceipt tx) receipts.
Proof.
  intros Hclient.
  induction receipts as [|rcpt rest IH]; intros n tx receipts' tx'; simpl.
  - intros _. split; [constructor|]. intros k row _ _ Hin. by apply elem_of_nil in Hin.
  - destruct (fault n fl); [done|].
    destruct (clashes _ _ _ _) eqn:Hcl; [done|].
    destruct (insertReceipts _ _ _ _ _ _) as [rest' r] eqn:Hrec.
    intros [= <- ->].
    destruct (IH _ _ _ _ Hrec) as [Hnd Hfree]. simpl in Hfree.
    set (id := nextRowid (tDeliveryReceipt tx)) in *.
    assert (tDeliveryReceipt tx !! id = None) as Hfresh by apply nextRowid_fresh.
    split.
    + constructor; [|done].
      apply (Hfree id (receiptRow networkID client rcpt)); [apply lookup_insert_eq|].
      by split.
    + intros k row Hl Hof. simpl. apply not_elem_of_cons. split.
      * intros Htg.
        apply (clashes_false _ _ _ _ Hcl k row Hl); [intros ->; congruence|].
        destruct Hof as [Hnet Hc]. unfold receiptConflict. simpl.
        rewrite Hc, (toNullString_Some _ Hclient). done.
      * apply (Hfree k row); [|done].
        rewrite lookup_insert_ne; [done|]. intros <-. congruence.
Qed.

(** X7: without a failure of the driver, [StoreClientDeliveryReceipts]
    succeeds exactly when the client name is empty (stored as NULL, which the
    UNIQUE index never matches) or the targets of the receipts are pairwise
    distinct: two receipts of a named client for one target violate
    UNIQUE(network, target, client). *)
Theorem StoreClientDeliveryReceipts_succeeds (db : SqliteDB) (networkID : Z)
    (client : string) (receipts : list DeliveryReceipt.t) :
  (StoreClientDeliveryReceipts [] db networkID client receipts).2 = None <->
  client = "" \/ NoDup (map DeliveryReceipt.Target receipts).
Proof.
  unfold StoreClientDeliveryReceipts. rewrite !fault_nil.
  set (tx := withReceipts db _).
  split.
  - destruct (insertReceipts _ _ _ _ _ _) as [receipts' [e|tx']] eqn:Hins; [done|].
    intros _. destruct (decide (client = "")) as [|Hc]; [by left|right].
    by destruct (insertReceipts_distinct _ _ _ _ Hc _ _ _ _ Hins).
  - intros Hok.
    destruct (insertReceipts_succeeds networkID client receipts 2%nat tx)
      as (receipts' & tx' & ->); [|done].
    destruct Hok as [->|Hnd]; [by left|right]. split; [done|].
    intros k row. unfold tx. simpl.
    rewrite (sqlDelete_decide (fun _ r => ofClient networkID client r)).
    by intros [_ Hn] Hof.
Qed.

Lemma ListDeliveryReceipts_elem db networkID x :
  x ∈ (ListDeliveryReceipts [] db networkID).1 <->
  exists k r, tDeliveryReceipt db !! k = Some r /\ r_network r = networkID /\
              x = receiptOfRow k r.
Proof.
  unfold ListDeliveryReceipts. rewrite !fault_nil. simpl.
  rewrite list_elem_of_fmap. split.
  - intros ([k r] & -> & Hin). apply elem_of_map_to_list in Hin.
    apply map_lookup_filter_Some in Hin as [Hl Hn]. by exists k, r.
  - intros (k & r & Hl & Hn & ->). exists (k, r). split; [done|].
    apply elem_of_map_to_list. by apply map_lookup_filter_Some.
Qed.

(** The table holds no empty client name: the code stores it as NULL. *)
Definition clientsNormal (t : gmap Z ReceiptRow) : Prop :=
  forall k r, t !! k = Some r -> r_client r <> Some "".

Lemma ofClient_read networkID client r :
  r_client r <> Some "" -> r_network r = networkID ->
  ofClient networkID client r <-> fromNullString (r_client r) = client.
Proof.
  intros Hn Hnet. unfold ofClient, toNullString. split.
  - intros [_ ->]. apply fromNullString_toNullString.
  - intros <-. split; [done|]. destruct (r_client r) as [c|]; simpl; [|done].
    destruct (String.eqb_spec c ""); [by subst|done].
Qed.

(** X29: after a successful [StoreClientDeliveryReceipts] on a table that
    holds no empty client name, [ListDeliveryReceipts] for the network
    returns, for that client, exactly the receipts of the slice with the
    ids written back and the client name given (whatever client the
    receipts named), and for the other clients what it returned before. *)
Theorem StoreClientDeliveryReceipts_ListDeliveryReceipts (fl : faults)
    (db db' : SqliteDB) (networkID : Z) (client : string)
    (receipts receipts' : list DeliveryReceipt.t) :
  StoreClientDeliveryReceipts fl db networkID client receipts
    = (db', receipts', None) ->
  clientsNormal (tDeliveryReceipt db) ->
  forall x, x ∈ (ListDeliveryReceipts [] db' networkID).1 <->
    (exists rc', rc' ∈ receipts' /\
       x = DeliveryReceipt.mk (DeliveryReceipt.ID rc') (DeliveryReceipt.Target rc')
             client (DeliveryReceipt.InternalMsgID rc')) \/
    (x ∈ (ListDeliveryReceipts [] db networkID).1 /\
     DeliveryReceipt.Client x <> client).
Proof.
  unfold StoreClientDeliveryReceipts.
  destruct (fault 0 fl); [done|]. destruct (fault 1 fl); [done|].
  destruct (insertReceipts _ _ _ _ _ _) as [rs [e|tx']] eqn:Hins; [done|].
  destruct (fault _ fl); [done|]. intros [= <- <-] Hnormal x.
  destruct (insertReceipts_ok _ _ _ _ _ _ _ _ Hins) as (_ & _ & _ & _ & Hlk).
  simpl in Hlk. rewrite !ListDeliveryReceipts_elem. split.
  - intros (k & r & Hr & Hnet & ->). apply Hlk in Hr as [(rc' & Hin & <- & ->)|Hr].
    + left. exists rc'. split; [done|]. unfold receiptOfRow, receiptRow. simpl.
      by rewrite fromNullString_toNullString.
    + apply (sqlDelete_decide (fun _ r => ofClient networkID client r)) in Hr
        as [Hr Hnot].
      right. split; [by exists k, r|]. simpl. intros Hc. apply Hnot.
      apply ofClient_read; [by eapply Hnormal|done|done].
  - intros [(rc' & Hin & ->)|[(k & r & Hr & Hnet & ->) Hc]].
    + exists (DeliveryReceipt.ID rc'), (receiptRow networkID client rc').
      split_and!; [|done|].
      * apply Hlk. left. by exists rc'.
      * unfold receiptOfRow, receiptRow. simpl.
        by rewrite fromNullString_toNullString.
    + exists k, r. split_and!; [|done|done]. apply Hlk. right.
      apply (sqlDelete_decide (fun _ r => ofClient networkID client r)).
      split; [done|]. intros Hof. apply Hc. simpl.
      apply ofClient_read in Hof; [done|by eapply Hnormal|done].
Qed.

Lemma StoreClientDeliveryReceipts_ListDeliveryReceipts_witness :
  DeliveryReceipt.mk 1001 "#go" "laptop" "m7"
    ∈ (ListDeliveryReceipts []
         (StoreClientDeliveryReceipts [] sampleDB 10 "laptop"
            [DeliveryReceipt.mk 0 "#go" "phone" "m7"]).1.1 10).1.
Proof.
  destruct (StoreClientDeliveryReceipts [] sampleDB 10 "laptop"
              [DeliveryReceipt.mk 0 "#go" "phone" "m7"])
    as [[db' receipts'] err] eqn:Hs.
  assert (err = None /\ receipts' = [DeliveryReceipt.mk 1001 "#go" "phone" "m7"])
    as [-> ->].
  { by vm_compute in Hs; injection Hs as _ <- <-. }
  apply (StoreClientDeliveryReceipts_ListDeliveryReceipts _ _ _ _ _ _ _ Hs).
  - intros k r. unfold sampleDB. simpl.
    by intros [<- <-]%lookup_singleton_Some.
  - left. eexists. split; [by left|done].
Defined.

End database_receipt_facts.

(** ** Channels read back *)

Section database_channel_facts.
Import Database.

Lemma ListChannels_elem db networkID x :
  x ∈ (ListChannels [] db networkID).1 <->
  exists k r, tChannel db !! k = Some r /\ c_network r = networkID /\
              x = channelOfRow k r.
Proof.
  unfold ListChannels. rewrite !fault_nil. simpl. rewrite list_elem_of_fmap. split.
  - intros ([k r] & -> & Hin). apply elem_of_map_to_list in Hin.
    apply map_lookup_filter_Some in Hin as [Hl Hn]. by exists k, r.
  - intros (k & r & Hl & Hn & ->). exists (k, r). split; [done|].
    apply elem_of_map_to_list. by apply map_lookup_filter_Some.
Qed.

(** A duration of whole seconds that fits an [int64]. *)
Definition wholeSeconds (d : Z) : Prop :=
  d mod 1000000000 = 0 /\ -9223372036854775808 <= d < 9223372036854775808.

Lemma iter_xO_digits p x :
  digits2_pos (Pos.iter xO p x) = (digits2_pos p + x)%positive.
Proof.
  induction x as [|x IH] using Pos.peano_ind.
  - simpl. lia.
  - rewrite Pos.iter_succ. simpl. rewrite IH. lia.
Qed.

Lemma iter_xO_value p x : Zpos (Pos.iter xO p x) = Zpos p * 2 ^ Zpos x.
Proof.
  induction x as [|x IH] using Pos.peano_ind.
  - simpl. lia.
  - rewrite Pos.iter_succ, Pos2Z.inj_xO, IH, Pos2Z.inj_succ, Z.pow_succ_r by lia. lia.
Qed.

Lemma digits2_pos_bound p k :
  Zpos p < 2 ^ k -> 0 <= k -> Zpos (digits2_pos p) <= k.
Proof.
  revert k. induction p as [p IH|p IH|]; intros k Hp Hk; simpl.
  - assert (0 < k) by (destruct (decide (k = 0)) as [->|]; [simpl in Hp|]; lia).
    specialize (IH (k - 1)). replace k with (Z.succ (k - 1)) in Hp by lia.
    rewrite Z.pow_succ_r in Hp by lia. lia.
  - assert (0 < k) by (destruct (decide (k = 0)) as [->|]; [simpl in Hp|]; lia).
    specialize (IH (k - 1)). replace k with (Z.succ (k - 1)) in Hp by lia.
    rewrite Z.pow_succ_r in Hp by lia. lia.
  - destruct (decide (k = 0)) as [->|]; [simpl in Hp|]; lia.
Qed.

(** An integer below 2^53 in magnitude is a [float64]: the conversion is
    exact. *)
Lemma binary_round_exact s p :
  Zpos p < 2 ^ 53 ->
  exists m e, binary_round 53 1024 s p 0 = S754_finite s m e /\
              -53 < e <= 0 /\ Zpos m = Zpos p * 2 ^ (- e).
Proof.
  intros Hp. pose proof (digits2_pos_bound p 53 Hp ltac:(lia)) as Hd.
  unfold binary_round, shl_align.
  assert (fexp 53 1024 (Zpos (digits2_pos p) + 0) = Zpos (digits2_pos p) - 53) as ->.
  { unfold fexp, emin. lia. }
  rewrite Z.sub_0_r.
  destruct (Zpos (digits2_pos p) - 53) as [|x|x] eqn:Hx; [|lia|].
  - exists p, 0. split; [|simpl; lia].
    unfold binary_round_aux, shr_fexp. simpl Zdigits2.
    assert (fexp 53 1024 (Zpos (digits2_pos p) + 0) - 0 = 0) as ->.
    { unfold fexp, emin. lia. }
    simpl. assert (fexp 53 1024 (Zpos (digits2_pos p) + 0) - 0 = 0) as ->.
    { unfold fexp, emin. lia. }
    done.
  - exists (Pos.iter xO p x), (Zneg x). split; [|split; [lia|]].
    2:{ rewrite iter_xO_value. done. }
    unfold binary_round_aux, shr_fexp. simpl Zdigits2.
    assert (fexp 53 1024 (Zpos (digits2_pos (Pos.iter xO p x)) + Zneg x) - Zneg x = 0)
      as Hz.
    { rewrite iter_xO_digits. unfold fexp, emin. lia. }
    rewrite Hz. simpl. rewrite Hz. simpl.
    destruct (Zneg x <=? 971) eqn:Hle; [done|]. apply Z.leb_gt in Hle. lia.
Qed.

Lemma ceilInt64_float64 n :
  - 2 ^ 53 < n < 2 ^ 53 -> ceilInt64 (float64 n) = n.
Proof.
  intros Hn. unfold float64, binary_normalize.
  destruct n as [|p|p]; [done| |].
  - destruct (binary_round_exact false p ltac:(lia)) as (m & e & -> & He & Hm).
    simpl. destruct (0 <=? e) eqn:Hle.
    + apply Z.leb_le in Hle. assert (e = 0) as -> by lia. simpl in *. lia.
    + rewrite Hm. rewrite <- Z.mul_opp_l, Z.div_mul by (apply Z.pow_nonzero; lia). lia.
  - destruct (binary_round_exact true p ltac:(lia)) as (m & e & -> & He & Hm).
    simpl. destruct (0 <=? e) eqn:Hle.
    + apply Z.leb_le in Hle. assert (e = 0) as -> by lia. simpl in *. lia.
    + rewrite Z.opp_involutive, Hm, Z.div_mul by (apply Z.pow_nonzero; lia). lia.
Qed.

Lemma Seconds_whole k :
  - 2 ^ 53 < k < 2 ^ 53 -> Seconds (k * 1000000000) = float64 k.
Proof.
  intros Hk. unfold Seconds. rewrite Z.quot_mul, Z.rem_mul by lia.
  change (SFdiv 53 1024 (float64 0) (float64 1000000000)) with (S754_zero false).
  unfold float64, binary_normalize. destruct k as [|p|p]; [done| |].
  - by destruct (binary_round_exact false p ltac:(lia)) as (m & e & -> & _).
  - by destruct (binary_round_exact true p ltac:(lia)) as (m & e & -> & _).
Qed.

Lemma ceilSeconds_whole k :
  - 2 ^ 53 < k < 2 ^ 53 -> ceilSeconds (k * 1000000000) = k.
Proof.
  intros Hk. unfold ceilSeconds. rewrite Seconds_whole by done.
  by apply ceilInt64_float64.
Qed.

(** One nanosecond above 2^24 seconds is lost in the [float64] sum, so the
    ceiling stays at 2^24; one above three seconds is not. *)
Lemma ceilSeconds_rounding :
  ceilSeconds 16777216000000001 = 16777216 /\ ceilSeconds 3000000001 = 4 /\
  ceilSeconds (-1) = 0 /\ ceilSeconds (-1500000000) = -1.
Proof. by vm_compute. Qed.

Lemma wholeSeconds_roundtrip d :
  wholeSeconds d -> wrap64 (ceilSeconds d * 1000000000) = d.
Proof.
  intros [Hmod Hrange].
  pose proof (Z.div_mod d 1000000000 ltac:(lia)) as Hd. rewrite Hmod in Hd.
  assert (exists k, d = k * 1000000000) as [k ->]
    by (exists (d / 1000000000); lia).
  rewrite ceilSeconds_whole by (change (2 ^ 53) with 9007199254740992; lia).
  unfold wrap64. rewrite Z.mod_small by lia. lia.
Qed.

Lemma channelOfRow_channelRow networkID c id :
  wholeSeconds (Channel.DetachAfter c) ->
  channelOfRow id (channelRow networkID c) = Channel.withID c id.
Proof.
  intros Hd. unfold channelOfRow, channelRow, Channel.withID. simpl.
  by rewrite !fromNullString_toNullString, wholeSeconds_roundtrip.
Qed.

(** X8: a channel stored with [StoreChannel] (a new one, or one whose row
    exists), with a [DetachAfter] of whole seconds, is read back by
    [ListChannels] for that network exactly as the record is left by the
    store, and under no other network; the channels with other ids are
    listed as before. *)
Theorem StoreChannel_ListChannels (fl : faults) (db db' : SqliteDB)
    (networkID : Z) (c c' : Channel.t) :
  StoreChannel fl db networkID c = (db', c', None) ->
  Channel.ID c = 0 \/ is_Some (tChannel db !! Channel.ID c) ->
  wholeSeconds (Channel.DetachAfter c) ->
  c' ∈ (ListChannels [] db' networkID).1 /\
  (forall n x, x ∈ (ListChannels [] db' n).1 -> Channel.ID x = Channel.ID c' ->
     n = networkID /\ x = c') /\
  (forall n x, Channel.ID x <> Channel.ID c' ->
     x ∈ (ListChannels [] db' n).1 <-> x ∈ (ListChannels [] db n).1).
Proof.
  intros Hs Hrow Hd.
  assert (tChannel db' !! Channel.ID c' = Some (channelRow networkID c) /\
          (forall k, k <> Channel.ID c' -> tChannel db' !! k = tChannel db !! k) /\
          c' = Channel.withID c (Channel.ID c')) as (Hnew & Hother & Hc').
  { destruct (decide (Channel.ID c = 0)) as [Hz|Hnz].
    - destruct (StoreChannel_insert _ _ _ _ _ _ Hz Hs) as (_ & _ & Ht & Hc').
      split_and!; [|intros k Hk|done].
      + rewrite Ht. apply lookup_insert_eq.
      + rewrite Ht. by apply lookup_insert_ne.
    - destruct Hrow as [Hz|[old Hold]]; [done|].
      destruct (StoreChannel_update _ _ _ _ _ _ Hnz Hs) as (_ & -> & Ho & Hn).
      split_and!; [|done|by destruct c].
      by rewrite Hn, Hold. }
  assert (forall k r, channelOfRow k r = c' -> k = Channel.ID c') as Hid.
  { intros k r <-. done. }
  split_and!.
  - apply ListChannels_elem. exists (Channel.ID c'), (channelRow networkID c).
    split_and!; [done|done|]. by rewrite channelOfRow_channelRow.
  - intros n x (k & r & Hl & Hn & ->)%ListChannels_elem Hk. simpl in Hk. subst k.
    rewrite Hnew in Hl. injection Hl as <-. simpl in Hn.
    split; [done|]. by rewrite channelOfRow_channelRow.
  - intros n x Hne. rewrite !ListChannels_elem.
    split; intros (k & r & Hl & Hn & ->); exists k, r; simpl in Hne;
      (split_and!; [|done|done]).
    + by rewrite <- Hother.
    + by rewrite Hother.
Qed.

Lemma StoreChannel_ListChannels_witness :
  Channel.mk 201 "#new" "" false "" 0 0 60000000000 0
    ∈ (ListChannels []
         (StoreChannel [] sampleDB 10
            (Channel.mk 0 "#new" "" false "" 0 0 60000000000 0)).1.1 10).1.
Proof.
  destruct (StoreChannel [] sampleDB 10
              (Channel.mk 0 "#new" "" false "" 0 0 60000000000 0))
    as [[db' c'] err] eqn:Hs.
  assert (err = None /\ c' = Channel.mk 201 "#new" "" false "" 0 0 60000000000 0)
    as [-> <-].
  { by vm_compute in Hs; injection Hs as _ <- <-. }
  refine (proj1 (StoreChannel_ListChannels [] sampleDB db' 10 _ _ Hs _ _)).
  - by left.
  - split; [reflexivity|simpl; lia].
Defined.

End database_channel_facts.

(** ** User modes *)

Section usermodes_facts.
Import Ircutil Ircutil.UserModes.

Abbreviation bytes := list_ascii_of_string.

Definition isSign (c : ascii) : Prop := c = "+"%char \/ c = "-"%char.

(** A byte below 128, which [string(c)] turns into itself. *)
Definition ascii7 (c : ascii) : Prop := (N_of_ascii c < 128)%N.

Lemma stringOfByte_ascii7 c : ascii7 c -> stringOfByte c = String c "".
Proof.
  unfold ascii7, stringOfByte, encodeRune, rune_of_ascii. intros Hc.
  assert ((Z.of_N (N_of_ascii c) <? 0) = false) as -> by lia.
  assert ((1114111 <? Z.of_N (N_of_ascii c)) = false) as -> by lia.
  assert ((55296 <=? Z.of_N (N_of_ascii c)) = false) as -> by lia.
  simpl. assert ((Z.of_N (N_of_ascii c) <=? 127) = true) as -> by lia.
  simpl. unfold byteOf. by rewrite N2Z.id, ascii_N_embedding.
Qed.

Lemma IndexByte_ge s c : -1 <= IndexByte s c.
Proof.
  induction s as [|a s IH]; simpl; [lia|].
  destruct (Ascii.eqb a c); [lia|]. destruct (IndexByte s c <? 0) eqn:E; lia.
Qed.

Lemma Has_spec ms c : Has ms c = true <-> c ∈ bytes ms.
Proof.
  unfold Has. induction ms as [|a s IH]; simpl.
  - split; [done|]. intros Hin. by apply elem_of_nil in Hin.
  - rewrite elem_of_cons. destruct (Ascii.eqb_spec a c) as [->|Hne].
    + split; [by left|done].
    + pose proof (IndexByte_ge s c).
      destruct (IndexByte s c <? 0) eqn:E.
      * split; [done|]. intros [?|Hin]; [congruence|].
        apply IH in Hin. lia.
      * split; [|lia]. intros _. right. apply IH. lia.
Qed.

Lemma bytes_append a b : bytes (a +:+ b) = bytes a ++ bytes b.
Proof. induction a as [|x a IH]; simpl; [done|]. by rewrite IH. Qed.

Lemma Add_bytes ms c :
  ascii7 c ->
  bytes (Add ms c) = if Has ms c then bytes ms else bytes ms ++ [c].
Proof.
  intros Hc. unfold Add. destruct (Has ms c); simpl; [done|].
  by rewrite bytes_append, stringOfByte_ascii7.
Qed.

Lemma substring_all s : substring 0 (String.length s) s = s.
Proof. induction s as [|a s IH]; simpl; [done|]. by rewrite IH. Qed.

(** [Del] cuts out the first [c]. *)
Fixpoint cutFirst (c : ascii) (l : list ascii) : list ascii :=
  match l with
  | [] => []
  | a :: l' => if Ascii.eqb a c then l' else a :: cutFirst c l'
  end.

Lemma Del_bytes ms c : bytes (Del ms c) = cutFirst c (bytes ms).
Proof.
  unfold Del. induction ms as [|a s IH]; simpl; [done|].
  destruct (Ascii.eqb a c) eqn:Hac.
  - simpl. by rewrite Nat.sub_0_r, substring_all.
  - pose proof (IndexByte_ge s c).
    destruct (IndexByte s c <? 0) eqn:E; simpl; [f_equal|].
    + revert IH. assert ((0 <=? IndexByte s c) = false) as -> by lia. done.
    + revert IH. assert ((0 <=? IndexByte s c) = true) as -> by lia.
      assert ((0 <=? IndexByte s c + 1) = true) as -> by lia.
      replace (Z.to_nat (IndexByte s c + 1)) with (S (Z.to_nat (IndexByte s c))) by lia.
      replace (Z.to_nat (IndexByte s c + 1 + 1)) with (S (S (Z.to_nat (IndexByte s c)))) by lia.
      simpl. intros <-. done.
Qed.

Lemma cutFirst_elem c l x :
  NoDup l -> x ∈ cutFirst c l <-> x ∈ l /\ x <> c.
Proof.
  induction l as [|a l IH]; simpl; intros Hnd.
  - split; [intros Hin|intros [Hin _]]; by apply elem_of_nil in Hin.
  - apply NoDup_cons in Hnd as [Hnotin Hnd].
    destruct (Ascii.eqb_spec a c) as [->|Hne].
    + rewrite elem_of_cons. split.
      * intros Hin. split; [by right|]. intros ->. done.
      * intros [[->|Hin] Hx]; done.
    + rewrite !elem_of_cons, IH by done. split.
      * intros [->|[Hin Hx]]; [by split; [left|]|by split; [right|]].
      * intros [[->|Hin] Hx]; [by left|by right].
Qed.

Lemma cutFirst_NoDup c l : NoDup l -> NoDup (cutFirst c l).
Proof.
  induction l as [|a l IH]; simpl; intros Hnd; [done|].
  apply NoDup_cons in Hnd as [Hnotin Hnd].
  destruct (Ascii.eqb a c); [done|]. apply NoDup_cons. split; [|by apply IH].
  rewrite cutFirst_elem by done. by intros [? _].
Qed.

(** What the modestring [rest], read from a state whose sign is
    [plusMinus], does last to the letter [c]: [Some true] adds it,
    [Some false] removes it, [None] does not name it. *)
Fixpoint verdict (plusMinus : ascii) (rest : list ascii) (c : ascii) : option bool :=
  match rest with
  | [] => None
  | x :: rest' =>
      if bool_decide (isSign x) then verdict x rest' c
      else if bool_decide (x = c) then
        match verdict plusMinus rest' c with
        | Some b => Some b
        | None => Some (bool_decide (plusMinus = "+"%char))
        end
      else verdict plusMinus rest' c
  end.

Lemma applyLoop_Has s rest : forall ms plusMinus ms',
  NoDup (bytes ms) -> Forall ascii7 rest ->
  applyLoop s rest (ms, plusMinus) = (ms', None) ->
  NoDup (bytes ms') /\
  forall c, ~ isSign c ->
    Has ms' c = match verdict plusMinus rest c with
                | Some b => b
                | None => Has ms c
                end.
Proof.
  induction rest as [|x rest IH]; intros ms pm ms' Hnd Hascii; simpl.
  - by intros [= <-].
  - apply Forall_cons in Hascii as [Hx Hascii].
    unfold isSign. case_bool_decide as Hsign; [by apply IH|].
    case_bool_decide as Hplus; [|case_bool_decide as Hminus; [|done]].
    + intros Hrun.
      assert (NoDup (bytes (Add ms x))) as HndA.
      { rewrite Add_bytes by done. destruct (Has ms x) eqn:E; [done|].
        apply NoDup_app. split_and!; [done| |apply NoDup_singleton].
        intros y Hy ->%list_elem_of_singleton. apply Has_spec in Hy. congruence. }
      destruct (IH _ _ _ HndA Hascii Hrun) as [Hnd' Hhas].
      split; [done|]. intros c Hc. rewrite (Hhas c Hc).
      destruct (verdict pm rest c); [by case_bool_decide|].
      case_bool_decide as Hxc.
      * subst. try rewrite bool_decide_eq_true_2 by done.
        apply Has_spec. rewrite Add_bytes by done.
        destruct (Has ms c) eqn:E; [by apply Has_spec|]. apply elem_of_app. right. by left.
      * apply eq_true_iff_eq. rewrite !Has_spec, Add_bytes by done.
        destruct (Has ms x) eqn:E; [done|]. rewrite elem_of_app, list_elem_of_singleton.
        split; [intros [?|?]; [done|congruence]|by left].
    + intros Hrun.
      assert (NoDup (bytes (Del ms x))) as HndD.
      { rewrite Del_bytes. by apply cutFirst_NoDup. }
      destruct (IH _ _ _ HndD Hascii Hrun) as [Hnd' Hhas].
      split; [done|]. intros c Hc. rewrite (Hhas c Hc).
      destruct (verdict pm rest c); [by case_bool_decide|].
      case_bool_decide as Hxc.
      * subst. try rewrite bool_decide_eq_false_2 by done.
        apply not_true_iff_false. rewrite Has_spec, Del_bytes, cutFirst_elem by done.
        by intros [_ ?].
      * apply eq_true_iff_eq. rewrite !Has_spec, Del_bytes, cutFirst_elem by done.
        split; [by intros [? _]|]. intros Hin. split; [done|congruence].
Qed.

Lemma verdict_None pm rest c :
  ~ isSign c -> (verdict pm rest c = None <-> ~ c ∈ rest).
Proof.
  intros Hc. revert pm. induction rest as [|x rest IH]; intros pm; simpl.
  - split; [|done]. intros _ Hin. by apply elem_of_nil in Hin.
  - rewrite not_elem_of_cons. case_bool_decide as Hx.
    + rewrite IH. split; [|by intros [_ ?]]. intros Hn. split; [|done]. by intros ->.
    + case_bool_decide as Hxc.
      * destruct (verdict pm rest c); split; try done; by intros [? _].
      * rewrite IH. split; [|by intros [_ ?]]. intros Hn. split; [congruence|done].
Qed.

(** The last [c] of [rest] stands under a plus sign: the nearest sign before
    it is a plus, or there is none before it and the sign [pm] inherited by
    the loop is a plus. *)
Definition governedFrom (pm : ascii) (rest : list ascii) (c : ascii) : Prop :=
  exists mid post, Forall (fun x => ~ isSign x) mid /\ (c ∉ post) /\
    ((rest = mid ++ c :: post /\ pm = "+"%char) \/
     exists pre, rest = pre ++ "+"%char :: mid ++ c :: post).

Lemma verdict_governed pm rest c :
  ~ isSign c -> verdict pm rest c = Some true <-> governedFrom pm rest c.
Proof.
  intros Hc. revert pm. induction rest as [|x rest IH]; intros pm; simpl.
  - split; [done|]. intros (mid & post & _ & _ & [[Hr _]|[pre Hr]]).
    + by destruct mid.
    + by destruct pre.
  - split.
    + case_bool_decide as Hx.
      { intros (mid & post & Hmid & Hpost & Hr)%IH. exists mid, post.
        split_and!; [done|done|]. right.
        destruct Hr as [[-> ->]|[pre ->]]; [by exists []|by exists (x :: pre)]. }
      assert (verdict pm rest c = Some true -> governedFrom pm (x :: rest) c) as Hstep.
      { intros (mid & post & Hmid & Hpost & Hr)%IH.
        destruct Hr as [[-> ->]|[pre ->]].
        - exists (x :: mid), post. split_and!; [by constructor|done|by left].
        - exists mid, post. split_and!; [done|done|]. right. by exists (x :: pre). }
      case_bool_decide as Hxc; [|done].
      destruct (verdict pm rest c) as [b|] eqn:Hv.
      * intros [= ->]. by apply Hstep.
      * intros [= Hpm]. apply bool_decide_eq_true in Hpm. subst x.
        exists [], rest. split_and!; [constructor|by apply (verdict_None pm)|by left].
    + intros (mid & post & Hmid & Hpost & Hr).
      destruct Hr as [[Hr ->]|[pre Hr]].
      * destruct mid as [|y mid]; simpl in Hr; injection Hr as -> ->.
        -- rewrite bool_decide_eq_false_2 by done.
           rewrite bool_decide_eq_true_2 by done.
           by rewrite (proj2 (verdict_None "+" post c Hc) Hpost).
        -- apply Forall_cons in Hmid as [Hy Hmid].
           rewrite bool_decide_eq_false_2 by done.
           assert (verdict "+" (mid ++ c :: post) c = Some true) as ->.
           { apply IH. exists mid, post. split_and!; [done|done|by left]. }
           by case_bool_decide.
      * destruct pre as [|y pre]; simpl in Hr; injection Hr as -> ->.
        -- rewrite bool_decide_eq_true_2 by (by left).
           apply IH. exists mid, post. split_and!; [done|done|by left].
        -- assert (forall pm', verdict pm' (pre ++ "+"%char :: mid ++ c :: post) c
                               = Some true) as Hall.
           { intros pm'. apply IH. exists mid, post. split_and!; [done|done|].
             right. by exists pre. }
           case_bool_decide; [done|]. rewrite Hall. by case_bool_decide.
Qed.

Lemma applyLoop_sign s rest : forall ms pm,
  isSign pm -> (applyLoop s rest (ms, pm)).2 = None.
Proof.
  induction rest as [|x rest IH]; intros ms pm Hpm; simpl; [done|].
  unfold isSign. case_bool_decide as Hx; [by apply IH|].
  case_bool_decide as Hplus; [by apply IH|].
  case_bool_decide as Hminus; [by apply IH|]. by destruct Hpm.
Qed.

(** The modestring is empty or begins with a sign. *)
Definition wellSigned (s : string) : Prop :=
  match s with
  | EmptyString => True
  | String c _ => isSign c
  end.

(** X9: [UserModes.Apply] fails exactly when the modestring begins with a
    byte that is neither a plus nor a minus; it then reports the modestring
    and has changed no mode. *)
Theorem UserModes_Apply_error (ms s : string) :
  ((Apply ms s).2 = None <-> wellSigned s) /\
  ((Apply ms s).2 <> None -> Apply ms s = (ms, Some (MalformedModestring s))).
Proof.
  unfold Apply. destruct s as [|c s']; [done|].
  set (s := String c s'). simpl.
  unfold isSign. case_bool_decide as Hc.
  - split; [|by rewrite applyLoop_sign]. split; [done|]. intros _.
    by apply applyLoop_sign.
  - simpl. by split; [split|].
Qed.

(** The last occurrence of [c] in the modestring stands under a plus. *)
Definition lastPlus (s : string) (c : ascii) : Prop :=
  exists pre mid post,
    bytes s = pre ++ "+"%char :: mid ++ c :: post /\
    Forall (fun x => ~ isSign x) mid /\ c ∉ post.

(** X10: after a successful [UserModes.Apply] of a modestring of bytes below
    128 to modes without a repeated letter, a letter is set exactly when its
    last occurrence in the modestring stands under a plus sign, or when the
    modestring does not name it and it was set before; and no letter is
    repeated in the result. *)
Theorem UserModes_Apply_Has (ms s : string) (c : ascii) :
  NoDup (bytes ms) -> Forall ascii7 (bytes s) -> (Apply ms s).2 = None ->
  ~ isSign c ->
  (Has (Apply ms s).1 c = true <->
     lastPlus s c \/ ((c ∉ bytes s) /\ Has ms c = true)) /\
  NoDup (bytes (Apply ms s).1).
Proof.
  intros Hnd Hascii Herr Hc. unfold Apply in *.
  destruct (applyLoop s (bytes s) (ms, zero)) as [ms' err] eqn:Hrun.
  simpl in Herr. subst err.
  destruct (applyLoop_Has _ _ _ _ _ Hnd Hascii Hrun) as [Hnd' Hhas].
  simpl. split; [|done]. rewrite (Hhas c Hc).
  destruct (verdict zero (bytes s) c) as [b|] eqn:Hv.
  - assert (c ∈ bytes s) as Hin.
    { destruct (decide (c ∈ bytes s)) as [|Hn]; [done|].
      apply (verdict_None zero) in Hn; [congruence|done]. }
    split.
    + intros ->. apply verdict_governed in Hv; [|done].
      destruct Hv as (mid & post & Hmid & Hpost & [[_ Hz]|[pre Hr]]); [done|].
      left. by exists pre, mid, post.
    + intros [(pre & mid & post & Hr & Hmid & Hpost)|[Hn _]]; [|done].
      assert (verdict zero (bytes s) c = Some true) as Hv'.
      { apply verdict_governed; [done|]. exists mid, post.
        split_and!; [done|done|]. right. by exists pre. }
      congruence.
  - apply verdict_None in Hv; [|done]. split; [by right|].
    intros [(pre & mid & post & Hr & _)|[_ ?]]; [|done].
    destruct Hv. rewrite Hr. apply elem_of_app. right. right.
    apply elem_of_app. right. by left.
Qed.

Lemma UserModes_Apply_Has_witness :
  Has (Apply "iw" "+o-w+x-x").1 "o" = true /\
  Has (Apply "iw" "+o-w+x-x").1 "i" = true /\
  NoDup (bytes (Apply "iw" "+o-w+x-x").1).
Proof.
  assert (NoDup (bytes "iw")) as Hnd.
  { apply NoDup_cons. split; [|apply NoDup_singleton].
    by intros Hin%list_elem_of_singleton. }
  assert (Forall ascii7 (bytes "+o-w+x-x")) as Hascii.
  { repeat (apply List.Forall_cons; [by vm_compute|]). apply List.Forall_nil. }
  assert (~ isSign "o") as Ho by (by intros [|]).
  assert (~ isSign "i") as Hi by (by intros [|]).
  destruct (UserModes_Apply_Has "iw" "+o-w+x-x" "o" Hnd Hascii eq_refl Ho)
    as [Hhas Hnd'].
  destruct (UserModes_Apply_Has "iw" "+o-w+x-x" "i" Hnd Hascii eq_refl Hi)
    as [Hhas' _].
  split_and!; [| |exact Hnd'].
  - apply Hhas. left. exists [], [], (bytes "-w+x-x"). split_and!; [done|constructor|].
    intros Hin. repeat (apply elem_of_cons in Hin as [Hin|Hin]; [done|]).
    by apply elem_of_nil in Hin.
  - apply Hhas'. right. split; [|done].
    intros Hin. repeat (apply elem_of_cons in Hin as [Hin|Hin]; [done|]).
    by apply elem_of_nil in Hin.
Defined.

Lemma Has_append a b c : Has (a +:+ b) c = Has a c || Has b c.
Proof.
  apply eq_true_iff_eq. rewrite orb_true_iff, !Has_spec, bytes_append.
  apply elem_of_app.
Qed.

Lemma Has_stringOfByte c :
  Has (stringOfByte c) c
  = ((N_of_ascii c <? 192) || (N_of_ascii c =? 195))%N.
Proof. by destruct c as [[] [] [] [] [] [] [] []]. Qed.

(** X11: [Add] appends the conversion of the byte to a string, which is its
    UTF-8 encoding: after [Add c] the letter [c] is set, unless it was not
    set before and is a byte from 192 on other than 195, whose two-byte
    encoding does not contain it. *)
Theorem UserModes_Add_Has (ms : string) (c : ascii) :
  Has (Add ms c) c = true <->
  Has ms c = true \/ (N_of_ascii c < 192)%N \/ N_of_ascii c = 195%N.
Proof.
  unfold Add. destruct (Has ms c) eqn:E; simpl.
  - rewrite E. split; [by left|done].
  - rewrite Has_append, E, Has_stringOfByte. simpl.
    rewrite orb_true_iff, N.ltb_lt, N.eqb_eq. split; [by right|].
    by intros [?|?].
Qed.

End usermodes_facts.

(** ** Channel modes: formatting and parsing back *)

Section format_facts.
Import Ircutil Bridge.

Definition hasValue (e : ascii * string) : bool := negb (String.eqb e.2 "").

(** The channel with [f] applied to its mode map, when it has one. *)
Definition overModes (f : ChannelModes -> ChannelModes) (c : upstreamChannel)
    : upstreamChannel :=
  mkUpstreamChannel (Name c) (Status c) (conn c) (Members c) (f <$> modes c).

Lemma setMode_overModes c mode argument :
  setMode c mode argument = overModes (insert mode argument) c.
Proof. unfold setMode, overModes. by destruct c as [? ? ? ? [m|]]. Qed.

Lemma overModes_compose f g c :
  overModes g (overModes f c) = overModes (g ∘ f) c.
Proof. unfold overModes. simpl. by rewrite <- option_fmap_compose. Qed.

(** A mode that [Format] writes and [applyChannelModes] reads back: a byte
    below 128 that is no sign and no membership mode, of a type that takes
    an argument when set (B, C), or of type D with no value. *)
Definition formattable (uc : upstreamConn) (mode : ascii) (value : string) : Prop :=
  ascii7 mode /\ ~ isSign mode /\
  list_find (fun membership => Mode membership = mode) (availableMemberships uc) = None /\
  exists mt, availableChannelModes uc !! mode = Some mt /\
    (mt = ModeTypeB \/ mt = ModeTypeC \/ (mt = ModeTypeD /\ value = "")).

Definition insertAll (l : list (ascii * string)) (m : ChannelModes) : ChannelModes :=
  fold_left (fun m e => <[e.1 := e.2]> m) l m.

Lemma insertAll_union l : forall m,
  insertAll l m = list_to_map (reverse l) ∪ m.
Proof.
  induction l as [|[k v] l IH]; intros m; simpl.
  - by rewrite (left_id_L ∅ (∪)).
  - unfold insertAll in *. simpl. rewrite IH, reverse_cons, list_to_map_app. simpl.
    rewrite <- (assoc_L (∪)). f_equal.
    by rewrite insert_empty, <- insert_union_singleton_l.
Qed.

Lemma string_of_list_ascii_app l1 l2 :
  string_of_list_ascii (l1 ++ l2)
  = string_of_list_ascii l1 +:+ string_of_list_ascii l2.
Proof. induction l1 as [|x l1 IH]; simpl; [done|]. by rewrite IH. Qed.

Lemma formatLoop entries : forall a b ps,
  Forall (fun e => ascii7 e.1) entries ->
  fold_left formatStep entries (a, b, ps) =
  (a +:+ string_of_list_ascii (map fst (List.filter hasValue entries)),
   b +:+ string_of_list_ascii
           (map fst (List.filter (fun e => negb (hasValue e)) entries)),
   ps ++ map snd (List.filter hasValue entries)).
Proof.
  induction entries as [|[mode value] entries IH]; intros a b ps Hascii; simpl.
  - by rewrite !append_empty_r, app_nil_r.
  - apply Forall_cons in Hascii as [Hm Hascii]. simpl in Hm.
    change (negb (value =? "")%string) with (hasValue (mode, value)).
    destruct (hasValue (mode, value)); simpl; rewrite IH by done;
      rewrite (stringOfByte_ascii7 _ Hm), ?append_assoc, <- ?app_assoc; done.
Qed.

Lemma filter_split {A} (f : A -> bool) (l : list A) :
  List.filter f l ++ List.filter (fun x => negb (f x)) l ≡ₚ l.
Proof.
  induction l as [|x l IH]; simpl; [done|].
  destruct (f x); simpl.
  - by constructor.
  - rewrite <- Permutation_middle. by constructor.
Qed.

(** The state of the loop while modes are being set under a plus sign. *)
Definition plusState (c : upstreamChannel) (nm : gset nat) (n : nat) : modeState :=
  mkModeState c nm n "+"%char.

Lemma applyMode_withValue modeStr arguments c nm n mode value :
  formattable (conn c) mode value -> value <> "" ->
  applyMode modeStr arguments (plusState c nm n) mode =
  inr (plusState (setMode c mode (default "" (arguments !! n))) nm (S n)).
Proof.
  intros (_ & Hsign & Hmem & mt & Hmt & Hcase) Hv. unfold applyMode, plusState. simpl.
  rewrite bool_decide_eq_false_2 by done.
  rewrite Hmem, Hmt.
  rewrite bool_decide_eq_true_2; [done|].
  destruct Hcase as [->|[->|[_ ?]]]; [by left|by right|done].
Qed.

Lemma applyMode_noValue modeStr arguments c nm n mode :
  formattable (conn c) mode "" -> (length arguments <= n)%nat ->
  exists n', (n <= n')%nat /\
    applyMode modeStr arguments (plusState c nm n) mode =
    inr (plusState (setMode c mode "") nm n').
Proof.
  intros (_ & Hsign & Hmem & mt & Hmt & Hcase) Hn. unfold applyMode, plusState. simpl.
  rewrite bool_decide_eq_false_2 by done.
  rewrite Hmem, Hmt.
  assert (arguments !! n = None) as Hnone by (by apply lookup_ge_None).
  destruct Hcase as [->|[->|[-> _]]].
  - rewrite bool_decide_eq_true_2 by (by left). rewrite Hnone. simpl.
    exists (S n). split; [lia|done].
  - rewrite bool_decide_eq_true_2 by (by right). rewrite Hnone. simpl.
    exists (S n). split; [lia|done].
  - rewrite bool_decide_eq_false_2 by (by intros [?|[? _]]).
    rewrite bool_decide_eq_true_2 by (by right).
    exists n. split; [lia|done].
Qed.

Lemma run_values modeStr arguments rest ws : forall c nm n,
  Forall (fun e => formattable (conn c) e.1 e.2 /\ e.2 <> "") ws ->
  (forall i e, ws !! i = Some e -> arguments !! (n + i)%nat = Some e.2) ->
  applyModes modeStr arguments (map fst ws ++ rest) (plusState c nm n) =
  applyModes modeStr arguments rest
    (plusState (overModes (insertAll ws) c) nm (n + length ws)).
Proof.
  induction ws as [|[mode value] ws IH]; intros c nm n Hws Hargs; simpl.
  - rewrite Nat.add_0_r. f_equal. unfold overModes, insertAll. simpl.
    destruct c as [? ? ? ? [m|]]; done.
  - apply Forall_cons in Hws as [[Hf Hv] Hws]. simpl in Hf, Hv.
    rewrite (applyMode_withValue _ _ _ _ _ _ value) by done.
    pose proof (Hargs 0%nat (mode, value) eq_refl) as Harg0.
    rewrite Nat.add_0_r in Harg0. simpl in Harg0. rewrite Harg0. simpl.
    rewrite setMode_overModes, IH.
    + rewrite overModes_compose. f_equal. f_equal. lia.
    + done.
    + intros i e He. replace (S n + i)%nat with (n + S i)%nat by lia.
      by apply Hargs.
Qed.

Lemma run_novalues modeStr arguments ns : forall c nm n,
  Forall (fun e => formattable (conn c) e.1 e.2 /\ e.2 = "") ns ->
  (length arguments <= n)%nat ->
  exists n',
    applyModes modeStr arguments (map fst ns) (plusState c nm n) =
    (plusState (overModes (insertAll ns) c) nm n', None).
Proof.
  induction ns as [|[mode value] ns IH]; intros c nm n Hns Hn; simpl.
  - exists n. f_equal. f_equal. unfold overModes, insertAll. simpl.
    destruct c as [? ? ? ? [m|]]; done.
  - apply Forall_cons in Hns as [[Hf Hv] Hns]. simpl in Hf, Hv. subst value.
    destruct (applyMode_noValue modeStr arguments c nm n mode Hf Hn)
      as (n1 & Hle & ->).
    rewrite setMode_overModes.
    destruct (IH (overModes (insert mode "") c) nm n1) as (n' & ->); [done|lia|].
    exists n'. by rewrite overModes_compose.
Qed.

(** X12: what [ChannelModes.Format] writes, [applyChannelModes] reads back.
    For a mode map whose letters are modes of the connection that take an
    argument when set (type B or C), or of type D and without value, and in
    whatever order [Format] meets the entries, applying the mode string and
    the parameters to a channel of that connection sets exactly these modes
    over the ones the channel had (nothing on a channel without mode map),
    without error and without any argument to marshal. *)
Theorem Format_applyChannelModes (c : upstreamChannel) (cm : ChannelModes)
    (entries : list (ascii * string)) :
  entries ≡ₚ map_to_list cm ->
  (forall mode value, cm !! mode = Some value -> formattable (conn c) mode value) ->
  applyChannelModes c (FormatModes entries).1 (FormatModes entries).2
  = (overModes (fun m => cm ∪ m) c, inr ∅).
Proof.
  intros Hperm Hfmt.
  assert (Forall (fun e => formattable (conn c) e.1 e.2) entries) as Hall.
  { apply Forall_forall. intros [mode value] Hin. apply Hfmt.
    apply elem_of_map_to_list. by rewrite <- Hperm. }
  set (ws := List.filter hasValue entries).
  set (ns := List.filter (fun e => negb (hasValue e)) entries).
  assert (FormatModes entries =
          ("+" +:+ string_of_list_ascii (map fst ws ++ map fst ns), map snd ws))
    as ->.
  { unfold FormatModes. rewrite formatLoop.
    - simpl. by rewrite string_of_list_ascii_app.
    - eapply Forall_impl; [exact Hall|]. by intros e (? & _). }
  unfold applyChannelModes. simpl fst. simpl snd.
  assert (list_ascii_of_string
            ("+" +:+ string_of_list_ascii (map fst ws ++ map fst ns))
          = "+"%char :: map fst ws ++ map fst ns) as ->.
  { rewrite append_cons. simpl. f_equal.
    apply list_ascii_of_string_of_list_ascii. }
  set (modeStr := "+" +:+ _).
  simpl. fold (plusState c ∅ 0).
  assert (Forall (fun e => formattable (conn c) e.1 e.2 /\ e.2 <> "") ws) as Hws.
  { apply Forall_forall. intros e [Hin Hv]%list_elem_of_In%filter_In. split.
    - rewrite Forall_forall in Hall. apply Hall. by apply list_elem_of_In.
    - unfold hasValue in Hv. apply negb_true_iff in Hv.
      by apply String.eqb_neq in Hv. }
  assert (Forall (fun e => formattable (conn c) e.1 e.2 /\ e.2 = "") ns) as Hns.
  { apply Forall_forall. intros e [Hin Hv]%list_elem_of_In%filter_In. split.
    - rewrite Forall_forall in Hall. apply Hall. by apply list_elem_of_In.
    - unfold hasValue in Hv. apply negb_true_iff, negb_false_iff in Hv.
      by apply String.eqb_eq in Hv. }
  rewrite (run_values modeStr (map snd ws) (map fst ns) ws c ∅ 0 Hws).
  2: { intros i e He. simpl. by rewrite list_lookup_fmap, He. }
  destruct (run_novalues modeStr (map snd ws) ns
              (overModes (insertAll ws) c) ∅ (0 + length ws)) as (n' & ->).
  { done. }
  { rewrite length_map. lia. }
  simpl. f_equal. rewrite overModes_compose.
  unfold overModes. f_equal. destruct (modes c) as [m0|]; [|done]. simpl. f_equal.
  rewrite !insertAll_union, (assoc_L (∪)), <- list_to_map_app, <- reverse_app.
  f_equal. rewrite <- (list_to_map_to_list cm).
  assert (reverse (ws ++ ns) ≡ₚ map_to_list cm) as Hp.
  { rewrite reverse_Permutation. unfold ws, ns. by rewrite filter_split. }
  apply list_to_map_proper; [|done].
  rewrite Hp. apply NoDup_fst_map_to_list.
Qed.

Lemma Format_applyChannelModes_witness :
  let cm : ChannelModes := <["k"%char := "secret"]> {["n"%char := ""]} in
  applyChannelModes stdChannel (FormatModes (map_to_list cm)).1
                    (FormatModes (map_to_list cm)).2
  = (overModes (fun m => cm ∪ m) stdChannel, inr ∅).
Proof.
  intros cm. apply Format_applyChannelModes; [done|].
  intros mode value
    [[<- <-]|[_ [<- <-]%lookup_singleton_Some]]%lookup_insert_Some.
  - split_and!; [by vm_compute|by intros [|]|by vm_compute|].
    exists ModeTypeB. split; [by vm_compute|by left].
  - split_and!; [by vm_compute|by intros [|]|by vm_compute|].
    exists ModeTypeD. split; [by vm_compute|by right; right].
Defined.

End format_facts.

(** ** What a MODE line leaves alone *)

Section modes_frame_facts.
Import Ircutil Bridge.

(** What every step of [applyChannelModes] keeps of the channel [c] it
    started from. *)
Definition modesFrame (arguments : list string) (c : upstreamChannel)
    (st : modeState) : Prop :=
  conn (ch st) = conn c /\ Name (ch st) = Name c /\ Status (ch st) = Status c /\
  dom (Members (ch st)) = dom (Members c) /\
  (modes (ch st) = None <-> modes c = None) /\
  ((forall k l, Members c !! k = Some l ->
      ranked (availableMemberships (conn c)) l) ->
   forall k l, Members (ch st) !! k = Some l ->
      ranked (availableMemberships (conn c)) l) /\
  (forall i, i ∈ needMarshaling st -> (i < length arguments)%nat).

Lemma setMode_frame c mode argument :
  conn (setMode c mode argument) = conn c /\
  Name (setMode c mode argument) = Name c /\
  Status (setMode c mode argument) = Status c /\
  Members (setMode c mode argument) = Members c /\
  (modes (setMode c mode argument) = None <-> modes c = None).
Proof. unfold setMode. destruct (modes c) eqn:E; simpl; by rewrite ?E. Qed.

Lemma deleteMode_frame c mode :
  conn (deleteMode c mode) = conn c /\
  Name (deleteMode c mode) = Name c /\
  Status (deleteMode c mode) = Status c /\
  Members (deleteMode c mode) = Members c /\
  (modes (deleteMode c mode) = None <-> modes c = None).
Proof. unfold deleteMode. destruct (modes c) eqn:E; simpl; by rewrite ?E. Qed.

Lemma modesFrame_channel arguments c st c' nm n pm :
  modesFrame arguments c st ->
  conn c' = conn (ch st) /\ Name c' = Name (ch st) /\ Status c' = Status (ch st) /\
  Members c' = Members (ch st) /\ (modes c' = None <-> modes (ch st) = None) ->
  (forall i, i ∈ nm -> i ∈ needMarshaling st) ->
  modesFrame arguments c (mkModeState c' nm n pm).
Proof.
  intros (Hc & Hn & Hs & Hd & Hm & Hr & Hi) (Hc' & Hn' & Hs' & Hmem & Hm') Hnm.
  unfold modesFrame. simpl. rewrite Hc', Hn', Hs', Hmem, Hm'.
  split_and!; try done. intros i Hin. by apply Hi, Hnm.
Qed.

Lemma applyMode_frame modeStr arguments c st mode st' :
  modesFrame arguments c st ->
  applyMode modeStr arguments st mode = inr st' ->
  modesFrame arguments c st'.
Proof.
  intros Hf. unfold applyMode.
  case_bool_decide as Hsign.
  { intros [= <-]. by apply (modesFrame_channel _ _ st). }
  case_bool_decide as Hpm; [done|].
  destruct (list_find _ _) as [[j membership]|] eqn:Hfind.
  - destruct (arguments !! nextArgument st) as [member|] eqn:Harg; [|done].
    intros [= <-].
    destruct Hf as (Hc & Hn & Hs & Hd & Hm & Hr & Hi).
    unfold modesFrame, updateMember. simpl.
    destruct (Members (ch st) !! member) as [ms|] eqn:Hms; simpl.
    + split_and!; try done.
      * by rewrite dom_insert_lookup_L.
      * intros Hall k l [[<- <-]|[_ Hl]]%lookup_insert_Some; [|by eapply Hr].
        specialize (Hr Hall _ _ Hms). rewrite Hc.
        destruct (bool_decide _); [|by apply Remove_ranked].
        apply Add_ranked; [|done].
        apply list_find_Some in Hfind as (Hl & _ & _). rewrite <- Hc.
        by eapply list_elem_of_lookup_2.
      * intros i [->%elem_of_singleton|Hin]%elem_of_union; [|by apply Hi].
        by eapply lookup_lt_Some.
    + split_and!; try done.
      intros i [->%elem_of_singleton|Hin]%elem_of_union; [|by apply Hi].
      by eapply lookup_lt_Some.
  - destruct (availableChannelModes _ !! mode) as [mt|]; [|by intros [= <-]].
    case_bool_decide.
    { intros [= <-]. apply (modesFrame_channel _ _ st); [done| |done].
      destruct (bool_decide _); [apply setMode_frame|apply deleteMode_frame]. }
    destruct (bool_decide (mt = ModeTypeC \/ mt = ModeTypeD)); [|by intros [= <-]].
    intros [= <-]. apply (modesFrame_channel _ _ st); [done| |done].
    destruct (bool_decide _); [apply setMode_frame|apply deleteMode_frame].
Qed.

Lemma applyModes_frame modeStr arguments c rest : forall st,
  modesFrame arguments c st ->
  modesFrame arguments c (applyModes modeStr arguments rest st).1.
Proof.
  induction rest as [|mode rest IH]; intros st Hf; simpl; [done|].
  destruct (applyMode modeStr arguments st mode) as [e|st'] eqn:Hstep; [done|].
  apply IH. by eapply applyMode_frame.
Qed.

(** X13: whatever the mode string and the arguments, and also when it
    fails, [applyChannelModes] leaves the connection, the name and the
    status of the channel alone, adds and removes no member, gives no mode
    map to a channel that has none (and takes none away), and keeps the
    memberships of every member sorted by rank without repetition if they
    were; the indices it reports for marshaling are indices of arguments. *)
Theorem applyChannelModes_frame (c : upstreamChannel) (modeStr : string)
    (arguments : list string) :
  let r := applyChannelModes c modeStr arguments in
  conn r.1 = conn c /\ Name r.1 = Name c /\ Status r.1 = Status c /\
  dom (Members r.1) = dom (Members c) /\
  (modes r.1 = None <-> modes c = None) /\
  ((forall k l, Members c !! k = Some l ->
      ranked (availableMemberships (conn c)) l) ->
   forall k l, Members r.1 !! k = Some l ->
      ranked (availableMemberships (conn c)) l) /\
  (forall nm i, r.2 = inr nm -> i ∈ nm -> (i < length arguments)%nat).
Proof.
  unfold applyChannelModes.
  pose proof (applyModes_frame modeStr arguments c (list_ascii_of_string modeStr)
                (mkModeState c ∅ 0 zero)) as Hf.
  destruct (applyModes _ _ _ _) as [st err]. simpl in *.
  destruct Hf as (Hc & Hn & Hs & Hd & Hm & Hr & Hi).
  { unfold modesFrame. simpl. split_and!; try done. }
  split_and!; try done.
  intros nm i Hnm Hin. destruct err; [done|]. injection Hnm as <-. by apply Hi.
Qed.

(** The number of mode letters of a mode string. *)
Definition letters (rest : list ascii) : nat :=
  length (List.filter
            (fun c => negb (bool_decide (c = "+"%char \/ c = "-"%char))) rest).

Lemma applyMode_nextArgument modeStr arguments st mode st' :
  applyMode modeStr arguments st mode = inr st' ->
  (nextArgument st' <= S (nextArgument st))%nat /\
  (mode = "+"%char \/ mode = "-"%char -> nextArgument st' = nextArgument st) /\
  (plusMinus st' = "+"%char \/ plusMinus st' = "-"%char).
Proof.
  unfold applyMode. case_bool_decide as Hsign.
  { intros [= <-]. simpl. split_and!; [lia|done|done]. }
  case_bool_decide as Hpm; [done|].
  assert (plusMinus st = "+"%char \/ plusMinus st = "-"%char) as Hset.
  { destruct (decide (plusMinus st = "+"%char)); [by left|].
    destruct (decide (plusMinus st = "-"%char)); [by right|]. by destruct Hpm. }
  destruct (list_find _ _) as [[j membership]|].
  - destruct (arguments !! nextArgument st); [|done].
    intros [= <-]. simpl. split_and!; [lia|done|done].
  - destruct (availableChannelModes _ !! mode) as [mt|];
      [|intros [= <-]; split_and!; [lia|done|done]].
    destruct (bool_decide (mt = ModeTypeB \/ _));
      [intros [= <-]; simpl; split_and!; [lia|done|done]|].
    destruct (bool_decide (mt = ModeTypeC \/ _));
      intros [= <-]; simpl; split_and!; try done; lia.
Qed.

Lemma applyModes_succeeds modeStr arguments rest : forall st,
  (plusMinus st = "+"%char \/ plusMinus st = "-"%char) \/
    match rest with [] => True | mode :: _ => mode = "+"%char \/ mode = "-"%char end ->
  (nextArgument st + letters rest <= length arguments)%nat ->
  (applyModes modeStr arguments rest st).2 = None.
Proof.
  induction rest as [|mode rest IH]; intros st Hsign Hargs; simpl; [done|].
  destruct (applyMode modeStr arguments st mode) as [e|st'] eqn:Hstep.
  - exfalso. revert Hstep. unfold applyMode. unfold letters in Hargs. simpl in Hargs.
    case_bool_decide as Hm; [done|]. simpl in Hargs.
    destruct Hsign as [Hpm|Hm']; [|done].
    rewrite bool_decide_eq_false_2 by (intros [? ?]; by destruct Hpm).
    destruct (list_find _ _) as [[j membership]|].
    + destruct (arguments !! nextArgument st) eqn:Harg; [done|].
      apply lookup_ge_None in Harg. lia.
    + destruct (availableChannelModes _ !! mode) as [mt|]; [|done].
      destruct (bool_decide (mt = ModeTypeB \/ _)); [done|].
      by destruct (bool_decide (mt = ModeTypeC \/ _)).
  - destruct (applyMode_nextArgument _ _ _ _ _ Hstep) as (Hle & Hsame & Hset).
    apply IH; [by left|].
    unfold letters in *. simpl in Hargs.
    case_bool_decide as Hm; simpl in Hargs.
    + rewrite (Hsame Hm). lia.
    + lia.
Qed.

(** The mode string is empty or begins with a sign. *)
Definition signedFirst (modeStr : string) : Prop :=
  match modeStr with
  | EmptyString => True
  | String mode _ => mode = "+"%char \/ mode = "-"%char
  end.

(** X14: [applyChannelModes] fails on a mode string that begins with a
    letter (it reports the mode string and has changed nothing), and
    succeeds on one that is empty or begins with a sign whenever there are
    at least as many arguments as mode letters. *)
Theorem applyChannelModes_errors (c : upstreamChannel) (modeStr : string)
    (arguments : list string) :
  (~ signedFirst modeStr ->
   applyChannelModes c modeStr arguments = (c, inl (MissingPlusMinus modeStr))) /\
  (signedFirst modeStr ->
   (letters (list_ascii_of_string modeStr) <= length arguments)%nat ->
   exists needMarshaling,
     (applyChannelModes c modeStr arguments).2 = inr needMarshaling).
Proof.
  unfold applyChannelModes. split.
  - destruct modeStr as [|mode rest]; [by intros []|].
    set (modeStr := String mode rest). simpl. intros Hm. unfold applyMode.
    by rewrite bool_decide_eq_false_2 by done.
  - intros Hs Hn.
    pose proof (applyModes_succeeds modeStr arguments
                  (list_ascii_of_string modeStr) (mkModeState c ∅ 0 zero)) as Hok.
    destruct (applyModes _ _ _ _) as [st err]. simpl in *.
    rewrite Hok; [by eexists| |done].
    right. by destruct modeStr.
Qed.

End modes_frame_facts.

(** ** Messages within the length limit *)

Section limit_facts.
Import Irc Ircutil Bridge.

(** X15: when the entry of every member (its prefixes and its marshaled
    nick) is non-empty and fits by itself into a NAMES reply, every
    RPL_NAMREPLY that [sendNames] sends is at most 512 bytes long, and the
    replies are followed by the one RPL_ENDOFNAMES. *)
Theorem sendNames_within_limit (dc : downstreamConn) (c : upstreamChannel)
    (members : list (string * Memberships)) :
  Forall (fun m => nameEntry dc m <> "" /\
                   len (nameEntry dc m) <= namesMaxLength dc c) members ->
  exists replies,
    sendNames dc c members = replies ++ [endOfNames dc c] /\
    Forall (fun m => Message.Command m = RPL_NAMREPLY /\
                     len (Message.String m) <= 512) replies.
Proof.
  intros Hms.
  destruct (sendNames_groups dc c members) as (groups & Hcat & Hsend & Hgroups).
  { eapply Forall_impl; [exact Hms|]. by intros m [? _]. }
  exists (map (groupReply dc c) groups). split; [done|].
  apply Forall_fmap, Forall_forall. intros g Hg. simpl. split; [done|].
  rewrite Forall_forall in Hgroups. destruct (Hgroups g Hg) as [Hne [Hone|Hfit]]; [|done].
  destruct g as [|m [|m' g]]; try done.
  apply groupReply_fits. unfold namesOf. simpl.
  rewrite Forall_forall in Hms. apply Hms.
  rewrite <- Hcat. apply list_elem_of_In, in_concat. exists [m].
  split; [by apply list_elem_of_In|by left].
Qed.

Lemma sendNames_within_limit_witness :
  exists replies,
    sendNames sampleDownstream stdChannel [("alice", []); ("bob", [])]
      = replies ++ [endOfNames sampleDownstream stdChannel] /\
    Forall (fun m => Message.Command m = RPL_NAMREPLY /\
                     len (Message.String m) <= 512) replies.
Proof.
  apply sendNames_within_limit.
  repeat (apply List.Forall_cons; [by vm_compute|]). apply List.Forall_nil.
Defined.

(** X16: when every channel name is non-empty, every key has no space and
    no leading colon, there are at least as many keys as channels, and each
    channel with its key fits by itself into a JOIN, every message of
    [Join] is a JOIN of at most 512 bytes. *)
Theorem Join_within_limit (channels keys : list string) :
  (length channels <= length keys)%nat ->
  Forall (fun ch => ch <> "") channels ->
  Forall plainKey keys ->
  Forall (fun ck : string * string => len ck.1 + len ck.2 <= joinMaxLength)
         (zip channels keys) ->
  exists msgs,
    Join channels keys = Some msgs /\
    Forall (fun m => Message.Command m = "JOIN" /\
                     len (Message.String m) <= 512) msgs.
Proof.
  intros Hlen Hch Hkeys Hfit. unfold Join.
  assert ((length keys <? length channels)%nat = false) as -> by (apply Nat.ltb_ge; lia).
  set (sorted := merge_sort joinLe (zip channels keys)).
  assert (sorted ≡ₚ zip channels keys) as Hperm by apply merge_sort_Permutation.
  assert (forall ck, ck ∈ sorted ->
            ck.1 <> "" /\ plainKey ck.2 /\ len ck.1 + len ck.2 <= joinMaxLength)
    as Hall.
  { intros [ch k] Hin. rewrite Hperm in Hin.
    rewrite Forall_forall in Hch. rewrite Forall_forall in Hkeys.
    rewrite Forall_forall in Hfit. split_and!.
    - apply Hch. by eapply elem_of_zip_l.
    - apply Hkeys. by eapply elem_of_zip_r.
    - by apply (Hfit (ch, k)). }
  destruct (joinSorted_groups sorted) as (groups & Hcat & Hjoin & Hgroups).
  { apply Forall_forall. intros ck Hin. by apply Hall. }
  exists (map groupJoin groups). split; [by rewrite Hjoin|].
  apply Forall_fmap, Forall_forall. intros g Hg. simpl. split; [done|].
  assert (forall ck, ck ∈ g -> ck ∈ sorted) as Hsub.
  { intros ck Hin. rewrite <- Hcat. apply list_elem_of_In, in_concat. exists g.
    split; by apply list_elem_of_In. }
  rewrite Forall_forall in Hgroups. destruct (Hgroups g Hg) as [Hne Hok].
  apply groupJoin_fits.
  - apply Forall_forall. intros ck Hin. by apply Hall, Hsub.
  - destruct Hok as [Hone|Hok]; [|done].
    destruct g as [|ck [|ck' g]]; try done.
    destruct (Hall ck) as (_ & _ & Hck); [apply Hsub; by left|].
    unfold keysOf. simpl. pose proof (len_nonneg ck.2).
    destruct (hasKey ck); unfold joinC; simpl; change (len "") with 0; lia.
Qed.

Lemma Join_within_limit_witness :
  exists msgs,
    Join ["#a"; "#b"] ["key"; ""] = Some msgs /\
    Forall (fun m => Message.Command m = "JOIN" /\
                     len (Message.String m) <= 512) msgs.
Proof.
  apply Join_within_limit.
  - simpl. lia.
  - repeat (apply List.Forall_cons; [done|]). apply List.Forall_nil.
  - repeat (apply List.Forall_cons; [done|]). apply List.Forall_nil.
  - repeat (apply List.Forall_cons; [by vm_compute|]). apply List.Forall_nil.
Defined.

End limit_facts.

(** ** The order of [joinSorter] *)

Section joinsorter_facts.
Import Ircutil.

Lemma ascii_compare_refl a : Ascii.compare a a = Eq.
Proof. unfold Ascii.compare. apply N.compare_refl. Qed.

Lemma string_compare_refl s : String.compare s s = Eq.
Proof.
  induction s as [|a s IH]; simpl; [done|]. by rewrite ascii_compare_refl.
Qed.

Lemma string_compare_cons a s b t :
  String.compare (String a s) (String b t) =
  match Ascii.compare a b with
  | Eq => String.compare s t
  | Lt => Lt
  | Gt => Gt
  end.
Proof. reflexivity. Qed.

Lemma string_compare_lt_trans s : forall t u,
  String.compare s t = Lt -> String.compare t u = Lt -> String.compare s u = Lt.
Proof.
  induction s as [|a s IH]; intros [|b t] [|c u]; try done.
  rewrite !string_compare_cons. unfold Ascii.compare.
  destruct (N.compare_spec (N_of_ascii a) (N_of_ascii b)) as [Hab|Hab|Hab]; [| |done];
    destruct (N.compare_spec (N_of_ascii b) (N_of_ascii c)) as [Hbc|Hbc|Hbc];
    try done.
  - rewrite Hab, Hbc, N.compare_refl. apply IH.
  - intros _ _. rewrite Hab. by apply N.compare_lt_iff in Hbc as ->.
  - intros _ _. rewrite <- Hbc. by apply N.compare_lt_iff in Hab as ->.
  - intros _ _. assert (N_of_ascii a < N_of_ascii c)%N as Hac by lia.
    by apply N.compare_lt_iff in Hac as ->.
Qed.

Lemma string_ltb_trans s t u :
  String.ltb s t = true -> String.ltb t u = true -> String.ltb s u = true.
Proof.
  unfold String.ltb. intros Hst Htu.
  rewrite (string_compare_lt_trans s t u); [done| |].
  - by destruct (String.compare s t).
  - by destruct (String.compare t u).
Qed.

(** [s >= t] and [t >= u] give [s >= u]. *)
Lemma string_geb_trans s t u :
  String.ltb s t = false -> String.ltb t u = false -> String.ltb s u = false.
Proof.
  unfold String.ltb. intros Hst Htu.
  destruct (String.compare s u) eqn:Hsu; try done. exfalso.
  destruct (String.compare t u) eqn:Htu'; [|done|].
  - apply String.compare_eq_iff in Htu' as ->. by rewrite Hsu in Hst.
  - rewrite String.compare_antisym in Htu'.
    destruct (String.compare u t) eqn:Hut; try done.
    by rewrite (string_compare_lt_trans s u t Hsu Hut) in Hst.
Qed.

(** X17: [joinSorter.Less] is a strict weak ordering on (channel, key)
    pairs, as [sort.Sort] expects: no pair is less than itself, [Less] is
    transitive, and so is its negation; a pair with a key is less than
    every pair without one. *)
Theorem joinLess_strict_weak_order :
  (forall a, joinLess a a = false) /\
  (forall a b c, joinLess a b = true -> joinLess b c = true -> joinLess a c = true) /\
  (forall a b c, joinLess a b = false -> joinLess b c = false -> joinLess a c = false) /\
  (forall a b, hasKey a = true -> hasKey b = false ->
               joinLess a b = true /\ joinLess b a = false).
Proof.
  unfold joinLess. split_and!.
  - intros a. destruct (hasKey a); simpl; unfold String.ltb;
      by rewrite string_compare_refl.
  - intros a b c. destruct (hasKey a), (hasKey b), (hasKey c); simpl; try done;
      apply string_ltb_trans.
  - intros a b c. destruct (hasKey a), (hasKey b), (hasKey c); simpl; try done;
      apply string_geb_trans.
  - intros a b -> ->. done.
Qed.

End joinsorter_facts.

(** ** What the tokenizer returns *)

Section tokenizer_facts.
Import Service.

(** The pieces a word of a command line is written with: a rune that stands
    for itself, a rune after a backslash, and a span between two quotes. *)
Inductive piece :=
  | Plain (r : rune)
  | Escaped (r : rune)
  | Span (q : rune) (content : list rune).

Definition pieceRunes (u : piece) : list rune :=
  match u with
  | Plain r => [r]
  | Escaped r => [r_backslash; r]
  | Span q content => q :: content ++ [q]
  end.

(** What the piece adds to the word. *)
Definition pieceValue (u : piece) : list rune :=
  match u with
  | Plain r => [r]
  | Escaped r => [r]
  | Span _ content => content
  end.

(** The last rune the loop reads of the piece. *)
Definition pieceLast (u : piece) : rune :=
  match u with
  | Plain r => r
  | Escaped r => r
  | Span q _ => q
  end.

Definition pieceOk (u : piece) : Prop :=
  match u with
  | Plain r =>
      IsSpace r = false /\ r <> r_backslash /\ r <> r_dquote /\ r <> r_squote
  | Escaped _ => True
  | Span q content =>
      (q = r_dquote \/ q = r_squote) /\
      Forall (fun r => r <> q /\ r <> r_backslash) content
  end.

Definition tokenRunes (t : list piece) : list rune := concat (map pieceRunes t).
Definition tokenValue (t : list piece) : list rune := concat (map pieceValue t).

(** A word as it is written: at least one piece, and no escaped white space
    at its end. *)
Definition tokenOk (t : list piece) : Prop :=
  Forall pieceOk t /\
  exists t' u, t = t' ++ [u] /\ IsSpace (pieceLast u) = false.

Definition between (st : splitState) : Prop :=
  escape st = false /\ wordDelim st = r_space.

Lemma last_cons_default {A} (x : A) l d : List.last (x :: l) d = List.last l x.
Proof.
  revert x d. induction l as [|y l IH]; intros x d; [done|].
  change (List.last (x :: y :: l) d) with (List.last (y :: l) d).
  by rewrite !IH.
Qed.

Lemma run_span q content : forall st,
  escape st = false -> wordDelim st = q -> (q = r_dquote \/ q = r_squote) ->
  Forall (fun r => r <> q /\ r <> r_backslash) content ->
  fold_left splitStep content st =
  SplitState (words st) (lastWord st ++ content) false
             (List.last content (prev st)) q.
Proof.
  induction content as [|r content IH]; intros st He Hd Hq Hc.
  - simpl. rewrite app_nil_r. destruct st. simpl in *. by subst.
  - apply Forall_cons in Hc as [[Hrq Hrb] Hc].
    simpl fold_left.
    assert (splitStep st r
            = SplitState (words st) (lastWord st ++ [r]) false r q) as ->.
    { unfold splitStep. rewrite He, Hd. simpl.
      assert ((r =? r_backslash) = false) as -> by (by apply Z.eqb_neq).
      assert ((q =? r_space) = false) as Hqs by (by destruct Hq as [-> | ->]).
      rewrite Hqs. simpl.
      assert ((r =? q) = false) as -> by (by apply Z.eqb_neq).
      destruct ((r =? r_dquote) || (r =? r_squote)); simpl;
        by rewrite ?He, ?Hd, ?Hqs. }
    rewrite IH; [|done..]. rewrite last_cons_default. simpl.
    by rewrite <- app_assoc.
Qed.

Lemma run_piece u st :
  between st -> pieceOk u ->
  fold_left splitStep (pieceRunes u) st =
  SplitState (words st) (lastWord st ++ pieceValue u) false (pieceLast u) r_space.
Proof.
  intros [He Hd] Hu. destruct u as [r|r|q content]; simpl in *.
  - destruct Hu as (Hs & Hb & Hdq & Hsq). unfold splitStep. rewrite He, Hd. simpl.
    assert ((r =? r_backslash) = false) as -> by (by apply Z.eqb_neq).
    rewrite Hs. simpl.
    assert ((r =? r_space) = false) as ->.
    { apply Z.eqb_neq. by intros ->. }
    assert ((r =? r_dquote) = false) as -> by (by apply Z.eqb_neq).
    assert ((r =? r_squote) = false) as -> by (by apply Z.eqb_neq).
    simpl. by rewrite ?He, ?Hd.
  - unfold splitStep at 2. rewrite He. simpl.
    unfold splitStep. simpl. by rewrite ?Hd.
  - destruct Hu as [Hq Hc].
    rewrite fold_left_app. simpl.
    set (st1 := splitStep st q).
    assert (st1 = SplitState (words st) (lastWord st) false q q) as Hst1.
    { unfold st1, splitStep. rewrite He, Hd. simpl.
      by destruct Hq as [-> | ->]. }
    rewrite (run_span q content st1);
      [|by rewrite Hst1|by rewrite Hst1|done|done].
    rewrite Hst1. unfold splitStep. simpl.
    assert ((q =? r_backslash) = false) as -> by (by destruct Hq as [-> | ->]).
    assert ((q =? r_space) = false) as -> by (by destruct Hq as [-> | ->]).
    simpl. by rewrite Z.eqb_refl.
Qed.

Lemma run_token t : forall st,
  between st -> Forall pieceOk t ->
  fold_left splitStep (tokenRunes t) st =
  SplitState (words st) (lastWord st ++ tokenValue t) false
             (List.last (map pieceLast t) (prev st)) r_space.
Proof.
  unfold tokenRunes, tokenValue.
  induction t as [|u t IH]; intros st [He Hd] Ht.
  - simpl. rewrite app_nil_r. destruct st. simpl in *. by subst.
  - apply Forall_cons in Ht as [Hu Ht]. simpl concat.
    rewrite fold_left_app, (run_piece u st) by done.
    rewrite IH by done. simpl map. rewrite last_cons_default. simpl.
    by rewrite <- app_assoc.
Qed.

Lemma run_spaces sep : forall st,
  between st -> IsSpace (prev st) = true ->
  Forall (fun r => IsSpace r = true) sep ->
  fold_left splitStep sep st =
  SplitState (words st) (lastWord st) false (List.last sep (prev st)) r_space.
Proof.
  induction sep as [|r sep IH]; intros st [He Hd] Hp Hsep.
  - simpl. destruct st. simpl in *. by subst.
  - apply Forall_cons in Hsep as [Hr Hsep]. simpl fold_left.
    assert (splitStep st r = SplitState (words st) (lastWord st) false r r_space)
      as ->.
    { unfold splitStep. rewrite He, Hd, Hr, Hp. simpl.
      assert ((r =? r_backslash) = false) as ->.
      { apply Z.eqb_neq. by intros ->. }
      simpl. by rewrite ?He, ?Hd. }
    rewrite IH; [|done|done|done]. by rewrite last_cons_default.
Qed.

(** White space after a word ends the word. *)
Lemma run_separator r sep st :
  between st -> IsSpace (prev st) = false ->
  Forall (fun r => IsSpace r = true) (r :: sep) ->
  fold_left splitStep (r :: sep) st =
  SplitState (words st ++ [lastWord st]) [] false (List.last sep r) r_space.
Proof.
  intros [He Hd] Hp [Hr Hsep]%Forall_cons. simpl fold_left.
  assert (splitStep st r = SplitState (words st ++ [lastWord st]) [] false r r_space)
    as ->.
  { unfold splitStep. rewrite He, Hd, Hr, Hp. simpl.
    assert ((r =? r_backslash) = false) as ->.
    { apply Z.eqb_neq. by intros ->. }
    simpl. by rewrite ?He, ?Hd. }
  by rewrite run_spaces.
Qed.

Lemma last_spaces sep d :
  IsSpace d = true -> Forall (fun r => IsSpace r = true) sep ->
  IsSpace (List.last sep d) = true.
Proof.
  intros Hd Hsep. revert d Hd.
  induction sep as [|r sep IH]; intros d Hd; [done|].
  apply Forall_cons in Hsep as [Hr Hsep].
  rewrite last_cons_default. by apply IH.
Qed.

Lemma last_token t d :
  tokenOk t -> IsSpace (List.last (map pieceLast t) d) = false.
Proof.
  intros (_ & t' & u & -> & Hu). rewrite map_app. simpl.
  by rewrite List.last_last.
Qed.

(** A word followed by the white space that ends it. *)
Definition itemRunes (item : list piece * list rune) : list rune :=
  tokenRunes item.1 ++ item.2.

Definition itemOk (item : list piece * list rune) : Prop :=
  tokenOk item.1 /\ item.2 <> [] /\ Forall (fun r => IsSpace r = true) item.2.

Lemma run_items items : forall st,
  between st -> IsSpace (prev st) = true -> lastWord st = [] ->
  Forall itemOk items ->
  exists p, IsSpace p = true /\
    fold_left splitStep (concat (map itemRunes items)) st =
    SplitState (words st ++ map (fun item => tokenValue item.1) items) []
               false p r_space.
Proof.
  induction items as [|[t sep] items IH]; intros st [He Hd] Hp Hl Hitems.
  - exists (prev st). split; [done|]. simpl. rewrite app_nil_r.
    destruct st. simpl in *. by subst.
  - apply Forall_cons in Hitems as [(Ht & Hne & Hsep) Hitems]. simpl in Ht, Hne, Hsep.
    simpl concat. unfold itemRunes at 1. simpl.
    rewrite !fold_left_app, (run_token t st) by (done || apply Ht).
    destruct sep as [|r sep]; [done|].
    rewrite run_separator; [|done|by apply last_token|done]. simpl.
    apply Forall_cons in Hsep as [Hr Hsep].
    edestruct IH as (p & Hp' & ->); [| | |exact Hitems|].
    + done.
    + simpl. by apply last_spaces.
    + done.
    + exists p. split; [done|]. simpl. rewrite Hl. simpl.
      by rewrite <- app_assoc.
Qed.

Definition finalRunes (final : option (list piece)) : list rune :=
  match final with Some t => tokenRunes t | None => [] end.

Definition finalWords (final : option (list piece)) : list (list rune) :=
  match final with Some t => [tokenValue t] | None => [] end.

(** X18: a command line made of leading white space, words that are each
    followed by white space, and possibly a last word, where a word is
    written with plain runes, runes after a backslash and spans between
    quotes (with no backslash and not that quote inside) and does not end
    with an escaped white space, is split without error into the values of
    its words: the runes without the backslashes and the quotes. *)
Theorem splitWords_words (lead : list rune)
    (items : list (list piece * list rune)) (final : option (list piece)) :
  Forall (fun r => IsSpace r = true) lead ->
  Forall itemOk items ->
  (forall t, final = Some t -> tokenOk t) ->
  splitWords (lead ++ concat (map itemRunes items) ++ finalRunes final)
  = (map (fun item => tokenValue item.1) items ++ finalWords final, None).
Proof.
  intros Hlead Hitems Hfinal. unfold splitWords, splitLoop.
  rewrite !fold_left_app.
  rewrite (run_spaces lead splitInit); [|done|done|done]. simpl.
  edestruct (run_items items) as (p & Hp & ->); [| | |exact Hitems|].
  { done. }
  { simpl. by apply last_spaces. }
  { done. }
  simpl. destruct final as [t|]; simpl.
  - rewrite run_token; [|done|by apply Hfinal]. simpl.
    by rewrite last_token by (by apply Hfinal).
  - by rewrite Hp, app_nil_r.
Qed.

(** The line [ net  <dq>a b<dq><bs> c] (with a double quote for [<dq>] and
    a backslash for [<bs>]) has the two words [net] and [a b c]. *)
Lemma splitWords_words_witness :
  splitWords (runes_of_string
                (" net  " +:+ String dquote ("a b" +:+ String dquote
                                (String backslash " c"))))
  = ([runes_of_string "net"; runes_of_string "a b c"], None).
Proof.
  refine (splitWords_words [32]
            [([Plain 110; Plain 101; Plain 116], [32; 32])]
            (Some [Span 34 [97; 32; 98]; Escaped 32; Plain 99]) _ _ _).
  - by repeat constructor.
  - constructor; [|constructor]. split_and!; [| |by repeat constructor].
    + split; [by repeat constructor|].
      by exists [Plain 110; Plain 101], (Plain 116).
    + done.
  - intros t [= <-]. split.
    + constructor; [|by repeat constructor].
      split; [by left|]. by repeat constructor.
    + by exists [Span 34 [97; 32; 98]; Escaped 32], (Plain 99).
Defined.

(** X19: the loop tests the last rune read, escaped or not.  A word written
    with an escaped white space at its end is therefore not ended by the
    white space that follows: at the end of the line the word is dropped,
    and before another word the two are returned as one word. *)
Theorem splitWords_escaped_space (t' : list piece) (r : rune)
    (sep : list rune) (t2 : list piece) :
  Forall pieceOk t' -> IsSpace r = true ->
  Forall (fun r => IsSpace r = true) sep -> tokenOk t2 ->
  let t1 := t' ++ [Escaped r] in
  splitWords (tokenRunes t1 ++ sep) = ([], None) /\
  splitWords (tokenRunes t1 ++ sep ++ tokenRunes t2)
  = ([tokenValue t1 ++ tokenValue t2], None).
Proof.
  intros Ht' Hr Hsep Ht2 t1.
  assert (Forall pieceOk t1) as Ht1.
  { apply Forall_app. split; [done|]. by constructor. }
  assert (fold_left splitStep (tokenRunes t1 ++ sep) splitInit
          = SplitState [] (tokenValue t1) false (List.last sep r) r_space) as Hrun.
  { rewrite fold_left_app, run_token; [|done|done].
    unfold t1 at 2. rewrite map_app. simpl map. rewrite List.last_last.
    by rewrite run_spaces. }
  unfold splitWords, splitLoop. split.
  - rewrite Hrun. simpl. by rewrite last_spaces.
  - rewrite app_assoc, fold_left_app, Hrun, run_token; [|done|apply Ht2]. simpl.
    by rewrite last_token.
Qed.

Lemma splitWords_escaped_space_witness :
  splitWords (runes_of_string ("a" +:+ String backslash "  ")) = ([], None) /\
  splitWords (runes_of_string ("a" +:+ String backslash "  b"))
  = ([runes_of_string "a b"], None).
Proof.
  refine (splitWords_escaped_space [Plain 97] 32 [32] [Plain 98] _ _ _ _).
  - by repeat constructor.
  - done.
  - by repeat constructor.
  - split; [by repeat constructor|]. by exists [], (Plain 98).
Defined.

End tokenizer_facts.

(** ** More on the dispatch of service commands *)

Section dispatch_more_facts.
Import Service.

#[local] Existing Instance isPrefixOf_dec.

Lemma resolve_prefix cmds name cmd :
  resolve cmds name = inr cmd ->
  exists k, (k, cmd) ∈ cmds /\ isPrefixOf name k.
Proof.
  unfold resolve. destruct (lookupCmd cmds name) as [c|] eqn:Hl.
  - intros [= ->]. exists name. split; [by apply lookupCmd_Some_elem|].
    apply prefix_refl.
  - rewrite prefixScan_spec.
    destruct (filter _ cmds) as [|[k c] [|? ?]] eqn:Hf; try done.
    intros [= <-]. exists k.
    assert ((k, c) ∈ filter (fun nc : string * serviceCommand =>
              isPrefixOf name nc.1) cmds) as Hin by (rewrite Hf; left).
    apply list_elem_of_filter in Hin as [? ?]. by split.
Qed.

(** The command at the end of a path of names in the tree. *)
Inductive reaches : serviceCommandSet -> list string -> serviceCommand -> Prop :=
  | reaches_one cmds name cmd :
      (name, cmd) ∈ cmds -> reaches cmds [name] cmd
  | reaches_more cmds name c path cmd :
      (name, c) ∈ cmds -> reaches (children c) path cmd ->
      reaches cmds (name :: path) cmd.

(** X20: when [Get] succeeds, the parameters it returns are the end of the
    words it was given; the words before them, at least one, are each a
    prefix of (or equal to) the name of a command on a path of the tree that
    ends at the command returned; and parameters are left over only for a
    command without subcommands. *)
Theorem Get_sound (cmds : serviceCommandSet) (params : list string)
    (cmd : serviceCommand) (rest : list string) :
  Get cmds params = inr (cmd, rest) ->
  exists used names,
    params = used ++ rest /\ used <> [] /\
    Forall2 isPrefixOf used names /\ reaches cmds names cmd /\
    (rest = [] \/ children cmd = []).
Proof.
  revert cmds. induction params as [|name params IH]; intros cmds; [done|].
  rewrite Get_cons. destruct (resolve cmds name) as [e|c] eqn:Hr; [done|].
  apply resolve_prefix in Hr as (k & Hk & Hpre). unfold descend.
  destruct ((length params =? 0)%nat || (length (children c) =? 0)%nat) eqn:Hstop.
  - intros [= <- <-]. exists [name], [k]. split_and!; try done.
    + by repeat constructor.
    + by constructor.
    + apply orb_true_iff in Hstop as [Hp%Nat.eqb_eq|Hc%Nat.eqb_eq].
      * left. by destruct params.
      * right. by destruct (children c).
  - intros (used & names & -> & Hne & Hf2 & Hreach & Hrest)%IH.
    exists (name :: used), (k :: names). split_and!; try done.
    + by constructor.
    + by apply (reaches_more _ _ c).
Qed.

Lemma Get_sound_witness :
  exists used names,
    ["net"; "cr"; "-addr"; "example.org"] = used ++ ["-addr"; "example.org"] /\
    used <> [] /\ Forall2 isPrefixOf used names /\
    reaches serviceCommands names
      (leaf "-addr <addr> [-name name] [-username username] [-pass pass] [-realname realname] [-nick nick] [-enabled enabled] [-connect-command command]..."
            "add a new network" fn_handleServiceNetworkCreate false) /\
    (["-addr"; "example.org"] = [] \/
     children (leaf "-addr <addr> [-name name] [-username username] [-pass pass] [-realname realname] [-nick nick] [-enabled enabled] [-connect-command command]..."
            "add a new network" fn_handleServiceNetworkCreate false) = []).
Proof.
  apply (Get_sound serviceCommands ["net"; "cr"; "-addr"; "example.org"]).
  reflexivity.
Defined.

Lemma lookupCmd_Permutation cmds cmds' name :
  wfSet cmds -> cmds ≡ₚ cmds' -> lookupCmd cmds' name = lookupCmd cmds name.
Proof.
  intros Hwf Hperm.
  assert (wfSet cmds') as Hwf'.
  { unfold wfSet, Names0 in *. by rewrite <- Hperm. }
  destruct (lookupCmd cmds name) as [c|] eqn:Hl.
  - apply lookupCmd_elem; [done|]. rewrite <- Hperm. by apply lookupCmd_Some_elem.
  - apply lookupCmd_None. apply lookupCmd_None in Hl.
    unfold Names0 in *. by rewrite <- Hperm.
Qed.

Lemma resolve_Permutation cmds cmds' name :
  wfSet cmds -> cmds ≡ₚ cmds' -> resolve cmds' name = resolve cmds name.
Proof.
  intros Hwf Hperm. unfold resolve.
  rewrite (lookupCmd_Permutation cmds cmds') by done.
  destruct (lookupCmd cmds name); [done|].
  rewrite !prefixScan_spec.
  assert (filter (fun nc : string * serviceCommand => isPrefixOf name nc.1) cmds
          ≡ₚ filter (fun nc : string * serviceCommand => isPrefixOf name nc.1) cmds')
    as Hf by (by rewrite Hperm).
  pose proof (Permutation_length Hf) as Hlen.
  destruct (filter _ cmds) as [|nc [|nc2 l]],
           (filter _ cmds') as [|nc' [|nc2' l']]; try done.
  by apply Permutation_length_1 in Hf as ->.
Qed.

(** X21: the result of [Get] does not depend on the order in which the
    loop over the map meets the commands: for a set of commands with
    distinct names, any two orders give the same command and parameters, or
    the same error. *)
Theorem Get_order_independent (cmds cmds' : serviceCommandSet)
    (params : list string) :
  wfSet cmds -> cmds ≡ₚ cmds' -> Get cmds' params = Get cmds params.
Proof.
  intros Hwf Hperm. destruct params as [|name params]; [done|].
  by rewrite !Get_cons, (resolve_Permutation cmds cmds').
Qed.

Lemma Get_order_independent_witness :
  Get (reverse serviceCommands) ["net"; "cr"] = Get serviceCommands ["net"; "cr"].
Proof.
  apply Get_order_independent.
  - unfold wfSet. apply (bool_decide_unpack _). by vm_compute.
  - symmetry. apply reverse_Permutation.
Defined.

(** X22: the commands listed by [appendServiceCommandSetHelp] are exactly
    the paths of the tree, written after the prefix, that end at a command
    without subcommands and go through no admin-only command unless the
    user is an admin. *)
Theorem help_listing_exact (isAdmin : bool) (cmds : serviceCommandSet)
    (prefix : list string) (e : string) :
  e ∈ appendServiceCommandSetHelp cmds prefix isAdmin <->
  exists path, visiblePath isAdmin cmds path /\
               e = String.concat " " (prefix ++ path).
Proof.
  split; [apply listing_visible|].
  intros (path & Hpath & ->). revert prefix.
  induction Hpath as [cmds name cmd Hl Hadm Hch|cmds name cmd path Hl Hadm Hch Hpath IH];
    intros prefix.
  - rewrite appendServiceCommandSetHelp_unfold, list_elem_of_In, in_flat_map.
    exists name. split.
    + apply list_elem_of_In. unfold Names, sortStrings.
      rewrite merge_sort_Permutation. apply list_elem_of_fmap.
      exists (name, cmd). split; [done|]. by apply lookupCmd_Some_elem.
    + unfold helpItem. rewrite Hl, Hadm, Hch. simpl. by left.
  - rewrite appendServiceCommandSetHelp_unfold, list_elem_of_In, in_flat_map.
    exists name. split.
    + apply list_elem_of_In. unfold Names, sortStrings.
      rewrite merge_sort_Permutation. apply list_elem_of_fmap.
      exists (name, cmd). split; [done|]. by apply lookupCmd_Some_elem.
    + unfold helpItem. rewrite Hl, Hadm.
      assert ((length (children cmd) =? 0)%nat = false) as ->.
      { apply Nat.eqb_neq. by destruct (children cmd). }
      apply list_elem_of_In. specialize (IH (prefix ++ [name])).
      by rewrite <- app_assoc in IH.
Qed.

End dispatch_more_facts.

(** ** Networks read back *)

Section database_network_facts.
Import Database.

(** The separator occurs in the string. *)
Fixpoint hasCRLF (s : string) : bool :=
  match s with
  | EmptyString => false
  | String a s' =>
      match s' with
      | String b _ => (Ascii.eqb a cr && Ascii.eqb b lf) || hasCRLF s'
      | EmptyString => false
      end
  end.

Definition noLeadingLF (s : string) : Prop :=
  match s with
  | String b _ => b <> lf
  | EmptyString => True
  end.

Lemma splitCRLF_word w : forall rest cur,
  hasCRLF w = false -> noLeadingLF rest ->
  splitCRLF (w +:+ rest) cur = splitCRLF rest (cur +:+ w).
Proof.
  induction w as [|a w IH]; intros rest cur Hw Hrest.
  - by rewrite append_empty_r.
  - rewrite append_cons.
    assert (splitCRLF (String a (w +:+ rest)) cur
            = splitCRLF (w +:+ rest) (cur +:+ String a "")) as ->.
    { destruct w as [|b w].
      - change ("" +:+ rest) with rest.
        destruct rest as [|b rest]; [done|]. simpl in Hrest. simpl.
        assert (Ascii.eqb b lf = false) as -> by (by apply Ascii.eqb_neq).
        by rewrite andb_false_r.
      - rewrite append_cons. simpl in Hw. apply orb_false_iff in Hw as [Hab _].
        simpl. by rewrite Hab. }
    rewrite IH, append_assoc; [done| |done].
    destruct w as [|b w]; [done|]. simpl in Hw. by apply orb_false_iff in Hw as [_ ?].
Qed.

Lemma splitCRLF_join cmds :
  cmds <> [] -> Forall (fun c => hasCRLF c = false) cmds ->
  splitCRLF (String.concat crlf cmds) "" = cmds.
Proof.
  induction cmds as [|c cmds IH]; [done|]. intros _ [Hc Hcmds]%Forall_cons.
  destruct cmds as [|c2 cmds].
  - simpl. rewrite <- (append_empty_r c) at 1. by rewrite splitCRLF_word.
  - change (String.concat crlf (c :: c2 :: cmds))
      with (c +:+ crlf +:+ String.concat crlf (c2 :: cmds)).
    rewrite splitCRLF_word; [|done|by vm_compute].
    change (crlf +:+ String.concat crlf (c2 :: cmds))
      with (String cr (String lf (String.concat crlf (c2 :: cmds)))).
    simpl splitCRLF. f_equal. by apply IH.
Qed.

(** Commands that survive being joined with CRLF, stored and split again:
    none contains the separator, and they are not the single empty
    command (which is stored as NULL). *)
Definition storableCommands (cmds : list string) : Prop :=
  Forall (fun c => hasCRLF c = false) cmds /\ cmds <> [""].

Lemma commands_roundtrip cmds :
  storableCommands cmds ->
  match toNullString (String.concat crlf cmds) with
  | Some commands => splitCRLF commands ""
  | None => []
  end = cmds.
Proof.
  intros [Hcr Hne]. destruct cmds as [|c cmds]; [done|].
  unfold toNullString.
  destruct (String.eqb_spec (String.concat crlf (c :: cmds)) "") as [He|He].
  - exfalso. destruct cmds as [|c2 cmds].
    + simpl in He. by subst.
    + change (String.concat crlf (c :: c2 :: cmds))
        with (c +:+ crlf +:+ String.concat crlf (c2 :: cmds)) in He.
      apply (f_equal len) in He. rewrite !len_append in He.
      pose proof (len_nonneg c). pose proof (len_nonneg (String.concat crlf (c2 :: cmds))).
      change (len crlf) with 2 in He. change (len "") with 0 in He. lia.
  - by apply splitCRLF_join.
Qed.

Lemma ListNetworks_elem db userID x :
  x ∈ (ListNetworks [] db userID).1 <->
  exists k r, tNetwork db !! k = Some r /\ n_user r = userID /\
              x = networkOfRow k r.
Proof.
  unfold ListNetworks. rewrite !fault_nil. simpl. rewrite list_elem_of_fmap. split.
  - intros ([k r] & -> & Hin). apply elem_of_map_to_list in Hin.
    apply map_lookup_filter_Some in Hin as [Hl Hn]. by exists k, r.
  - intros (k & r & Hl & Hn & ->). exists (k, r). split; [done|].
    apply elem_of_map_to_list. by apply map_lookup_filter_Some.
Qed.

(** The columns [networkOfRow] reads are those the UPDATE sets. *)
Lemma networkOfRow_setNetwork id args old :
  networkOfRow id (setNetwork args old) = networkOfRow id args.
Proof. done. Qed.

(** What is read back of the SASL settings: the plain credentials only
    under PLAIN. *)
Definition readableSASL (s : SASL.t) : Prop :=
  SASL.Mechanism s = "PLAIN" \/
  (SASL.PlainUsername s = "" /\ SASL.PlainPassword s = "").

(** X24: a network stored by a successful [StoreNetwork] for a user (a new
    one, or one whose row exists and belongs to that user), whose connect
    commands contain no CRLF and are not the single empty command, and
    whose plain credentials are empty unless the mechanism is PLAIN, is
    returned by [ListNetworks] for that user exactly as the store leaves
    the record; the networks with other ids are listed as before. *)
Theorem StoreNetwork_ListNetworks (fl : faults) (db db' : SqliteDB)
    (userID : Z) (network network' : Network.t) :
  StoreNetwork fl db userID network = (db', network', None) ->
  (Network.ID network = 0 \/
   exists old, tNetwork db !! Network.ID network = Some old /\ n_user old = userID) ->
  storableCommands (Network.ConnectCommands network) ->
  readableSASL (Network.SASL network) ->
  network' ∈ (ListNetworks [] db' userID).1 /\
  (forall u x, Network.ID x <> Network.ID network' ->
     x ∈ (ListNetworks [] db' u).1 <-> x ∈ (ListNetworks [] db u).1).
Proof.
  intros Hs Hrow Hcmds Hsasl.
  assert (exists args,
            execStoreNetwork fl db (storedNetwork network) args = (db', network', None) /\
            n_user args = userID /\
            forall id, networkOfRow id args
                       = Network.withID (storedNetwork network) id)
    as (args & Hexec & Huser & Hread).
  { revert Hs. unfold StoreNetwork, storedNetwork.
    destruct network as [id name addr nick username realname pass cmds
                           [mech pu pp cert key] enabled].
    simpl in *. unfold readableSASL in Hsasl. simpl in Hsasl.
    destruct (String.eqb_spec mech "") as [->|Hne]; simpl.
    - destruct Hsasl as [?|[-> ->]]; [done|].
      intros Hs. eexists. split; [exact Hs|]. split; [done|]. intros id'.
      unfold networkOfRow, networkRow, Network.withID. simpl.
      by rewrite !fromNullString_toNullString, commands_roundtrip.
    - destruct (String.eqb_spec mech "PLAIN") as [->|Hnp]; simpl.
      + intros Hs. eexists. split; [exact Hs|]. split; [done|]. intros id'.
        unfold networkOfRow, networkRow, Network.withID. simpl.
        by rewrite !fromNullString_toNullString, commands_roundtrip.
      + destruct (String.eqb_spec mech "EXTERNAL") as [->|Hnx]; [|done].
        destruct Hsasl as [?|[-> ->]]; [done|].
        intros Hs. eexists. split; [exact Hs|]. split; [done|]. intros id'.
        unfold networkOfRow, networkRow, Network.withID. simpl.
        by rewrite !fromNullString_toNullString, commands_roundtrip. }
  assert (Network.ID (storedNetwork network) = Network.ID network) as Hid.
  { unfold storedNetwork. by destruct (String.eqb _ _). }
  assert (exists row,
            tNetwork db' !! Network.ID network' = Some row /\
            n_user row = userID /\ networkOfRow (Network.ID network') row = network' /\
            forall k, k <> Network.ID network' -> tNetwork db' !! k = tNetwork db !! k)
    as (row & Hl & Hu & Hrd & Hother).
  { destruct (decide (Network.ID network = 0)) as [Hz|Hnz].
    - destruct (execStoreNetwork_insert _ _ _ _ _ _ ltac:(by rewrite Hid) Hexec)
        as (_ & _ & Ht & Hn').
      exists args. split_and!; [| done | |].
      + rewrite Ht. apply lookup_insert_eq.
      + by rewrite Hread, <- Hn'.
      + intros k Hk. rewrite Ht. by apply lookup_insert_ne.
    - destruct Hrow as [?|(old & Hold & Hou)]; [done|].
      destruct (execStoreNetwork_update _ _ _ _ _ _ ltac:(by rewrite Hid) Hexec)
        as (_ & -> & Ho & Hn).
      rewrite Hid in *. exists (setNetwork args old). split_and!; [| done | |].
      + by rewrite Hn, Hold.
      + rewrite networkOfRow_setNetwork, Hread, <- Hid.
        by destruct (storedNetwork network).
      + done. }
  split.
  - apply ListNetworks_elem. by exists (Network.ID network'), row.
  - intros u x Hne. rewrite !ListNetworks_elem.
    split; intros (k & r & Hk & Hur & ->); exists k, r; simpl in Hne;
      (split_and!; [|done|done]).
    + by rewrite <- Hother.
    + by rewrite Hother.
Qed.

Definition libera : Network.t :=
  Network.mk 0 "libera" "ircs://irc.libera.chat" "bob" "" "" ""
    ["PRIVMSG NickServ :identify x"; "MODE bob +i"]
    (SASL.mk "PLAIN" "bob" "secret" (Some ["c"%char]) None) true.

Lemma StoreNetwork_ListNetworks_witness :
  Network.withID
    (Network.withSASL libera (SASL.mk "PLAIN" "bob" "secret" None None)) 21
    ∈ (ListNetworks [] (StoreNetwork [] sampleDB 2 libera).1.1 2).1.
Proof.
  destruct (StoreNetwork [] sampleDB 2 libera) as [[db' network'] err] eqn:Hs.
  assert (err = None /\
          network' = Network.withID
            (Network.withSASL libera (SASL.mk "PLAIN" "bob" "secret" None None)) 21)
    as [-> <-].
  { by vm_compute in Hs; injection Hs as _ <- <-. }
  refine (proj1 (StoreNetwork_ListNetworks [] sampleDB db' 2 libera _ Hs _ _ _)).
  - by left.
  - split; [|done]. by repeat constructor.
  - by left.
Defined.

End database_network_facts.

(** ** Schema upgrade *)

Section upgrade_facts.
Import Database.

Lemma execAll_nil n stmts : execAll [] n stmts = None.
Proof.
  revert n. induction stmts as [|s stmts IH]; intros n; simpl; [done|].
  by rewrite fault_nil.
Qed.

(** The migrations still to run on a schema of the given version. *)
Definition pending (version : Z) : list ddl :=
  map Migration (seq (Z.to_nat version) (migrationCount - Z.to_nat version)).

(** X25: [upgrade] is atomic and brings the schema to the current version.
    Unless it succeeds the database is as before.  When it succeeds the
    version is the number of migrations and a further [upgrade] does
    nothing; from a version that is neither 0 nor current, exactly the
    migrations from that version on were run, in order, followed by the
    change of version.  Without a failure of the driver it succeeds exactly
    from a version between 0 and the number of migrations, and panics on a
    negative one. *)
Theorem upgrade_outcome (fl : faults) (st : schemaState) :
  let r := upgrade fl st in
  let current := Z.of_nat migrationCount in
  (r.2 <> UpgradeOk -> r.1 = st) /\
  (r.2 = UpgradeOk ->
     user_version r.1 = current /\ upgrade [] r.1 = (r.1, UpgradeOk) /\
     (user_version st = current -> r.1 = st) /\
     (user_version st = 0 ->
        applied r.1 = applied st ++ [InitSchema; SetUserVersion current]) /\
     (user_version st <> 0 -> user_version st <> current ->
        applied r.1 = applied st ++ pending (user_version st)
                                 ++ [SetUserVersion current])) /\
  ((upgrade [] st).2 = UpgradeOk <-> 0 <= user_version st <= current) /\
  ((upgrade [] st).2 = UpgradePanic <-> user_version st < 0).
Proof.
  intros r current. subst r. unfold upgrade. fold current. split_and!.
  - destruct (fault 0 fl); [done|].
    destruct (user_version st =? current); [done|].
    destruct (current <? user_version st); [done|].
    destruct (fault 1 fl); [done|].
    destruct (negb _ && _); [done|].
    destruct (execAll _ _ _); [done|].
    by destruct (fault _ fl).
  - destruct (fault 0 fl); [done|].
    destruct (user_version st =? current) eqn:Hv.
    { intros _. simpl. rewrite Hv. apply Z.eqb_eq in Hv.
      split_and!; try done; intros; unfold current, migrationCount in *; lia. }
    apply Z.eqb_neq in Hv.
    destruct (current <? user_version st); [done|].
    destruct (fault 1 fl); [done|].
    destruct (negb _ && _); [done|].
    destruct (execAll _ _ _); [done|].
    destruct (fault _ fl); [done|]. intros _. simpl.
    split_and!; try done.
    + intros H0. rewrite H0. done.
    + intros Hn0 _. by rewrite (proj2 (Z.eqb_neq _ _) Hn0).
  - rewrite !fault_nil.
    destruct (user_version st =? current) eqn:Hv.
    { apply Z.eqb_eq in Hv. simpl. split; [|done]. intros _. unfold current in *. lia. }
    apply Z.eqb_neq in Hv.
    destruct (current <? user_version st) eqn:Hgt; simpl.
    { split; [done|]. lia. }
    rewrite execAll_nil.
    destruct (user_version st =? 0) eqn:H0; simpl.
    { split; [|done]. lia. }
    destruct (user_version st <? 0) eqn:Hneg; simpl; [split; [done|lia]|].
    split; [lia|done].
  - rewrite !fault_nil.
    destruct (user_version st =? current) eqn:Hv.
    { apply Z.eqb_eq in Hv. simpl. split; [done|]. unfold current in *. lia. }
    destruct (current <? user_version st) eqn:Hgt; simpl.
    { split; [done|]. unfold current in *. lia. }
    rewrite execAll_nil.
    destruct (user_version st =? 0) eqn:H0; simpl.
    { split; [done|]. lia. }
    destruct (user_version st <? 0) eqn:Hneg; simpl; [split; [lia|done]|].
    split; [done|lia].
Qed.

End upgrade_facts.

(** ** The handlers that edit records *)

Section handlers_facts.
Import Database Handlers.

Variable validMessage : string -> bool.

Lemma prefix_scheme_cons a s :
  a <> ":"%char -> String.prefix "://" (String a s) = false.
Proof.
  intros Ha.
  change (String.prefix "://" (String a s))
    with (if ascii_dec ":" a then String.prefix "//" s else false).
  by destruct (ascii_dec ":" a) as [<-|].
Qed.

Lemma prefix_scheme_sep rest :
  String.prefix "://" (String ":" (String "/" (String "/" rest))) = true.
Proof. by destruct rest; vm_compute. Qed.

Definition noColon (s : string) : Prop :=
  Forall (fun c => c <> ":"%char) (list_ascii_of_string s).

Lemma cutScheme_scheme scheme rest : forall acc,
  noColon scheme ->
  cutScheme (scheme +:+ "://" +:+ rest) acc = Some (acc +:+ scheme).
Proof.
  unfold noColon. induction scheme as [|a scheme IH]; intros acc Hs.
  - rewrite append_empty_r.
    change ("" +:+ "://" +:+ rest) with (String ":" (String "/" (String "/" rest))).
    unfold cutScheme. by rewrite (prefix_scheme_sep rest).
  - simpl in Hs. apply Forall_cons in Hs as [Ha Hs].
    rewrite append_cons. unfold cutScheme. fold cutScheme.
    rewrite prefix_scheme_cons by done.
    rewrite IH by done. by rewrite append_assoc.
Qed.

(** An address [scheme://rest] has the scheme [scheme]. *)
Lemma schemeOf_scheme scheme rest :
  noColon scheme -> schemeOf (scheme +:+ "://" +:+ rest) = Some scheme.
Proof. intros Hs. unfold schemeOf. by rewrite cutScheme_scheme. Qed.

Lemma cutScheme_none s : forall acc, noColon s -> cutScheme s acc = None.
Proof.
  unfold noColon. induction s as [|a s IH]; intros acc Hs; [done|].
  simpl in Hs. apply Forall_cons in Hs as [Ha Hs].
  unfold cutScheme. fold cutScheme. rewrite prefix_scheme_cons by done.
  by apply IH.
Qed.

(** The address flag passes the check of the scheme. *)
Definition addrAccepted (fs : networkFlagSet) : Prop :=
  forall addr scheme,
    fAddr fs = Some addr -> schemeOf addr = Some scheme ->
    supportedScheme scheme = true.

(** The connect commands pass: a single empty one, or all of them valid. *)
Definition commandsAccepted (fs : networkFlagSet) : Prop :=
  fConnectCommands fs = [""] \/
  Forall (fun command => validMessage command = true) (fConnectCommands fs).

Lemma find_invalid_None cmds :
  List.find (fun command => negb (validMessage command)) cmds = None <->
  Forall (fun command => validMessage command = true) cmds.
Proof.
  induction cmds as [|c cmds IH]; simpl; [by split; [constructor|]|].
  destruct (validMessage c) eqn:Hc; simpl.
  - rewrite IH. split; [by constructor|]. by intros [_ ?]%Forall_cons.
  - split; [done|]. intros [? _]%Forall_cons. congruence.
Qed.

(** X26: [networkFlagSet.update] succeeds exactly when the address, if
    given with a scheme, has one of the three supported schemes, and the
    connect commands, if given, are a single empty command or all valid.
    It never touches the id nor the SASL settings.  On an unknown scheme
    the record is unchanged; on an invalid connect command the flags before
    it have already been written to the record.  On success every field
    has the value of its flag, or its old value without flag, and a single
    empty connect command clears the commands. *)
Theorem networkFlagSet_update (fs : networkFlagSet) (network : Network.t) :
  let r := update validMessage fs network in
  (r.2 = None <-> addrAccepted fs /\ commandsAccepted fs) /\
  Network.ID r.1 = Network.ID network /\
  Network.SASL r.1 = Network.SASL network /\
  (forall scheme, r.2 = Some (UnknownScheme scheme) -> r.1 = network) /\
  (forall command, r.2 = Some (InvalidConnectCommand command) ->
     command ∈ fConnectCommands fs /\ validMessage command = false /\
     r.1 = setPlainFlags fs
             (match fAddr fs with Some addr => setAddr network addr | None => network end)) /\
  (r.2 = None ->
     Network.Addr r.1 = default (Network.Addr network) (fAddr fs) /\
     Network.Name r.1 = default (Network.Name network) (fName fs) /\
     Network.Nick r.1 = default (Network.Nick network) (fNick fs) /\
     Network.Username r.1 = default (Network.Username network) (fUsername fs) /\
     Network.Pass r.1 = default (Network.Pass network) (fPass fs) /\
     Network.Realname r.1 = default (Network.Realname network) (fRealname fs) /\
     Network.Enabled r.1 = default (Network.Enabled network) (fEnabled fs) /\
     Network.ConnectCommands r.1 =
       match fConnectCommands fs with
       | [] => Network.ConnectCommands network
       | _ :: _ =>
           if bool_decide (fConnectCommands fs = [""]) then []
           else fConnectCommands fs
       end).
Proof.
  intros r. subst r. unfold update, addrAccepted, commandsAccepted.
  destruct fs as [addr name nick username pass realname enabled cmds]. simpl.
  assert (forall n : Network.t,
    let r := match cmds with
             | [] => (n, None)
             | _ :: _ =>
                 if bool_decide (cmds = [""]) then (setConnectCommands n [], None)
                 else match List.find (fun command => negb (validMessage command)) cmds with
                      | Some command => (n, Some (InvalidConnectCommand command))
                      | None => (setConnectCommands n cmds, None)
                      end
             end in
    (r.2 = None <-> cmds = [""] \/ Forall (fun c => validMessage c = true) cmds) /\
    (forall command, r.2 = Some (InvalidConnectCommand command) ->
       command ∈ cmds /\ validMessage command = false /\ r.1 = n) /\
    (forall scheme, r.2 <> Some (UnknownScheme scheme)) /\
    r.1 = setConnectCommands n (Network.ConnectCommands r.1) /\
    (r.2 = None -> Network.ConnectCommands r.1 =
       match cmds with
       | [] => Network.ConnectCommands n
       | _ :: _ => if bool_decide (cmds = [""]) then [] else cmds
       end)) as Hcmds.
  { intros n. destruct cmds as [|c cmds].
    - simpl. split_and!; try done; [by split; [right|]|by destruct n].
    - cbv beta iota zeta. remember (c :: cmds) as l eqn:Hl.
      case_bool_decide as He.
      + simpl. split_and!; try done. by split; [left|].
      + destruct (List.find (fun command => negb (validMessage command)) l)
          as [bad|] eqn:Hf; simpl.
        * split_and!; try done.
          -- split; [done|]. intros [?|Hall]; [done|].
             apply find_invalid_None in Hall. congruence.
          -- intros command [= <-]. apply find_some in Hf as [Hin Hv].
             split_and!; [by apply list_elem_of_In|by apply negb_true_iff|done].
          -- by destruct n.
        * split_and!; try done. split; [|done]. intros _. right.
          by apply find_invalid_None. }
  destruct addr as [addr|]; simpl.
  - destruct (schemeOf addr) as [scheme|] eqn:Hsch.
    + destruct (supportedScheme scheme) eqn:Hsup.
      * specialize (Hcmds (setPlainFlags
                             (mkNetworkFlagSet (Some addr) name nick username pass
                                               realname enabled cmds)
                             (setAddr network addr))).
        simpl in Hcmds. destruct Hcmds as (Hok & Hbad & Hns & Hrec & Hcc).
        split_and!.
        -- rewrite Hok. split; [|by intros [_ ?]]. intros Hc. split; [|done].
           intros a s [= <-]. congruence.
        -- by rewrite Hrec.
        -- by rewrite Hrec.
        -- intros scheme' Hs. by destruct (Hns scheme').
        -- done.
        -- intros Hn. rewrite Hrec. simpl. split_and!; try done.
           by rewrite <- Hcc.
      * simpl. split_and!; try done.
        split; [done|]. intros [Ha _]. specialize (Ha addr scheme eq_refl Hsch).
        congruence.
    + specialize (Hcmds (setPlainFlags
                           (mkNetworkFlagSet (Some addr) name nick username pass
                                             realname enabled cmds)
                           (setAddr network addr))).
      simpl in Hcmds. destruct Hcmds as (Hok & Hbad & Hns & Hrec & Hcc).
      split_and!.
      * rewrite Hok. split; [|by intros [_ ?]]. intros Hc. split; [|done].
        intros a s [= <-]. congruence.
      * by rewrite Hrec.
      * by rewrite Hrec.
      * intros scheme' Hs. by destruct (Hns scheme').
      * done.
      * intros Hn. rewrite Hrec. simpl. split_and!; try done.
        by rewrite <- Hcc.
  - specialize (Hcmds (setPlainFlags
                         (mkNetworkFlagSet None name nick username pass
                                           realname enabled cmds) network)).
    simpl in Hcmds. destruct Hcmds as (Hok & Hbad & Hns & Hrec & Hcc).
    split_and!.
    + rewrite Hok. split; [|by intros [_ ?]]. intros Hc. by split.
    + by rewrite Hrec.
    + by rewrite Hrec.
    + intros scheme' Hs. by destruct (Hns scheme').
    + done.
    + intros Hn. rewrite Hrec. simpl. split_and!; try done.
      by rewrite <- Hcc.
Qed.

(** The SASL columns of the row a successful store leaves under the id of
    the record are those of the arguments of the statement. *)
Lemma execStoreNetwork_sasl_columns fl db network args db' network' row :
  execStoreNetwork fl db network args = (db', network', None) ->
  tNetwork db' !! Network.ID network' = Some row ->
  n_sasl_mechanism row = n_sasl_mechanism args /\
  n_sasl_plain_username row = n_sasl_plain_username args /\
  n_sasl_plain_password row = n_sasl_plain_password args /\
  n_sasl_external_cert row = n_sasl_external_cert args /\
  n_sasl_external_key row = n_sasl_external_key args.
Proof.
  intros Hexec Hrow. destruct (decide (Network.ID network = 0)) as [Hz|Hnz].
  - destruct (execStoreNetwork_insert _ _ _ _ _ _ Hz Hexec) as (_ & _ & Ht & _).
    rewrite Ht, lookup_insert_eq in Hrow. by injection Hrow as <-.
  - destruct (execStoreNetwork_update _ _ _ _ _ _ Hnz Hexec) as (_ & -> & _ & Hn).
    rewrite Hn in Hrow. destruct (tNetwork db !! Network.ID network); [|done].
    by injection Hrow as <-.
Qed.

(** X27: what the two SASL commands leave in the database.  After a
    successful [sasl set-plain] the record has the mechanism PLAIN with the
    two credentials given and no certificate, and the row stored under its
    id has these credentials and NULL certificate columns.  After a
    successful [sasl reset] the record has no SASL setting left and the
    five SASL columns of the row are NULL.  Both commands refuse any other
    number of arguments without touching the database. *)
Theorem sasl_commands_store (fl : faults) (db : SqliteDB) (userID : Z)
    (getNetwork : string -> option Network.t) (params : list string) :
  (forall db' net',
     handleServiceSASLSetPlain fl db userID getNetwork params = (db', Some net', None) ->
     exists name username password,
       params = [name; username; password] /\
       Network.SASL net' = SASL.mk "PLAIN" username password None None /\
       forall row, tNetwork db' !! Network.ID net' = Some row ->
         n_sasl_mechanism row = Some "PLAIN" /\
         n_sasl_plain_username row = toNullString username /\
         n_sasl_plain_password row = toNullString password /\
         n_sasl_external_cert row = None /\ n_sasl_external_key row = None) /\
  (forall db' net',
     handleServiceSASLReset fl db userID getNetwork params = (db', Some net', None) ->
     exists name,
       params = [name] /\
       Network.SASL net' = SASL.mk "" "" "" None None /\
       forall row, tNetwork db' !! Network.ID net' = Some row ->
         n_sasl_mechanism row = None /\
         n_sasl_plain_username row = None /\
         n_sasl_plain_password row = None /\
         n_sasl_external_cert row = None /\ n_sasl_external_key row = None) /\
  (length params <> 3%nat ->
     handleServiceSASLSetPlain fl db userID getNetwork params
     = (db, None, Some WrongArguments)) /\
  (length params <> 1%nat ->
     handleServiceSASLReset fl db userID getNetwork params
     = (db, None, Some WrongArguments)).
Proof.
  split_and!.
  - intros db' net'. unfold handleServiceSASLSetPlain.
    destruct params as [|name [|username [|password [|? ?]]]]; try done.
    destruct (getNetwork name) as [net|]; [|done].
    destruct (StoreNetwork _ _ _ _) as [[db1 net1] [e|]] eqn:Hs; [done|].
    intros [= -> ->]. exists name, username, password. split; [done|].
    unfold StoreNetwork in Hs. simpl in Hs.
    pose proof (execStoreNetwork_insert fl db) as Hi.
    pose proof (execStoreNetwork_update fl db) as Hu.
    match type of Hs with execStoreNetwork _ _ ?n ?a = _ =>
      set (stored := n) in *; set (args := a) in * end.
    assert (net' = Network.withID stored (Network.ID net')) as Hn'.
    { destruct (decide (Network.ID stored = 0)) as [Hz|Hnz].
      - by destruct (Hi _ _ _ _ Hz Hs) as (_ & _ & _ & ?).
      - destruct (Hu _ _ _ _ Hnz Hs) as (_ & -> & _). by destruct stored. }
    split; [by rewrite Hn'|].
    intros row Hrow.
    by destruct (execStoreNetwork_sasl_columns _ _ _ _ _ _ _ Hs Hrow)
      as (-> & -> & -> & -> & ->).
  - intros db' net'. unfold handleServiceSASLReset.
    destruct params as [|name [|? ?]]; try done.
    destruct (getNetwork name) as [net|]; [|done].
    destruct (StoreNetwork _ _ _ _) as [[db1 net1] [e|]] eqn:Hs; [done|].
    intros [= -> ->]. exists name. split; [done|].
    unfold StoreNetwork in Hs. simpl in Hs.
    pose proof (execStoreNetwork_insert fl db) as Hi.
    pose proof (execStoreNetwork_update fl db) as Hu.
    match type of Hs with execStoreNetwork _ _ ?n ?a = _ =>
      set (stored := n) in *; set (args := a) in * end.
    assert (net' = Network.withID stored (Network.ID net')) as Hn'.
    { destruct (decide (Network.ID stored = 0)) as [Hz|Hnz].
      - by destruct (Hi _ _ _ _ Hz Hs) as (_ & _ & _ & ?).
      - destruct (Hu _ _ _ _ Hnz Hs) as (_ & -> & _). by destruct stored. }
    split; [by rewrite Hn'|].
    intros row Hrow.
    by destruct (execStoreNetwork_sasl_columns _ _ _ _ _ _ _ Hs Hrow)
      as (-> & -> & -> & -> & ->).
  - intros Hlen. unfold handleServiceSASLSetPlain.
    by destruct params as [|? [|? [|? [|? ?]]]].
  - intros Hlen. unfold handleServiceSASLReset.
    by destruct params as [|? [|? ?]].
Qed.

Lemma sasl_commands_store_witness :
  let getNetwork := fun _ : string =>
    Some (networkOfRow 10 (sampleNetwork 1 "irc.example.org")) in
  let r := handleServiceSASLSetPlain [] sampleDB 1 getNetwork
             ["libera"; "bob"; "secret"] in
  r.2 = None /\
  exists row, tNetwork r.1.1 !! 10 = Some row /\
    n_sasl_mechanism row = Some "PLAIN" /\
    n_sasl_plain_username row = Some "bob" /\
    n_sasl_plain_password row = Some "secret" /\
    n_sasl_external_cert row = None /\ n_sasl_external_key row = None.
Proof.
  intros getNetwork r.
  destruct r as [[db' net'] err] eqn:Hr.
  assert (err = None /\ exists net, net' = Some net /\ Network.ID net = 10 /\
          is_Some (tNetwork db' !! 10)) as (-> & net & -> & Hid & [row Hrow]).
  { subst r. vm_compute in Hr. injection Hr as <- <- <-.
    split; [done|]. eexists. split; [done|]. split; [done|]. by eexists. }
  split; [done|]. exists row. split; [done|].
  destruct (sasl_commands_store [] sampleDB 1 getNetwork
              ["libera"; "bob"; "secret"]) as (Hset & _).
  destruct (Hset db' net Hr) as (name & username & password & [= <- <- <-] & _ & Hcols).
  apply Hcols. by rewrite Hid.
Defined.

(** X28: who may update whom.  [handleUserUpdate] asks for the update of
    another user only for an admin, for a known user named by a first
    argument that is not a flag, is not empty and is not the own name, and
    never with a realname.  The update of the own record keeps the id, the
    name and the admin flag, and differs from the current record only by
    the hashed password and the realname given. *)
Theorem handleUserUpdate_authorization
    (parse : list string -> option userFlags) (hash : string -> option string)
    (getUser : string -> bool) (dcUser : User.t) (params : list string) :
  match handleUserUpdate parse hash getUser dcUser params with
  | inr (UpdateOther username password admin) =>
      User.Admin dcUser = true /\ getUser username = true /\
      username <> "" /\ username <> User.Username dcUser /\
      (exists rest fs, params = username :: rest /\
         String.prefix "-" username = false /\ parse rest = Some fs /\
         uRealname fs = None /\ admin = uAdmin fs /\ uArgs fs = [] /\
         password = (uPassword fs ≫= hash))
  | inr (UpdateSelf record) =>
      User.ID record = User.ID dcUser /\
      User.Username record = User.Username dcUser /\
      User.Admin record = User.Admin dcUser /\
      (exists fs, parse (popArg params).2 = Some fs /\ uAdmin fs = None /\
         User.Password record
           = default (User.Password dcUser) (uPassword fs ≫= hash) /\
         User.Realname record = default (User.Realname dcUser) (uRealname fs))
  | inl _ => True
  end.
Proof.
  unfold handleUserUpdate.
  destruct (popArg params) as [username rest] eqn:Hpop. simpl.
  destruct (parse rest) as [fs|] eqn:Hparse; [|done].
  destruct (0 <? length (uArgs fs))%nat eqn:Hargs; [done|].
  assert (uArgs fs = []) as Hnil.
  { apply Nat.ltb_ge in Hargs. destruct (uArgs fs); [done|simpl in Hargs; lia]. }
  remember (match uPassword fs with Some _ => _ | None => _ end)
    as hashedR eqn:Hh.
  destruct hashedR as [e|hashed]; [done|].
  assert (hashed = (uPassword fs ≫= hash)) as ->.
  { destruct (uPassword fs) as [pw|]; simpl in *; [|by injection Hh as <-].
    destruct (hash pw); [by injection Hh as <-|done]. }
  clear Hh.
  destruct (negb (username =? "")%string && negb (username =? User.Username dcUser)%string)
    eqn:Hother.
  - destruct (User.Admin dcUser) eqn:Hadm; simpl; [|done].
    case_bool_decide as Hreal; [done|].
    destruct (getUser username) eqn:Hget; simpl; [|done].
    apply andb_true_iff in Hother as [Hne Hown].
    apply negb_true_iff, String.eqb_neq in Hne, Hown.
    split_and!; try done.
    unfold popArg in Hpop. destruct params as [|p rest']; [by injection Hpop as <-|].
    destruct (String.prefix "-" p) eqn:Hpre; simpl in Hpop;
      injection Hpop as <- <-; [done|].
    exists rest', fs. split_and!; try done.
    destruct (uRealname fs); [|done]. destruct Hreal. by eexists.
  - case_bool_decide as Hadmin; [done|]. simpl. split_and!; try done.
    exists fs. split_and!; try done.
    destruct (uAdmin fs); [|done]. destruct Hadmin. by eexists.
Qed.

End handlers_facts.
